(** * Name collection for Quint name resolution

    A shallow embedding of the [NameCollector] class (the collector of
    top-level definitions, and of the definitions brought in by [import],
    [export] and [instance] statements), with the properties of its
    definition table, its conflict policy and its declaration handlers.

    The class is a mutable object; here every method is a function from the
    collector's state to its state after the call.  None of the methods
    throws: a call that returns is a total function. *)

From Stdlib Require Import List String Ascii ZArith Bool Lia Permutation.
Import ListNotations.
Open Scope string_scope.

(* ================================================================== *)
(** ** The IR the collector consumes *)

(** The kind tag of a definition ([def.kind]). *)
Inductive DefKind : Type :=
| KindVar
| KindConst
| KindDef
| KindTypedef
| KindAssume.

Definition DefKind_eqb (a b : DefKind) : bool :=
  match a, b with
  | KindVar, KindVar | KindConst, KindConst | KindDef, KindDef
  | KindTypedef, KindTypedef | KindAssume, KindAssume => true
  | _, _ => false
  end.

(** A parameter of an instance override, [param] in [[param, ex]]. *)
Record QuintLambdaParameter : Type := mkParam {
  param_id : Z;
  param_name : string
}.

(** The expression of an instance override; only its id is read. *)
Record QuintEx : Type := mkEx {
  ex_id : Z
}.

(** [QuintInstance]: it has no [defName] property. *)
Record QuintInstance : Type := mkInstance {
  inst_id : Z;
  inst_protoName : string;
  inst_qualifiedName : option string;
  inst_overrides : list (QuintLambdaParameter * QuintEx)
}.

Record QuintImport : Type := mkImport {
  imp_id : Z;
  imp_protoName : string;
  imp_defName : option string;
  imp_qualifiedName : option string
}.

Record QuintExport : Type := mkExport {
  exp_id : Z;
  exp_protoName : string;
  exp_defName : option string;
  exp_qualifiedName : option string
}.

(** [QuintImport | QuintExport | QuintInstance], the type of [importedFrom]. *)
Inductive ImportLike : Type :=
| DeclInstance (d : QuintInstance)
| DeclImport (d : QuintImport)
| DeclExport (d : QuintExport).

Definition decl_id (d : ImportLike) : Z :=
  match d with
  | DeclInstance i => inst_id i
  | DeclImport i => imp_id i
  | DeclExport e => exp_id e
  end.

Definition decl_protoName (d : ImportLike) : string :=
  match d with
  | DeclInstance i => inst_protoName i
  | DeclImport i => imp_protoName i
  | DeclExport e => exp_protoName e
  end.

Definition decl_qualifiedName (d : ImportLike) : option string :=
  match d with
  | DeclInstance i => inst_qualifiedName i
  | DeclImport i => imp_qualifiedName i
  | DeclExport e => exp_qualifiedName e
  end.

(** [(importedFrom as QuintImport).defName]: [undefined] on an instance. *)
Definition decl_defName (d : ImportLike) : option string :=
  match d with
  | DeclInstance _ => None
  | DeclImport i => imp_defName i
  | DeclExport e => exp_defName e
  end.

(** [LookupDefinition]: a definition with the fields the collector adds. *)
Record LookupDefinition : Type := mkDef {
  def_kind : DefKind;
  def_id : Z;
  def_name : string;
  def_typeAnnotation : option string;
  def_depth : option Z;
  def_namespaces : option (list string);
  def_importedFrom : option ImportLike
}.

(** [{ ...def, id }] *)
Definition withId (d : LookupDefinition) (i : Z) : LookupDefinition :=
  mkDef (def_kind d) i (def_name d) (def_typeAnnotation d) (def_depth d)
        (def_namespaces d) (def_importedFrom d).

(** [{ ...def, importedFrom }] *)
Definition withImportedFrom (d : LookupDefinition) (importedFrom : option ImportLike)
  : LookupDefinition :=
  mkDef (def_kind d) (def_id d) (def_name d) (def_typeAnnotation d) (def_depth d)
        (def_namespaces d) importedFrom.

(** [{ ...def, typeAnnotation: undefined, depth }] *)
Definition withoutAnnotationAtDepth (d : LookupDefinition) (depth : Z) : LookupDefinition :=
  mkDef (def_kind d) (def_id d) (def_name d) None (Some depth)
        (def_namespaces d) (def_importedFrom d).

(** [QuintModule]: the collector reads its name and id. *)
Record QuintModule : Type := mkModule {
  mod_id : Z;
  mod_name : string
}.

(** [QuintError]; its [data] field is always the empty object here. *)
Record QuintError : Type := mkError {
  code : string;
  message : string;
  reference : Z
}.

(* ================================================================== *)
(** ** JavaScript values used as conditions *)

(** Truthiness of a [string | undefined]: the empty string is falsy. *)
Definition truthyString (s : option string) : bool :=
  match s with
  | Some s => negb (String.eqb s "")
  | None => false
  end.

(** Truthiness of a [bigint | undefined]: [0n] is falsy. *)
Definition truthyBigint (i : option Z) : bool :=
  match i with
  | Some i => negb (Z.eqb i 0)
  | None => false
  end.

(** lodash's [compact] on strings: the falsy (empty) ones are dropped. *)
Definition compact (l : list string) : list string :=
  filter (fun s => negb (String.eqb s "")) l.

(* ================================================================== *)
(** ** JavaScript's [Map] with string keys

    A [Map] iterates in insertion order, and [set] on a key that is present
    keeps the key's position, so a map is the list of its entries. *)

Section JsMap.
Context {V : Type}.

Definition JsMap : Type := list (string * V).

(** [m.get(k)] *)
Fixpoint map_get (k : string) (m : JsMap) : option V :=
  match m with
  | [] => None
  | (k', v) :: m' => if String.eqb k k' then Some v else map_get k m'
  end.

(** [m.has(k)] *)
Definition map_has (k : string) (m : JsMap) : bool :=
  match map_get k m with
  | Some _ => true
  | None => false
  end.

(** [m.set(k, v)] *)
Fixpoint map_set (k : string) (v : V) (m : JsMap) : JsMap :=
  match m with
  | [] => [(k, v)]
  | (k', v') :: m' =>
      if String.eqb k k' then (k', v) :: m' else (k', v') :: map_set k v m'
  end.

(** [m.delete(k)] *)
Definition map_delete (k : string) (m : JsMap) : JsMap :=
  filter (fun e => negb (String.eqb k (fst e))) m.

(** [[...m.entries()]] *)
Definition map_entries (m : JsMap) : list (string * V) := m.

(** [new Map(entries)]: the entries are set one after the other. *)
Definition map_of_entries (entries : list (string * V)) : JsMap :=
  fold_left (fun m e => map_set (fst e) (snd e) m) entries [].

(** The keys of a map are pairwise distinct. *)
Definition map_wf (m : JsMap) : Prop := NoDup (map fst m).
End JsMap.

Arguments JsMap : clear implicits.

Definition DefinitionsByName : Type := JsMap LookupDefinition.
Definition DefinitionsByModule : Type := JsMap DefinitionsByName.

(** [LookupTable]: the collector holds one and never touches it. *)
Definition LookupTable : Type := list (Z * LookupDefinition).

(* ================================================================== *)
(** ** What the collector imports

    The collector takes [builtinNames], [addNamespacesToDef] and [copyNames]
    from the [base] module, [qualifier] from the IR and its error
    constructors from [importErrors].  They are parameters of the model. *)

Class Collaborators : Type := {
  builtinNames : list string;
  addNamespacesToDef : LookupDefinition -> list string -> LookupDefinition;
  copyNames : DefinitionsByName -> option string -> option bool -> DefinitionsByName;
  qualifier : ImportLike -> option string;
  selfReferenceError : ImportLike -> QuintError;
  moduleNotFoundError : ImportLike -> QuintError;
  nameNotFoundError : ImportLike -> QuintError;
  paramNotFoundError : QuintInstance -> QuintLambdaParameter -> QuintError;
  paramIsNotAConstantError : QuintInstance -> QuintLambdaParameter -> QuintError
}.

(* ================================================================== *)
(** ** The collector *)

(** The fields of [NameCollector].  [exitModule] puts the current table
    itself in the registry, and the two are one [Map] until the next
    [enterModule] makes a fresh table; the record holds them as two values,
    so it describes a collector that is inside a module, between
    [enterModule] and [exitModule]. *)
Record NameCollector : Type := mkCollector {
  definitionsByName : DefinitionsByName;
  definitionsByModule : DefinitionsByModule;
  errors : list QuintError;
  table : LookupTable;
  definitionDepth : Z;
  currentModuleName : string
}.

(** [new NameCollector()] *)
Definition newNameCollector : NameCollector :=
  mkCollector [] [] [] [] (-1) "".

(** [this.definitionsByName = m] *)
Definition setDefinitionsByName (m : DefinitionsByName) (st : NameCollector) : NameCollector :=
  mkCollector m (definitionsByModule st) (errors st) (table st)
              (definitionDepth st) (currentModuleName st).

(** [this.definitionsByModule = r] *)
Definition setDefinitionsByModule (r : DefinitionsByModule) (st : NameCollector) : NameCollector :=
  mkCollector (definitionsByName st) r (errors st) (table st)
              (definitionDepth st) (currentModuleName st).

(** [this.currentModuleName = n] *)
Definition setCurrentModuleName (n : string) (st : NameCollector) : NameCollector :=
  mkCollector (definitionsByName st) (definitionsByModule st) (errors st) (table st)
              (definitionDepth st) n.

(** [this.errors.push(e)] *)
Definition pushError (e : QuintError) (st : NameCollector) : NameCollector :=
  mkCollector (definitionsByName st) (definitionsByModule st) (errors st ++ [e]) (table st)
              (definitionDepth st) (currentModuleName st).

(** The diagnostics a step from [st] to [st'] has pushed. *)
Definition emitted (st st' : NameCollector) : list QuintError :=
  skipn (List.length (errors st)) (errors st').

(** [deleteDefinition(identifier)] *)
Definition deleteDefinition (identifier : string) (st : NameCollector) : NameCollector :=
  setDefinitionsByName (map_delete identifier (definitionsByName st)) st.

(** [getDefinition(identifier)] *)
Definition getDefinition (identifier : string) (st : NameCollector) : option LookupDefinition :=
  map_get identifier (definitionsByName st).

(** The two messages of [recordConflict]. *)
Definition conflictMessage (identifier moduleName : string) : string :=
  "Conflicting definitions found for name '" ++ identifier
    ++ "' in module '" ++ moduleName ++ "'".

Definition builtinMessage (identifier moduleName : string) : string :=
  "Built-in name '" ++ identifier ++ "' is redefined in module '" ++ moduleName ++ "'".

(** [recordConflict(identifier, exisitingSource, newSource)]: the existing
    source is tested for truthiness, both for the message and for the first
    diagnostic. *)
Definition recordConflict (identifier : string) (exisitingSource : option Z) (newSource : Z)
    (st : NameCollector) : NameCollector :=
  let message :=
    if truthyBigint exisitingSource
    then conflictMessage identifier (currentModuleName st)
    else builtinMessage identifier (currentModuleName st) in
  let st1 :=
    match exisitingSource with
    | Some existing =>
        if truthyBigint exisitingSource
        then pushError (mkError "QNT101" message existing) st
        else st
    | None => st
    end in
  pushError (mkError "QNT101" message newSource) st1.

(** [(importedFrom as QuintImport)?.defName ?? def.name] *)
Definition identifierOf (def : LookupDefinition) (importedFrom : option ImportLike) : string :=
  match importedFrom with
  | Some decl =>
      match decl_defName decl with
      | Some n => n
      | None => def_name def
      end
  | None => def_name def
  end.

(** [importedFrom?.id ?? def.id] *)
Definition sourceOf (def : LookupDefinition) (importedFrom : option ImportLike) : Z :=
  match importedFrom with
  | Some decl => decl_id decl
  | None => def_id def
  end.

Section Collector.
Context `{Collaborators}.

(** [namespaces(decl)] *)
Definition namespaces (decl : ImportLike) (st : NameCollector) : list string :=
  match decl with
  | DeclInstance i =>
      compact [match inst_qualifiedName i with
               | Some q => q
               | None => inst_protoName i
               end; currentModuleName st]
  | _ =>
      let namespace := qualifier decl in
      match namespace with
      | Some n => if truthyString namespace then [n] else []
      | None => []
      end
  end.

(** [importedFrom ? this.namespaces(importedFrom) : []] *)
Definition namespacesOf (importedFrom : option ImportLike) (st : NameCollector) : list string :=
  match importedFrom with
  | Some decl => namespaces decl st
  | None => []
  end.

(** [{ ...addNamespacesToDef(def, namespaces), importedFrom }], the record
    both collection methods put in the table. *)
Definition collected (def : LookupDefinition) (importedFrom : option ImportLike)
    (st : NameCollector) : LookupDefinition :=
  withImportedFrom (addNamespacesToDef def (namespacesOf importedFrom st)) importedFrom.

(** [collectDefinition(def, importedFrom)] *)
Definition collectDefinition (def : LookupDefinition) (importedFrom : option ImportLike)
    (st : NameCollector) : NameCollector :=
  let identifier := identifierOf def importedFrom in
  let source := sourceOf def importedFrom in
  if String.eqb identifier "_" then st
  else if existsb (String.eqb identifier) builtinNames
  then recordConflict identifier None source st
  else
    let insert :=
      setDefinitionsByName
        (map_set identifier (collected def importedFrom st) (definitionsByName st)) st in
    match map_get identifier (definitionsByName st) with
    | Some existing =>
        if negb (Z.eqb (def_id existing) (def_id def))
        then recordConflict identifier (Some (def_id existing)) source st
        else insert
    | None => insert
    end.

(** The callback [collectDefinitions] maps over the entries of [newDefs]:
    it records a conflict and returns the new entry all the same. *)
Definition collectEntry (importedFrom : option ImportLike)
    (acc : NameCollector * list (string * LookupDefinition))
    (entry : string * LookupDefinition)
  : NameCollector * list (string * LookupDefinition) :=
  let (st, newEntries) := acc in
  let (identifier, def) := entry in
  let st' :=
    match map_get identifier (definitionsByName st) with
    | Some existingEntry =>
        if negb (Z.eqb (def_id existingEntry) (def_id def))
        then recordConflict identifier (Some (def_id existingEntry)) (def_id def) st
        else st
    | None => st
    end in
  (st', (newEntries ++ [(identifier, collected def importedFrom st)])%list).

(** [collectDefinitions(newDefs, importedFrom)] *)
Definition collectDefinitions (newDefs : DefinitionsByName) (importedFrom : option ImportLike)
    (st : NameCollector) : NameCollector :=
  let (st', newEntries) :=
    fold_left (collectEntry importedFrom) (map_entries newDefs) (st, []) in
  setDefinitionsByName
    (map_of_entries (map_entries (definitionsByName st') ++ newEntries)%list) st'.

(** [enterModule(module)] *)
Definition enterModule (module : QuintModule) (st : NameCollector) : NameCollector :=
  let st1 := setDefinitionsByName [] (setCurrentModuleName (mod_name module) st) in
  if map_has (mod_name module) (definitionsByModule st1)
  then pushError
         (mkError "QNT102"
            ("Module with name '" ++ mod_name module ++ "' was already defined")
            (mod_id module)) st1
  else st1.

(** [exitModule(module)] *)
Definition exitModule (module : QuintModule) (st : NameCollector) : NameCollector :=
  setDefinitionsByModule
    (map_set (mod_name module) (definitionsByName st) (definitionsByModule st)) st.

(** [enterVar], [enterConst], [enterTypeDef], [enterAssume] *)
Definition enterVar (def : LookupDefinition) := collectDefinition def None.
Definition enterConst (def : LookupDefinition) := collectDefinition def None.
Definition enterTypeDef (def : LookupDefinition) := collectDefinition def None.
Definition enterAssume (def : LookupDefinition) := collectDefinition def None.

(** [enterOpDef(def)] *)
Definition enterOpDef (def : LookupDefinition) (st : NameCollector) : NameCollector :=
  if Z.eqb (definitionDepth st) 0
  then collectDefinition (withoutAnnotationAtDepth def (definitionDepth st)) None st
  else st.

(** The callback of [decl.overrides.forEach] in [enterInstance]; it works
    on the collector and on the instance table. *)
Definition applyOverride (decl : QuintInstance)
    (acc : NameCollector * DefinitionsByName)
    (override : QuintLambdaParameter * QuintEx)
  : NameCollector * DefinitionsByName :=
  let (st, instanceTable) := acc in
  let (param, ex) := override in
  match map_get (param_name param) instanceTable with
  | None => (pushError (paramNotFoundError decl param) st, instanceTable)
  | Some constDef =>
      if negb (DefKind_eqb (def_kind constDef) KindConst)
      then (pushError (paramIsNotAConstantError decl param) st, instanceTable)
      else (st, map_set (param_name param) (withId constDef (ex_id ex)) instanceTable)
  end.

(** [enterInstance(decl)].  The registry is given the instance table
    itself, before the overrides are applied to that same object: the
    entry the registry holds is the overridden table. *)
Definition enterInstance (decl : QuintInstance) (st : NameCollector) : NameCollector :=
  if String.eqb (inst_protoName decl) (currentModuleName st)
  then pushError (selfReferenceError (DeclInstance decl)) st
  else
    match map_get (inst_protoName decl) (definitionsByModule st) with
    | None => pushError (moduleNotFoundError (DeclInstance decl)) st
    | Some moduleTable =>
        let (st1, instanceTable) :=
          fold_left (applyOverride decl) (inst_overrides decl)
                    (st, map_of_entries (map_entries moduleTable)) in
        let st2 :=
          match inst_qualifiedName decl with
          | Some q =>
              if truthyString (inst_qualifiedName decl)
              then setDefinitionsByModule
                     (map_set q instanceTable (definitionsByModule st1)) st1
              else st1
          | None => st1
          end in
        let newDefs := copyNames instanceTable (inst_qualifiedName decl) (Some true) in
        collectDefinitions newDefs (Some (DeclInstance decl)) st2
    end.

(** [!decl.defName || decl.defName === '*'] *)
Definition importsAll (defName : option string) : bool :=
  negb (truthyString defName)
  || match defName with Some n => String.eqb n "*" | None => false end.

(** [enterImport(decl)] *)
Definition enterImport (decl : QuintImport) (st : NameCollector) : NameCollector :=
  if String.eqb (imp_protoName decl) (currentModuleName st)
  then pushError (selfReferenceError (DeclImport decl)) st
  else
    match map_get (imp_protoName decl) (definitionsByModule st) with
    | None => pushError (moduleNotFoundError (DeclImport decl)) st
    | Some moduleTable =>
        let st1 :=
          match imp_qualifiedName decl with
          | Some q =>
              if truthyString (imp_qualifiedName decl)
              then setDefinitionsByModule
                     (map_set q (map_of_entries (map_entries moduleTable))
                              (definitionsByModule st)) st
              else st
          | None => st
          end in
        let importableDefinitions :=
          copyNames moduleTable (qualifier (DeclImport decl)) (Some true) in
        if importsAll (imp_defName decl)
        then collectDefinitions importableDefinitions (Some (DeclImport decl)) st1
        else
          match imp_defName decl with
          | None => st1
          | Some defName =>
              match map_get defName importableDefinitions with
              | None => pushError (nameNotFoundError (DeclImport decl)) st1
              | Some newDef => collectDefinition newDef (Some (DeclImport decl)) st1
              end
          end
    end.

(** [enterExport(decl)] *)
Definition enterExport (decl : QuintExport) (st : NameCollector) : NameCollector :=
  if String.eqb (exp_protoName decl) (currentModuleName st)
  then pushError (selfReferenceError (DeclExport decl)) st
  else
    match map_get (exp_protoName decl) (definitionsByModule st) with
    | None => pushError (moduleNotFoundError (DeclExport decl)) st
    | Some moduleTable =>
        let exportableDefinitions :=
          copyNames moduleTable (qualifier (DeclExport decl)) None in
        if importsAll (exp_defName decl)
        then collectDefinitions exportableDefinitions (Some (DeclExport decl)) st
        else
          match exp_defName decl with
          | None => st
          | Some defName =>
              match map_get defName exportableDefinitions with
              | None => pushError (nameNotFoundError (DeclExport decl)) st
              | Some newDef => collectDefinition newDef (Some (DeclExport decl)) st
              end
          end
    end.
End Collector.

(* ================================================================== *)
(** ** An instance of the collaborators, after the specification *)

(** Modelled from the spec: the reserved built-in vocabulary of the [base]
    module, which is not among the sources.  The specification does not list
    the names; these three stand for them. *)
Definition specBuiltinNames : list string := ["not"; "and"; "size"].

(** Modelled from the spec: [addNamespacesToDef] of the [base] module, which
    is not among the sources; it attaches the namespace prefixes to the
    definition and leaves the rest of the record, its identity included, as
    it is. *)
Definition specAddNamespacesToDef (def : LookupDefinition) (ns : list string)
  : LookupDefinition :=
  match ns with
  | [] => def
  | _ =>
      mkDef (def_kind def) (def_id def) (def_name def) (def_typeAnnotation def)
            (def_depth def)
            (Some (match def_namespaces def with
                   | Some old => old ++ ns
                   | None => ns
                   end)%list)
            (def_importedFrom def)
  end.

(** A definition is unqualified when it carries no namespace. *)
Definition unqualified (def : LookupDefinition) : bool :=
  match def_namespaces def with
  | None | Some [] => true
  | Some (_ :: _) => false
  end.

(** Modelled from the spec: [copyNames] of the [base] module, which is not
    among the sources (the Namespace Copier).  Without a namespace every
    entry keeps its key; with one it is keyed by [namespace::name], and when
    [unhide] is set an unqualified definition is bound under its bare name
    too. *)
Definition specCopyNames (t : DefinitionsByName) (namespace : option string)
    (unhide : option bool) : DefinitionsByName :=
  fold_left
    (fun acc entry =>
       match namespace with
       | Some n =>
           if truthyString namespace
           then
             let acc1 := map_set (n ++ "::" ++ fst entry) (snd entry) acc in
             match unhide with
             | Some true =>
                 if unqualified (snd entry)
                 then map_set (fst entry) (snd entry) acc1
                 else acc1
             | _ => acc1
             end
           else map_set (fst entry) (snd entry) acc
       | None => map_set (fst entry) (snd entry) acc
       end)
    (map_entries t) [].

(** Modelled from the spec: [qualifier] of the IR module, which is not among
    the sources: the declared qualifier or else the module name for an
    import or an export, the declared qualifier for an instance. *)
Definition specQualifier (decl : ImportLike) : option string :=
  match decl with
  | DeclInstance i => inst_qualifiedName i
  | _ =>
      Some (match decl_qualifiedName decl with
            | Some q => q
            | None => decl_protoName decl
            end)
  end.

(** Modelled from the spec: the error constructors of the [importErrors]
    module, which is not among the sources.  Each diagnostic carries the code
    of the error taxonomy and refers to the offending declaration or
    parameter. *)
Definition specSelfReferenceError (decl : ImportLike) : QuintError :=
  mkError "SELF-REFERENCE" "a module imports, exports or instances itself" (decl_id decl).

Definition specModuleNotFoundError (decl : ImportLike) : QuintError :=
  mkError "MODULE-NOT-FOUND" "the referenced module was never registered" (decl_id decl).

Definition specNameNotFoundError (decl : ImportLike) : QuintError :=
  mkError "NAME-NOT-FOUND" "the name is absent from the source module" (decl_id decl).

Definition specParamNotFoundError (decl : QuintInstance) (param : QuintLambdaParameter)
  : QuintError :=
  mkError "PARAM-NOT-FOUND" "an override targets a nonexistent parameter" (param_id param).

Definition specParamIsNotAConstantError (decl : QuintInstance) (param : QuintLambdaParameter)
  : QuintError :=
  mkError "PARAM-NOT-CONST" "an override targets a non-constant parameter" (param_id param).

Definition specCollaborators : Collaborators := {|
  builtinNames := specBuiltinNames;
  addNamespacesToDef := specAddNamespacesToDef;
  copyNames := specCopyNames;
  qualifier := specQualifier;
  selfReferenceError := specSelfReferenceError;
  moduleNotFoundError := specModuleNotFoundError;
  nameNotFoundError := specNameNotFoundError;
  paramNotFoundError := specParamNotFoundError;
  paramIsNotAConstantError := specParamIsNotAConstantError
|}.

(* ================================================================== *)
(** ** Sample inputs *)

(** A top-level definition as the parser hands it over. *)
Definition topLevel (k : DefKind) (i : Z) (n : string) : LookupDefinition :=
  mkDef k i n None None None None.

(** A collector inside module [m] whose table is [t], with registry [r]. *)
Definition inModule (m : string) (t : DefinitionsByName) (r : DefinitionsByModule)
  : NameCollector :=
  mkCollector t r [] [] 0 m.

(** [const x] with id 1, and a second [x] with id 2. *)
Definition x1 : LookupDefinition := topLevel KindConst 1 "x".
Definition x2 : LookupDefinition := topLevel KindVar 2 "x".
Definition y3 : LookupDefinition := topLevel KindVar 3 "y".

(** Module [m] after [x1] and [y3] have been collected. *)
Definition stXY : NameCollector := inModule "m" [("x", x1); ("y", y3)] [].

(** [import A.x] (declaration id 7) *)
Definition importAx : QuintImport := mkImport 7 "A" (Some "x") None.

Definition exportA : QuintExport := mkExport 9 "A" None None.

(** Module [m] with [x1] alone. *)
Definition stX : NameCollector := inModule "m" [("x", x1)] [].

(** Module [m] with a local [var x] (id 5), module [A] holding [x1]. *)
Definition x5 : LookupDefinition := topLevel KindVar 5 "x".
Definition stLocalX : NameCollector := inModule "m" [("x", x5)] [("A", [("x", x1)])].


(** A second module [A] (id 20) entered when [A] is registered. *)
Definition moduleA : QuintModule := mkModule 20 "A".
Definition stRegisteredA : NameCollector := inModule "B" [] [("A", [("x", x1)])].

(** A definition named like a built-in, and one named [_]. *)
Definition notDef : LookupDefinition := topLevel KindDef 6 "not".
Definition discardDef : LookupDefinition := topLevel KindDef 4 "_".

(** Module [Bank] with [const limit] (id 1) and [var balance] (id 2). *)
Definition bankTable : DefinitionsByName :=
  [("limit", topLevel KindConst 1 "limit"); ("balance", topLevel KindVar 2 "balance")].

(** [instance Bank as B2(limit = e)] inside [Client], [e] with id 100
    (declaration id 10, parameter id 11). *)
Definition limitParam : QuintLambdaParameter := mkParam 11 "limit".
Definition instanceB2 : QuintInstance :=
  mkInstance 10 "Bank" (Some "B2") [(limitParam, mkEx 100)].

Definition stClient : NameCollector := inModule "Client" [] [("Bank", bankTable)].

(** [this.errors.push] for a run of diagnostics. *)
Definition pushErrors (es : list QuintError) (st : NameCollector) : NameCollector :=
  mkCollector (definitionsByName st) (definitionsByModule st) (errors st ++ es) (table st)
              (definitionDepth st) (currentModuleName st).

(** The diagnostics the callback of [collectDefinitions] pushes for one
    entry of the batch. *)
Definition entryDiagnostics `{Collaborators} (importedFrom : option ImportLike)
    (st : NameCollector) (entry : string * LookupDefinition) : list QuintError :=
  emitted st (fst (collectEntry importedFrom (st, []) entry)).

(** The entry the callback of [collectDefinitions] returns for an entry of
    the batch. *)
Definition collectedEntry `{Collaborators} (importedFrom : option ImportLike)
    (st : NameCollector) (entry : string * LookupDefinition) : string * LookupDefinition :=
  (fst entry, collected (snd entry) importedFrom st).

(** [instance Bank as B3(rate = e1, balance = e2, limit = e3)] inside
    [Client]: [rate] is not a name of [Bank], [balance] is a variable,
    [limit] is a constant (declaration id 15; the expressions have ids
    101, 102 and 100). *)
Definition instanceB3 : QuintInstance :=
  mkInstance 15 "Bank" (Some "B3")
             [(mkParam 13 "rate", mkEx 101); (mkParam 14 "balance", mkEx 102);
              (limitParam, mkEx 100)].

(** [instance Bank as B4(limit = e1, limit = e2)] inside [Client]: the
    constant is overridden twice (declaration id 16; the expressions have
    ids 100 and 200). *)
Definition instanceTwice : QuintInstance :=
  mkInstance 16 "Bank" (Some "B4") [(limitParam, mkEx 100); (mkParam 17 "limit", mkEx 200)].

(** The diagnostics the callback of [decl.overrides.forEach] pushes for
    one override, on the instance table [instanceTable]. *)
Definition overrideDiagnostics `{Collaborators} (decl : QuintInstance) (st : NameCollector)
    (instanceTable : DefinitionsByName) (override : QuintLambdaParameter * QuintEx)
  : list QuintError :=
  emitted st (fst (applyOverride decl (st, instanceTable) override)).

(* ================================================================== *)
(** ** The [BoundedUInt] module

    Bounded unsigned integers of the Quint library: records of a value and
    an error string, with checked, saturating and wrapping arithmetic.
    Quint's [int] is unbounded ([Z]).  Its operators [^], [/] and [%] are
    taken as the evaluator computes them on JavaScript's [BigInt] (power,
    truncated quotient and remainder); the evaluator raises an error on a
    negative exponent and on a zero divisor, where [Z.pow], [Z.quot] and
    [Z.rem] return a number. *)

Module BoundedUInt.

(** [type UIntT = { v: int, error: str }] *)
Record UIntT : Type := mkUIntT {
  v : Z;
  error : string
}.

(** [==] on two records *)
Definition UIntT_eqb (a b : UIntT) : bool :=
  (v a =? v b)%Z && String.eqb (error a) (error b).

Section Bits.
(** [const BITS: int] *)
Variable BITS : Z.

Definition MIN : Z := 0.

Definition MAX : Z := 2 ^ BITS - 1.

Definition UInt (x : Z) : UIntT :=
  mkUIntT x (if (MIN <=? x)%Z && (x <=? MAX)%Z then "" else "out of range").

Definition isInRange (x : UIntT) : bool :=
  (v x >=? MIN)%Z && (v x <=? MAX)%Z.

Definition isValid (x : UIntT) : bool :=
  String.eqb (error x) "" && isInRange x.

Definition wrapErrorBin (lhs rhs : UIntT) (op : UIntT -> UIntT -> UIntT) : UIntT :=
  if negb (isValid lhs) then lhs
  else if negb (isValid rhs) then rhs
  else op lhs rhs.

Definition absDiffUnsafe (lhs rhs : UIntT) : UIntT :=
  let res := (v lhs - v rhs)%Z in
  mkUIntT (if (res <? 0)%Z then (- res)%Z else res) "".

Definition absDiff (lhs rhs : UIntT) : UIntT := wrapErrorBin lhs rhs absDiffUnsafe.

(** *** Checked operations *)

Definition checkedAddUnsafe (lhs rhs : UIntT) : UIntT :=
  let res := (v lhs + v rhs)%Z in
  mkUIntT res (if (res >? MAX)%Z then "overflow" else "").

Definition checkedAdd (lhs rhs : UIntT) : UIntT := wrapErrorBin lhs rhs checkedAddUnsafe.

Definition checkedSubUnsafe (lhs rhs : UIntT) : UIntT :=
  let res := (v lhs - v rhs)%Z in
  mkUIntT res (if (res <? MIN)%Z then "underflow" else "").

Definition checkedSub (lhs rhs : UIntT) : UIntT := wrapErrorBin lhs rhs checkedSubUnsafe.

Definition checkedMulUnsafe (lhs rhs : UIntT) : UIntT :=
  let res := (v lhs * v rhs)%Z in
  mkUIntT res (if (res >? MAX)%Z then "overflow" else "").

Definition checkedMul (lhs rhs : UIntT) : UIntT := wrapErrorBin lhs rhs checkedMulUnsafe.

Definition checkedDivUnsafe (lhs rhs : UIntT) : UIntT :=
  if (v rhs =? 0)%Z then mkUIntT 0 "division by zero"
  else mkUIntT (Z.quot (v lhs) (v rhs)) "".

Definition checkedDiv (lhs rhs : UIntT) : UIntT := wrapErrorBin lhs rhs checkedDivUnsafe.

Definition checkedRemUnsafe (lhs rhs : UIntT) : UIntT :=
  if (v rhs =? 0)%Z then mkUIntT 0 "division by zero"
  else mkUIntT (Z.rem (v lhs) (v rhs)) "".

Definition checkedRem (lhs rhs : UIntT) : UIntT := wrapErrorBin lhs rhs checkedRemUnsafe.

Definition checkedPowUnsafe (lhs rhs : UIntT) : UIntT :=
  if (v lhs =? v rhs)%Z && (v lhs =? 0)%Z then mkUIntT 1 "undefined"
  else
    let res := (v lhs ^ v rhs)%Z in
    mkUIntT res (if (res >? MAX)%Z then "overflow" else "").

Definition checkedPow (lhs rhs : UIntT) : UIntT := wrapErrorBin lhs rhs checkedPowUnsafe.

(** *** Saturating operations *)

Definition saturatingAddUnsafe (lhs rhs : UIntT) : UIntT :=
  let res := (v lhs + v rhs)%Z in
  mkUIntT (if (res <? MAX)%Z then res else MAX) "".

Definition saturatingAdd (lhs rhs : UIntT) : UIntT :=
  wrapErrorBin lhs rhs saturatingAddUnsafe.

Definition saturatingSubUnsafe (lhs rhs : UIntT) : UIntT :=
  let res := (v lhs - v rhs)%Z in
  mkUIntT (if (res >? MIN)%Z then res else MIN) "".

Definition saturatingSub (lhs rhs : UIntT) : UIntT :=
  wrapErrorBin lhs rhs saturatingSubUnsafe.

Definition saturatingMulUnsafe (lhs rhs : UIntT) : UIntT :=
  let res := (v lhs * v rhs)%Z in
  mkUIntT (if (res <? MAX)%Z then res else MAX) "".

Definition saturatingMul (lhs rhs : UIntT) : UIntT :=
  wrapErrorBin lhs rhs saturatingMulUnsafe.

Definition saturatingPowUnsafe (lhs rhs : UIntT) : UIntT :=
  if (v lhs =? v rhs)%Z && (v lhs =? 0)%Z then mkUIntT 1 "undefined"
  else
    let res := (v lhs ^ v rhs)%Z in
    mkUIntT (if (res <? MAX)%Z then res else MAX) "".

Definition saturatingPow (lhs rhs : UIntT) : UIntT :=
  wrapErrorBin lhs rhs saturatingPowUnsafe.

(** *** Wrapping operations *)

Definition wrappingAddUnsafe (lhs rhs : UIntT) : UIntT :=
  mkUIntT (Z.rem (v lhs + v rhs) (MAX + 1)) "".

Definition wrappingAdd (lhs rhs : UIntT) : UIntT := wrapErrorBin lhs rhs wrappingAddUnsafe.

Definition wrappingSubUnsafe (lhs rhs : UIntT) : UIntT :=
  let res := (v lhs - v rhs)%Z in
  let adjusted := if (res <? MIN)%Z then (res + (MAX + 1))%Z else res in
  mkUIntT (Z.rem adjusted (MAX + 1)) "".

Definition wrappingSub (lhs rhs : UIntT) : UIntT := wrapErrorBin lhs rhs wrappingSubUnsafe.

Definition wrappingMulUnsafe (lhs rhs : UIntT) : UIntT :=
  mkUIntT (Z.rem (v lhs * v rhs) (MAX + 1)) "".

Definition wrappingMul (lhs rhs : UIntT) : UIntT := wrapErrorBin lhs rhs wrappingMulUnsafe.

Definition wrappingDiv (lhs rhs : UIntT) : UIntT := checkedDiv lhs rhs.

Definition wrappingRem (lhs rhs : UIntT) : UIntT := checkedRem lhs rhs.

Definition wrappingPowUnsafe (lhs rhs : UIntT) : UIntT :=
  if (v lhs =? v rhs)%Z && (v lhs =? 0)%Z then mkUIntT 1 "undefined"
  else mkUIntT (Z.rem (v lhs ^ v rhs) (MAX + 1)) "".

Definition wrappingPow (lhs rhs : UIntT) : UIntT := wrapErrorBin lhs rhs wrappingPowUnsafe.
End Bits.
End BoundedUInt.

(* ================================================================== *)
(** ** The tests of [BoundedUInt]

    [BoundedUInt_Test] imports [BoundedUInt] and is instantiated at the
    widths 8, 16 and 32.  [assert] is the identity on booleans here. *)

Module BoundedUInt_Test.
Import BoundedUInt.

Section Bits.
Variable BITS : Z.
Local Open Scope Z_scope.

Definition BitsTest : bool := BITS >? 1.

Definition CAddInvsTest : bool :=
  UIntT_eqb (checkedAdd BITS (UInt BITS 0) (UInt BITS 0)) (mkUIntT 0 "")
  && UIntT_eqb (checkedAdd BITS (UInt BITS 1) (UInt BITS 0)) (mkUIntT 1 "")
  && UIntT_eqb (checkedAdd BITS (UInt BITS (MAX BITS - 1)) (UInt BITS 0))
       (mkUIntT (MAX BITS - 1) "")
  && UIntT_eqb (checkedAdd BITS (UInt BITS (MAX BITS)) (UInt BITS 0)) (mkUIntT (MAX BITS) "")
  && String.eqb (error (checkedAdd BITS (UInt BITS (MAX BITS + 1)) (UInt BITS 0))) "out of range"
  && UIntT_eqb (checkedAdd BITS (UInt BITS 0) (UInt BITS (MAX BITS))) (mkUIntT (MAX BITS) "")
  && UIntT_eqb (checkedAdd BITS (UInt BITS 1) (UInt BITS (MAX BITS)))
       (mkUIntT (MAX BITS + 1) "overflow")
  && UIntT_eqb (checkedAdd BITS (UInt BITS (MAX BITS - 1)) (UInt BITS (MAX BITS)))
       (mkUIntT (2 * MAX BITS - 1) "overflow")
  && UIntT_eqb (checkedAdd BITS (UInt BITS (MAX BITS)) (UInt BITS (MAX BITS)))
       (mkUIntT (2 * MAX BITS) "overflow")
  && String.eqb (error (checkedAdd BITS (UInt BITS (MAX BITS)) (UInt BITS (MAX BITS + 1)))) "out of range".

Definition CSubInvsTest : bool :=
  UIntT_eqb (checkedSub BITS (UInt BITS 0) (UInt BITS 0)) (mkUIntT 0 "")
  && UIntT_eqb (checkedSub BITS (UInt BITS 1) (UInt BITS 0)) (mkUIntT 1 "")
  && UIntT_eqb (checkedSub BITS (UInt BITS (MAX BITS - 1)) (UInt BITS 0))
       (mkUIntT (MAX BITS - 1) "")
  && UIntT_eqb (checkedSub BITS (UInt BITS (MAX BITS)) (UInt BITS 0)) (mkUIntT (MAX BITS) "")
  && String.eqb (error (checkedSub BITS (UInt BITS (MAX BITS + 1)) (UInt BITS 0))) "out of range"
  && UIntT_eqb (checkedSub BITS (UInt BITS 0) (UInt BITS (MAX BITS)))
       (mkUIntT (-MAX BITS) "underflow")
  && UIntT_eqb (checkedSub BITS (UInt BITS 1) (UInt BITS (MAX BITS)))
       (mkUIntT (-(MAX BITS - 1)) "underflow")
  && UIntT_eqb (checkedSub BITS (UInt BITS (MAX BITS - 1)) (UInt BITS (MAX BITS)))
       (mkUIntT (-1) "underflow")
  && UIntT_eqb (checkedSub BITS (UInt BITS (MAX BITS)) (UInt BITS (MAX BITS))) (mkUIntT 0 "")
  && String.eqb (error (checkedSub BITS (UInt BITS (MAX BITS + 1)) (UInt BITS (MAX BITS)))) "out of range".

Definition CMulInvsTest : bool :=
  UIntT_eqb (checkedMul BITS (UInt BITS 0) (UInt BITS 1)) (mkUIntT 0 "")
  && UIntT_eqb (checkedMul BITS (UInt BITS 1) (UInt BITS 1)) (mkUIntT 1 "")
  && UIntT_eqb (checkedMul BITS (UInt BITS (MAX BITS - 1)) (UInt BITS 1))
       (mkUIntT (MAX BITS - 1) "")
  && UIntT_eqb (checkedMul BITS (UInt BITS (MAX BITS)) (UInt BITS 1)) (mkUIntT (MAX BITS) "")
  && String.eqb (error (checkedMul BITS (UInt BITS (MAX BITS + 1)) (UInt BITS 1))) "out of range"
  && UIntT_eqb (checkedMul BITS (UInt BITS 0) (UInt BITS (MAX BITS))) (mkUIntT 0 "")
  && UIntT_eqb (checkedMul BITS (UInt BITS 1) (UInt BITS (MAX BITS))) (mkUIntT (MAX BITS) "")
  && UIntT_eqb (checkedMul BITS (UInt BITS (MAX BITS - 1)) (UInt BITS (MAX BITS)))
       (mkUIntT (MAX BITS^2 - MAX BITS) "overflow")
  && UIntT_eqb (checkedMul BITS (UInt BITS (MAX BITS)) (UInt BITS (MAX BITS)))
       (mkUIntT (MAX BITS^2) "overflow")
  && String.eqb (error (checkedMul BITS (UInt BITS (MAX BITS + 1)) (UInt BITS (MAX BITS)))) "out of range".

Definition CDivInvsTest : bool :=
  String.eqb (error (checkedDiv BITS (UInt BITS 0) (UInt BITS 0))) "division by zero"
  && String.eqb (error (checkedDiv BITS (UInt BITS 1) (UInt BITS 0))) "division by zero"
  && String.eqb (error (checkedDiv BITS (UInt BITS (MAX BITS - 1)) (UInt BITS 0))) "division by zero"
  && String.eqb (error (checkedDiv BITS (UInt BITS (MAX BITS)) (UInt BITS 0))) "division by zero"
  && String.eqb (error (checkedDiv BITS (UInt BITS (MAX BITS + 1)) (UInt BITS 0))) "out of range"
  && UIntT_eqb (checkedDiv BITS (UInt BITS 0) (UInt BITS 1)) (mkUIntT 0 "")
  && UIntT_eqb (checkedDiv BITS (UInt BITS 1) (UInt BITS 1)) (mkUIntT 1 "")
  && UIntT_eqb (checkedDiv BITS (UInt BITS (MAX BITS - 1)) (UInt BITS 1))
       (mkUIntT (MAX BITS - 1) "")
  && UIntT_eqb (checkedDiv BITS (UInt BITS (MAX BITS)) (UInt BITS 1)) (mkUIntT (MAX BITS) "")
  && String.eqb (error (checkedDiv BITS (UInt BITS (MAX BITS + 1)) (UInt BITS 1))) "out of range"
  && UIntT_eqb (checkedDiv BITS (UInt BITS 0) (UInt BITS (MAX BITS))) (mkUIntT 0 "")
  && UIntT_eqb (checkedDiv BITS (UInt BITS 1) (UInt BITS (MAX BITS))) (mkUIntT 0 "")
  && UIntT_eqb (checkedDiv BITS (UInt BITS (MAX BITS - 1)) (UInt BITS (MAX BITS))) (mkUIntT 0 "")
  && UIntT_eqb (checkedDiv BITS (UInt BITS (MAX BITS)) (UInt BITS (MAX BITS))) (mkUIntT 1 "")
  && String.eqb (error (checkedDiv BITS (UInt BITS (MAX BITS + 1)) (UInt BITS (MAX BITS)))) "out of range".

Definition CRemInvsTest : bool :=
  String.eqb (error (checkedRem BITS (UInt BITS 0) (UInt BITS 0))) "division by zero"
  && String.eqb (error (checkedRem BITS (UInt BITS 1) (UInt BITS 0))) "division by zero"
  && String.eqb (error (checkedRem BITS (UInt BITS (MAX BITS - 1)) (UInt BITS 0))) "division by zero"
  && String.eqb (error (checkedRem BITS (UInt BITS (MAX BITS)) (UInt BITS 0))) "division by zero"
  && String.eqb (error (checkedRem BITS (UInt BITS (MAX BITS + 1)) (UInt BITS 0))) "out of range"
  && UIntT_eqb (checkedRem BITS (UInt BITS 0) (UInt BITS 1)) (mkUIntT 0 "")
  && UIntT_eqb (checkedRem BITS (UInt BITS 1) (UInt BITS 1)) (mkUIntT 0 "")
  && UIntT_eqb (checkedRem BITS (UInt BITS (MAX BITS - 1)) (UInt BITS 1)) (mkUIntT 0 "")
  && UIntT_eqb (checkedRem BITS (UInt BITS (MAX BITS)) (UInt BITS 1)) (mkUIntT 0 "")
  && String.eqb (error (checkedRem BITS (UInt BITS (MAX BITS + 1)) (UInt BITS 1))) "out of range"
  && UIntT_eqb (checkedRem BITS (UInt BITS 0) (UInt BITS (MAX BITS))) (mkUIntT 0 "")
  && UIntT_eqb (checkedRem BITS (UInt BITS 1) (UInt BITS (MAX BITS))) (mkUIntT 1 "")
  && UIntT_eqb (checkedRem BITS (UInt BITS (MAX BITS - 1)) (UInt BITS (MAX BITS)))
       (mkUIntT (MAX BITS - 1) "")
  && UIntT_eqb (checkedRem BITS (UInt BITS (MAX BITS)) (UInt BITS (MAX BITS))) (mkUIntT 0 "")
  && String.eqb (error (checkedRem BITS (UInt BITS (MAX BITS + 1)) (UInt BITS (MAX BITS)))) "out of range".

Definition CPowInvsTest : bool :=
  String.eqb (error (checkedPow BITS (UInt BITS 0) (UInt BITS 0))) "undefined"
  && UIntT_eqb (checkedPow BITS (UInt BITS 0) (UInt BITS 1)) (mkUIntT 0 "")
  && UIntT_eqb (checkedPow BITS (UInt BITS 1) (UInt BITS 0)) (mkUIntT 1 "")
  && UIntT_eqb (checkedPow BITS (UInt BITS 1) (UInt BITS 1)) (mkUIntT 1 "")
  && UIntT_eqb (checkedPow BITS (UInt BITS (MAX BITS - 1)) (UInt BITS 1))
       (mkUIntT (MAX BITS - 1) "")
  && UIntT_eqb (checkedPow BITS (UInt BITS (MAX BITS)) (UInt BITS 1)) (mkUIntT (MAX BITS) "")
  && UIntT_eqb (checkedPow BITS (UInt BITS (MAX BITS)) (UInt BITS 0)) (mkUIntT 1 "")
  && String.eqb (error (checkedPow BITS (UInt BITS (MAX BITS + 1)) (UInt BITS 1))) "out of range"
  && UIntT_eqb (checkedPow BITS (UInt BITS 0) (UInt BITS (MAX BITS))) (mkUIntT 0 "")
  && UIntT_eqb (checkedPow BITS (UInt BITS 1) (UInt BITS (MAX BITS))) (mkUIntT 1 "")
  && UIntT_eqb (checkedPow BITS (UInt BITS 2) (UInt BITS (BITS - 1))) (mkUIntT (2^(BITS - 1)) "")
  && UIntT_eqb (checkedPow BITS (UInt BITS 2) (UInt BITS (BITS)))
       (mkUIntT (MAX BITS + 1) "overflow")
  && UIntT_eqb (checkedPow BITS (UInt BITS 2) (UInt BITS (BITS + 1)))
       (mkUIntT (2 * MAX BITS + 2) "overflow").

Definition SAddInvsTest : bool :=
  UIntT_eqb (saturatingAdd BITS (UInt BITS 0) (UInt BITS 0)) (mkUIntT 0 "")
  && UIntT_eqb (saturatingAdd BITS (UInt BITS 1) (UInt BITS 0)) (mkUIntT 1 "")
  && UIntT_eqb (saturatingAdd BITS (UInt BITS (MAX BITS - 1)) (UInt BITS 0))
       (mkUIntT (MAX BITS - 1) "")
  && UIntT_eqb (saturatingAdd BITS (UInt BITS (MAX BITS)) (UInt BITS 0)) (mkUIntT (MAX BITS) "")
  && String.eqb (error (saturatingAdd BITS (UInt BITS (MAX BITS + 1)) (UInt BITS 0))) "out of range"
  && UIntT_eqb (saturatingAdd BITS (UInt BITS 0) (UInt BITS (MAX BITS))) (mkUIntT (MAX BITS) "")
  && UIntT_eqb (saturatingAdd BITS (UInt BITS 1) (UInt BITS (MAX BITS))) (mkUIntT (MAX BITS) "")
  && UIntT_eqb (saturatingAdd BITS (UInt BITS (MAX BITS - 1)) (UInt BITS (MAX BITS)))
       (mkUIntT (MAX BITS) "")
  && UIntT_eqb (saturatingAdd BITS (UInt BITS (MAX BITS)) (UInt BITS (MAX BITS)))
       (mkUIntT (MAX BITS) "")
  && String.eqb (error (saturatingAdd BITS (UInt BITS (MAX BITS + 1)) (UInt BITS (MAX BITS)))) "out of range".

Definition SSubInvsTest : bool :=
  UIntT_eqb (saturatingSub BITS (UInt BITS 0) (UInt BITS 0)) (mkUIntT 0 "")
  && UIntT_eqb (saturatingSub BITS (UInt BITS 1) (UInt BITS 0)) (mkUIntT 1 "")
  && UIntT_eqb (saturatingSub BITS (UInt BITS 0) (UInt BITS 1)) (mkUIntT 0 "")
  && UIntT_eqb (saturatingSub BITS (UInt BITS (MAX BITS - 1)) (UInt BITS 0))
       (mkUIntT (MAX BITS - 1) "")
  && UIntT_eqb (saturatingSub BITS (UInt BITS (MAX BITS)) (UInt BITS 0)) (mkUIntT (MAX BITS) "")
  && String.eqb (error (saturatingSub BITS (UInt BITS (MAX BITS + 1)) (UInt BITS 0))) "out of range"
  && UIntT_eqb (saturatingSub BITS (UInt BITS 0) (UInt BITS (MAX BITS))) (mkUIntT 0 "")
  && UIntT_eqb (saturatingSub BITS (UInt BITS 1) (UInt BITS (MAX BITS))) (mkUIntT 0 "")
  && UIntT_eqb (saturatingSub BITS (UInt BITS (MAX BITS - 1)) (UInt BITS (MAX BITS)))
       (mkUIntT 0 "")
  && UIntT_eqb (saturatingSub BITS (UInt BITS (MAX BITS)) (UInt BITS (MAX BITS))) (mkUIntT 0 "")
  && String.eqb (error (saturatingSub BITS (UInt BITS (MAX BITS + 1)) (UInt BITS (MAX BITS)))) "out of range".

Definition SMulInvsTest : bool :=
  UIntT_eqb (saturatingMul BITS (UInt BITS 0) (UInt BITS 1)) (mkUIntT 0 "")
  && UIntT_eqb (saturatingMul BITS (UInt BITS 1) (UInt BITS 1)) (mkUIntT 1 "")
  && UIntT_eqb (saturatingMul BITS (UInt BITS (MAX BITS - 1)) (UInt BITS 1))
       (mkUIntT (MAX BITS - 1) "")
  && UIntT_eqb (saturatingMul BITS (UInt BITS (MAX BITS)) (UInt BITS 1)) (mkUIntT (MAX BITS) "")
  && String.eqb (error (saturatingMul BITS (UInt BITS (MAX BITS + 1)) (UInt BITS 1))) "out of range"
  && UIntT_eqb (saturatingMul BITS (UInt BITS 0) (UInt BITS (MAX BITS))) (mkUIntT 0 "")
  && UIntT_eqb (saturatingMul BITS (UInt BITS 1) (UInt BITS (MAX BITS))) (mkUIntT (MAX BITS) "")
  && UIntT_eqb (saturatingMul BITS (UInt BITS (MAX BITS - 1)) (UInt BITS (MAX BITS)))
       (mkUIntT (MAX BITS) "")
  && UIntT_eqb (saturatingMul BITS (UInt BITS (MAX BITS)) (UInt BITS (MAX BITS)))
       (mkUIntT (MAX BITS) "")
  && String.eqb (error (saturatingMul BITS (UInt BITS (MAX BITS + 1)) (UInt BITS (MAX BITS)))) "out of range".

Definition SPowInvsTest : bool :=
  String.eqb (error (saturatingPow BITS (UInt BITS 0) (UInt BITS 0))) "undefined"
  && UIntT_eqb (saturatingPow BITS (UInt BITS 0) (UInt BITS 1)) (mkUIntT 0 "")
  && UIntT_eqb (saturatingPow BITS (UInt BITS 1) (UInt BITS 0)) (mkUIntT 1 "")
  && UIntT_eqb (saturatingPow BITS (UInt BITS 1) (UInt BITS 1)) (mkUIntT 1 "")
  && UIntT_eqb (saturatingPow BITS (UInt BITS (MAX BITS - 1)) (UInt BITS 1))
       (mkUIntT (MAX BITS - 1) "")
  && UIntT_eqb (saturatingPow BITS (UInt BITS (MAX BITS)) (UInt BITS 1)) (mkUIntT (MAX BITS) "")
  && String.eqb (error (saturatingPow BITS (UInt BITS (MAX BITS + 1)) (UInt BITS 1))) "out of range"
  && UIntT_eqb (saturatingPow BITS (UInt BITS 0) (UInt BITS (MAX BITS))) (mkUIntT 0 "")
  && UIntT_eqb (saturatingPow BITS (UInt BITS 1) (UInt BITS (MAX BITS))) (mkUIntT 1 "")
  && UIntT_eqb (saturatingPow BITS (UInt BITS 2) (UInt BITS (BITS - 1)))
       (mkUIntT (2^(BITS - 1)) "")
  && UIntT_eqb (saturatingPow BITS (UInt BITS 2) (UInt BITS (BITS))) (mkUIntT (MAX BITS) "")
  && UIntT_eqb (saturatingPow BITS (UInt BITS 2) (UInt BITS (BITS + 1))) (mkUIntT (MAX BITS) "").

Definition WAddInvsTest : bool :=
  UIntT_eqb (wrappingAdd BITS (UInt BITS 0) (UInt BITS 0)) (mkUIntT 0 "")
  && UIntT_eqb (wrappingAdd BITS (UInt BITS 1) (UInt BITS 0)) (mkUIntT 1 "")
  && UIntT_eqb (wrappingAdd BITS (UInt BITS (MAX BITS - 1)) (UInt BITS 0))
       (mkUIntT (MAX BITS - 1) "")
  && UIntT_eqb (wrappingAdd BITS (UInt BITS (MAX BITS)) (UInt BITS 0)) (mkUIntT (MAX BITS) "")
  && UIntT_eqb (wrappingAdd BITS (UInt BITS (MAX BITS)) (UInt BITS 1)) (mkUIntT 0 "")
  && String.eqb (error (wrappingAdd BITS (UInt BITS (MAX BITS + 1)) (UInt BITS 0))) "out of range"
  && UIntT_eqb (wrappingAdd BITS (UInt BITS 0) (UInt BITS (MAX BITS))) (mkUIntT (MAX BITS) "")
  && UIntT_eqb (wrappingAdd BITS (UInt BITS 1) (UInt BITS (MAX BITS))) (mkUIntT 0 "")
  && UIntT_eqb (wrappingAdd BITS (UInt BITS (MAX BITS - 1)) (UInt BITS (MAX BITS)))
       (mkUIntT (MAX BITS - 2) "")
  && UIntT_eqb (wrappingAdd BITS (UInt BITS (MAX BITS)) (UInt BITS (MAX BITS)))
       (mkUIntT (MAX BITS - 1) "")
  && String.eqb (error (wrappingAdd BITS (UInt BITS (MAX BITS + 1)) (UInt BITS (MAX BITS)))) "out of range".

Definition WSubInvsTest : bool :=
  UIntT_eqb (wrappingSub BITS (UInt BITS 0) (UInt BITS 0)) (mkUIntT 0 "")
  && UIntT_eqb (wrappingSub BITS (UInt BITS 1) (UInt BITS 0)) (mkUIntT 1 "")
  && UIntT_eqb (wrappingSub BITS (UInt BITS 0) (UInt BITS 1)) (mkUIntT (MAX BITS) "")
  && UIntT_eqb (wrappingSub BITS (UInt BITS 1) (UInt BITS 1)) (mkUIntT 0 "")
  && UIntT_eqb (wrappingSub BITS (UInt BITS (MAX BITS - 1)) (UInt BITS 0))
       (mkUIntT (MAX BITS - 1) "")
  && UIntT_eqb (wrappingSub BITS (UInt BITS (MAX BITS)) (UInt BITS 0)) (mkUIntT (MAX BITS) "")
  && String.eqb (error (wrappingSub BITS (UInt BITS (MAX BITS + 1)) (UInt BITS 0))) "out of range"
  && UIntT_eqb (wrappingSub BITS (UInt BITS 0) (UInt BITS (MAX BITS))) (mkUIntT 1 "")
  && UIntT_eqb (wrappingSub BITS (UInt BITS 1) (UInt BITS (MAX BITS))) (mkUIntT 2 "")
  && UIntT_eqb (wrappingSub BITS (UInt BITS (MAX BITS - 1)) (UInt BITS (MAX BITS)))
       (mkUIntT (MAX BITS) "")
  && UIntT_eqb (wrappingSub BITS (UInt BITS (MAX BITS)) (UInt BITS (MAX BITS))) (mkUIntT 0 "")
  && String.eqb (error (wrappingSub BITS (UInt BITS (MAX BITS + 1)) (UInt BITS (MAX BITS)))) "out of range".

Definition WMulInvsTest : bool :=
  UIntT_eqb (wrappingMul BITS (UInt BITS 0) (UInt BITS 1)) (mkUIntT 0 "")
  && UIntT_eqb (wrappingMul BITS (UInt BITS 1) (UInt BITS 1)) (mkUIntT 1 "")
  && UIntT_eqb (wrappingMul BITS (UInt BITS (MAX BITS - 1)) (UInt BITS 1))
       (mkUIntT (MAX BITS - 1) "")
  && UIntT_eqb (wrappingMul BITS (UInt BITS (MAX BITS)) (UInt BITS 1)) (mkUIntT (MAX BITS) "")
  && String.eqb (error (wrappingMul BITS (UInt BITS (MAX BITS + 1)) (UInt BITS 1))) "out of range"
  && UIntT_eqb (wrappingMul BITS (UInt BITS 0) (UInt BITS (MAX BITS))) (mkUIntT 0 "")
  && UIntT_eqb (wrappingMul BITS (UInt BITS 1) (UInt BITS (MAX BITS))) (mkUIntT (MAX BITS) "")
  && UIntT_eqb (wrappingMul BITS (UInt BITS (MAX BITS - 1)) (UInt BITS (MAX BITS))) (mkUIntT 2 "")
  && UIntT_eqb (wrappingMul BITS (UInt BITS (MAX BITS)) (UInt BITS (MAX BITS))) (mkUIntT 1 "")
  && String.eqb (error (wrappingMul BITS (UInt BITS (MAX BITS + 1)) (UInt BITS (MAX BITS)))) "out of range".

Definition WPowInvsTest : bool :=
  String.eqb (error (wrappingPow BITS (UInt BITS 0) (UInt BITS 0))) "undefined"
  && UIntT_eqb (wrappingPow BITS (UInt BITS 0) (UInt BITS 1)) (mkUIntT 0 "")
  && UIntT_eqb (wrappingPow BITS (UInt BITS 1) (UInt BITS 0)) (mkUIntT 1 "")
  && UIntT_eqb (wrappingPow BITS (UInt BITS 1) (UInt BITS 1)) (mkUIntT 1 "")
  && UIntT_eqb (wrappingPow BITS (UInt BITS (MAX BITS - 1)) (UInt BITS 1))
       (mkUIntT (MAX BITS - 1) "")
  && UIntT_eqb (wrappingPow BITS (UInt BITS (MAX BITS)) (UInt BITS 1)) (mkUIntT (MAX BITS) "")
  && String.eqb (error (wrappingPow BITS (UInt BITS (MAX BITS + 1)) (UInt BITS 1))) "out of range"
  && UIntT_eqb (wrappingPow BITS (UInt BITS 0) (UInt BITS (MAX BITS))) (mkUIntT 0 "")
  && UIntT_eqb (wrappingPow BITS (UInt BITS 1) (UInt BITS (MAX BITS))) (mkUIntT 1 "")
  && UIntT_eqb (wrappingPow BITS (UInt BITS 2) (UInt BITS (BITS - 1))) (mkUIntT (2^(BITS - 1)) "")
  && UIntT_eqb (wrappingPow BITS (UInt BITS 2) (UInt BITS (BITS))) (mkUIntT 0 "")
  && UIntT_eqb (wrappingPow BITS (UInt BITS 2) (UInt BITS (BITS + 1))) (mkUIntT 0 "").

Definition AbsDiffTest : bool :=
  UIntT_eqb (absDiff BITS (UInt BITS 0) (UInt BITS 1)) (mkUIntT 1 "")
  && UIntT_eqb (absDiff BITS (UInt BITS 1) (UInt BITS 1)) (mkUIntT 0 "")
  && UIntT_eqb (absDiff BITS (UInt BITS (MAX BITS - 1)) (UInt BITS 1)) (mkUIntT (MAX BITS - 2) "")
  && UIntT_eqb (absDiff BITS (UInt BITS (MAX BITS)) (UInt BITS 1)) (mkUIntT (MAX BITS - 1) "")
  && String.eqb (error (absDiff BITS (UInt BITS (MAX BITS + 1)) (UInt BITS 1))) "out of range"
  && UIntT_eqb (absDiff BITS (UInt BITS 0) (UInt BITS (MAX BITS))) (mkUIntT (MAX BITS) "")
  && UIntT_eqb (absDiff BITS (UInt BITS 1) (UInt BITS (MAX BITS))) (mkUIntT (MAX BITS - 1) "")
  && UIntT_eqb (absDiff BITS (UInt BITS (MAX BITS - 1)) (UInt BITS (MAX BITS))) (mkUIntT 1 "")
  && UIntT_eqb (absDiff BITS (UInt BITS (MAX BITS)) (UInt BITS (MAX BITS))) (mkUIntT 0 "")
  && String.eqb (error (absDiff BITS (UInt BITS (MAX BITS + 1)) (UInt BITS (MAX BITS)))) "out of range".
End Bits.
End BoundedUInt_Test.

(* ================================================================== *)
(** ** The listener that builds an effect: [ToEffectVisitor]

    The class is a listener of the generated effect parser: the tree walk
    calls one method per parse-tree node, and the methods build the effect
    on three stacks.  An array is the list of its elements in order, so the
    top of a stack is the last element.  [Array.pop] gives [undefined] on
    an empty array; the methods take it for a value all the same
    ([pop()!] is checked by no code), and would build an effect around
    [undefined].  The model has no effect with a hole: a method has no
    result on a stack that is too short. *)

Module ToEffect.

(** [arr.pop()]: the last element and the array without it. *)
Definition pop {A : Type} (arr : list A) : option (A * list A) :=
  match rev arr with
  | [] => None
  | x :: rest => Some (x, rev rest)
  end.

(** [arr.push(x)] *)
Definition push {A : Type} (x : A) (arr : list A) : list A := (arr ++ [x])%list.

(** [Variables] *)
#[warnings="-register-all"]
Inductive Variables : Type :=
| VarsConcrete (vars : list string)
| VarsQuantification (name : string)
| VarsUnion (variables : list Variables).

(** [Effect] *)
#[warnings="-register-all"]
Inductive Effect : Type :=
| EffConcrete (read update : Variables)
| EffVar (name : string)
| EffArrow (effects : list Effect).

(** The fields of [ToEffectVisitor]. *)
Record ToEffectVisitor : Type := mkVisitor {
  effect : option Effect;
  effectStack : list (list Effect);
  variablesStack : list Variables;
  stateVars : list string
}.

(** [new ToEffectVisitor()] *)
Definition newToEffectVisitor : ToEffectVisitor := mkVisitor None [] [] [].

(** [pushEffect(effect)] *)
Definition pushEffect (e : Effect) (st : ToEffectVisitor) : ToEffectVisitor :=
  match pop (effectStack st) with
  | Some (top, below) =>
      mkVisitor (Some e) (push (push e top) below) (variablesStack st) (stateVars st)
  | None => mkVisitor (Some e) (effectStack st) (variablesStack st) (stateVars st)
  end.

Section Listener.
(** [emptyVariables] comes from the [base] module of the effects, which is
    not among the sources. *)
Variable emptyVariables : Variables.

(** [exitReadOnly()] *)
Definition exitReadOnly (st : ToEffectVisitor) : option ToEffectVisitor :=
  match pop (variablesStack st) with
  | Some (variables, rest) =>
      Some (pushEffect (EffConcrete variables emptyVariables)
                       (mkVisitor (effect st) (effectStack st) rest (stateVars st)))
  | None => None
  end.

(** [exitUpdateOnly()] *)
Definition exitUpdateOnly (st : ToEffectVisitor) : option ToEffectVisitor :=
  match pop (variablesStack st) with
  | Some (variables, rest) =>
      Some (pushEffect (EffConcrete emptyVariables variables)
                       (mkVisitor (effect st) (effectStack st) rest (stateVars st)))
  | None => None
  end.

(** [exitReadAndUpdate()]: the update is popped first. *)
Definition exitReadAndUpdate (st : ToEffectVisitor) : option ToEffectVisitor :=
  match pop (variablesStack st) with
  | Some (update, rest) =>
      match pop rest with
      | Some (read, rest') =>
          Some (pushEffect (EffConcrete read update)
                           (mkVisitor (effect st) (effectStack st) rest' (stateVars st)))
      | None => None
      end
  | None => None
  end.

(** [exitPure()] *)
Definition exitPure (st : ToEffectVisitor) : option ToEffectVisitor :=
  Some (pushEffect (EffConcrete emptyVariables emptyVariables) st).

(** [exitVarEffect(ctx)], [name] being [ctx.IDENTIFIER().text] *)
Definition exitVarEffect (name : string) (st : ToEffectVisitor) : option ToEffectVisitor :=
  Some (pushEffect (EffVar name) st).

(** [enterArrowEffect()] *)
Definition enterArrowEffect (st : ToEffectVisitor) : option ToEffectVisitor :=
  Some (mkVisitor (effect st) (push [] (effectStack st)) (variablesStack st) (stateVars st)).

(** [exitArrowEffect()] *)
Definition exitArrowEffect (st : ToEffectVisitor) : option ToEffectVisitor :=
  match pop (effectStack st) with
  | Some (effects, rest) =>
      Some (pushEffect (EffArrow effects)
                       (mkVisitor (effect st) rest (variablesStack st) (stateVars st)))
  | None => None
  end.

(** [exitConcreteVars()] *)
Definition exitConcreteVars (st : ToEffectVisitor) : option ToEffectVisitor :=
  Some (mkVisitor (effect st) (effectStack st)
                  (push (VarsConcrete (stateVars st)) (variablesStack st)) []).

(** [exitQuantification(ctx)], [names] being the texts of
    [ctx.IDENTIFIER()] *)
Definition exitQuantification (names : list string) (st : ToEffectVisitor)
  : option ToEffectVisitor :=
  match names with
  | [name] =>
      Some (mkVisitor (effect st) (effectStack st)
                      (push (VarsQuantification name) (variablesStack st)) (stateVars st))
  | _ =>
      Some (mkVisitor (effect st) (effectStack st)
                      (push (VarsUnion (map VarsQuantification names)) (variablesStack st))
                      (stateVars st))
  end.

(** [exitStateVarRef(ctx)], [varRef] being [ctx.IDENTIFIER().text] *)
Definition exitStateVarRef (varRef : string) (st : ToEffectVisitor)
  : option ToEffectVisitor :=
  Some (mkVisitor (effect st) (effectStack st) (variablesStack st)
                  (push varRef (stateVars st))).

(** The calls a tree walk makes on the listener, one per method. *)
Inductive Call : Type :=
| CallExitReadOnly
| CallExitUpdateOnly
| CallExitReadAndUpdate
| CallExitPure
| CallExitVarEffect (name : string)
| CallEnterArrowEffect
| CallExitArrowEffect
| CallExitConcreteVars
| CallExitQuantification (names : list string)
| CallExitStateVarRef (varRef : string).

Definition call (c : Call) (st : ToEffectVisitor) : option ToEffectVisitor :=
  match c with
  | CallExitReadOnly => exitReadOnly st
  | CallExitUpdateOnly => exitUpdateOnly st
  | CallExitReadAndUpdate => exitReadAndUpdate st
  | CallExitPure => exitPure st
  | CallExitVarEffect name => exitVarEffect name st
  | CallEnterArrowEffect => enterArrowEffect st
  | CallExitArrowEffect => exitArrowEffect st
  | CallExitConcreteVars => exitConcreteVars st
  | CallExitQuantification names => exitQuantification names st
  | CallExitStateVarRef varRef => exitStateVarRef varRef st
  end.

(** A sequence of calls, stopping where a method has no result. *)
Fixpoint calls (cs : list Call) (st : ToEffectVisitor) : option ToEffectVisitor :=
  match cs with
  | [] => Some st
  | c :: cs' =>
      match call c st with
      | Some st' => calls cs' st'
      | None => None
      end
  end.

(** The parse trees the listener is written for.  The grammar and the
    generated parser are not among the sources: the trees are read off the
    listener, one constructor per context its methods are named after, the
    variables of an effect being a list of state variable references or a
    quantification over names. *)
Inductive VarsTree : Type :=
| ConcreteVars (stateVarRefs : list string)
| Quantification (names : list string).

#[warnings="-register-all"]
Inductive EffectTree : Type :=
| ReadOnly (vars : VarsTree)
| UpdateOnly (vars : VarsTree)
| ReadAndUpdate (read update : VarsTree)
| Pure
| VarEffect (name : string)
| ArrowEffect (children : list EffectTree).

(** The walk of a listener over a tree, as a parse-tree walker does it:
    the enter method of a node, its children from left to right, its exit
    method. *)
Definition walkVars (t : VarsTree) : list Call :=
  match t with
  | ConcreteVars refs => (map CallExitStateVarRef refs ++ [CallExitConcreteVars])%list
  | Quantification names => [CallExitQuantification names]
  end.

Fixpoint walk (t : EffectTree) : list Call :=
  match t with
  | ReadOnly vars => (walkVars vars ++ [CallExitReadOnly])%list
  | UpdateOnly vars => (walkVars vars ++ [CallExitUpdateOnly])%list
  | ReadAndUpdate read update =>
      (walkVars read ++ walkVars update ++ [CallExitReadAndUpdate])%list
  | Pure => [CallExitPure]
  | VarEffect name => [CallExitVarEffect name]
  | ArrowEffect children =>
      (CallEnterArrowEffect :: flat_map walk children ++ [CallExitArrowEffect])%list
  end.

(** The variables and the effect a tree stands for. *)
Definition variablesOf (t : VarsTree) : Variables :=
  match t with
  | ConcreteVars refs => VarsConcrete refs
  | Quantification [name] => VarsQuantification name
  | Quantification names => VarsUnion (map VarsQuantification names)
  end.

Fixpoint effectOf (t : EffectTree) : Effect :=
  match t with
  | ReadOnly vars => EffConcrete (variablesOf vars) emptyVariables
  | UpdateOnly vars => EffConcrete emptyVariables (variablesOf vars)
  | ReadAndUpdate read update => EffConcrete (variablesOf read) (variablesOf update)
  | Pure => EffConcrete emptyVariables emptyVariables
  | VarEffect name => EffVar name
  | ArrowEffect children => EffArrow (map effectOf children)
  end.
End Listener.
End ToEffect.

(* ================================================================== *)
(** ** The [option] module

    A Quint state machine: the state variables are the fields of the state,
    an action is a function to the next state that has no result where the
    action is disabled, and the [nondet] values of [step] are its choice. *)

Module OptionModule.

(** [type VoteOption = None | Some(int)] is [option Z]. *)
Record State : Type := mkState {
  votes : list (option Z);
  outcome : Z
}.

(** [action init] *)
Definition init : State := mkState [] 0.

(** [val sumVotes] *)
Definition sumVotes (s : State) : Z :=
  fold_left (fun sum v => match v with Some n => (sum + n)%Z | None => sum end)
            (votes s) 0%Z.

(** [l.replaceAt(i, x)] *)
Fixpoint replaceAt {A : Type} (l : list A) (i : nat) (x : A) : list A :=
  match l, i with
  | [], _ => []
  | _ :: l', O => x :: l'
  | y :: l', S i' => y :: replaceAt l' i' x
  end.

(** What [step] picks: [v] in [oneOf(Int)] for a vote, [i] in
    [oneOf(votes.indices())] for a withdrawal. *)
Inductive Choice : Type :=
| Vote (v : Z)
| Unvote (i : nat).

(** [action vote(v)]: the next value of [votes]; always enabled. *)
Definition vote (v : Z) (s : State) : option (list (option Z)) :=
  Some (votes s ++ [Some v])%list.

(** [action unvote(i)]: enabled when [votes[i] != None], for [i] among the
    indices of [votes]. *)
Definition unvote (i : nat) (s : State) : option (list (option Z)) :=
  match nth_error (votes s) i with
  | Some (Some _) => Some (replaceAt (votes s) i None)
  | _ => None
  end.

(** [action step]: [vote(v)] or [unvote(i)], and [outcome' = sumVotes]. *)
Definition step (c : Choice) (s : State) : option State :=
  match (match c with Vote v => vote v s | Unvote i => unvote i s end) with
  | Some votes' => Some (mkState votes' (sumVotes s))
  | None => None
  end.

(** A run: the steps of a list of choices, one after the other. *)
Fixpoint run (cs : list Choice) (s : State) : option State :=
  match cs with
  | [] => Some s
  | c :: cs' =>
      match step c s with
      | Some s' => run cs' s'
      | None => None
      end
  end.

Definition isVote (c : Choice) : bool :=
  match c with Vote _ => true | Unvote _ => false end.

Definition isNone (v : option Z) : bool :=
  match v with None => true | Some _ => false end.
End OptionModule.

(* ================================================================== *)
(** ** Facts about maps *)

Section JsMapFacts.
Context {V : Type}.
Implicit Types (m : JsMap V) (k : string) (v : V).

Lemma map_get_set_eq k v m : map_get k (map_set k v m) = Some v.
Proof.
  induction m as [|[k' v'] m IH]; simpl.
  - now rewrite String.eqb_refl.
  - destruct (String.eqb k k') eqn:E; simpl; rewrite E; auto.
Qed.

Lemma map_get_set_neq k k' v m :
  k <> k' -> map_get k (map_set k' v m) = map_get k m.
Proof.
  intros Hne. induction m as [|[k0 v0] m IH]; simpl.
  - apply String.eqb_neq in Hne. now rewrite Hne.
  - destruct (String.eqb k' k0) eqn:E; simpl.
    + apply String.eqb_eq in E. subst k0.
      apply String.eqb_neq in Hne. now rewrite Hne.
    + now rewrite IH.
Qed.

Lemma map_set_get_same k v m : map_get k m = Some v -> map_set k v m = m.
Proof.
  induction m as [|[k' v'] m IH]; simpl; intros Hg.
  - discriminate.
  - destruct (String.eqb k k') eqn:E.
    + now inversion Hg.
    + now rewrite IH.
Qed.

Lemma map_set_idem k v m : map_set k v (map_set k v m) = map_set k v m.
Proof. apply map_set_get_same, map_get_set_eq. Qed.

Lemma map_get_delete_eq k m : map_get k (map_delete k m) = None.
Proof.
  unfold map_delete. induction m as [|[k' v'] m IH]; simpl; auto.
  destruct (String.eqb k k') eqn:E; simpl; auto.
  now rewrite E.
Qed.

Lemma map_get_delete_neq k k' m :
  k <> k' -> map_get k (map_delete k' m) = map_get k m.
Proof.
  intros Hne. unfold map_delete.
  induction m as [|[k0 v0] m IH]; simpl; auto.
  destruct (String.eqb k' k0) eqn:E; simpl.
  - apply String.eqb_eq in E. subst k0.
    apply String.eqb_neq in Hne. now rewrite Hne.
  - now rewrite IH.
Qed.

Lemma map_delete_absent k m : map_get k m = None -> map_delete k m = m.
Proof.
  unfold map_delete. induction m as [|[k' v'] m IH]; simpl; auto.
  destruct (String.eqb k k') eqn:E; simpl; intros Hg.
  - discriminate.
  - now rewrite IH.
Qed.

Lemma map_get_absent k m : ~ In k (map fst m) -> map_get k m = None.
Proof.
  induction m as [|[k' v'] m IH]; simpl; auto.
  intros Hn. destruct (String.eqb k k') eqn:E.
  - apply String.eqb_eq in E. subst. tauto.
  - apply IH. tauto.
Qed.

Lemma map_get_None_not_In k m : map_get k m = None -> ~ In k (map fst m).
Proof.
  induction m as [|[k' v'] m IH]; simpl; auto.
  destruct (String.eqb k k') eqn:E; [discriminate|].
  apply String.eqb_neq in E. intros Hg [Heq|Hin]; [congruence|]. now apply IH.
Qed.

Lemma map_get_set_all_absent (l : list (string * V)) :
  forall m k,
    ~ In k (map fst l) ->
    map_get k (fold_left (fun m e => map_set (fst e) (snd e) m) l m) = map_get k m.
Proof.
  induction l as [|[k0 v0] l IH]; simpl; intros m k Hn; auto.
  rewrite IH by tauto. apply map_get_set_neq. intros ->. tauto.
Qed.

Lemma map_get_In k v m : map_get k m = Some v -> In (k, v) m.
Proof.
  induction m as [|[k' v'] m IH]; simpl; intros Hg.
  - discriminate.
  - destruct (String.eqb k k') eqn:E.
    + apply String.eqb_eq in E. inversion Hg. subst. now left.
    + right. auto.
Qed.

Lemma map_In_get k v m : map_wf m -> In (k, v) m -> map_get k m = Some v.
Proof.
  unfold map_wf. induction m as [|[k' v'] m IH]; simpl; intros Hwf Hin.
  - contradiction.
  - inversion Hwf as [|? ? Hnotin Hwf']. subst.
    destruct Hin as [Heq | Hin].
    + inversion Heq. subst. now rewrite String.eqb_refl.
    + destruct (String.eqb k k') eqn:E.
      * apply String.eqb_eq in E. subst k'.
        exfalso. apply Hnotin. change k with (fst (k, v)). now apply in_map.
      * auto.
Qed.

(** Setting the entries of a batch with distinct keys into a map: a key of
    the batch gets the batch's value, any other key keeps its own. *)
Lemma map_get_set_all (l : list (string * V)) :
  map_wf l ->
  forall m k,
    map_get k (fold_left (fun m e => map_set (fst e) (snd e) m) l m)
    = match map_get k l with
      | Some v => Some v
      | None => map_get k m
      end.
Proof.
  unfold map_wf. induction l as [|[k0 v0] l IH]; simpl; intros Hwf m k; auto.
  inversion Hwf as [|? ? Hnotin Hwf']. subst.
  rewrite IH by assumption.
  destruct (String.eqb k k0) eqn:E.
  - apply String.eqb_eq in E. subst k0.
    rewrite map_get_absent by assumption. apply map_get_set_eq.
  - destruct (map_get k l); auto.
    apply map_get_set_neq. now apply String.eqb_neq.
Qed.

(** The same for a batch that need not have distinct keys, by what the
    batch alone builds. *)
Lemma map_get_set_all_gen (l : list (string * V)) :
  forall m k,
    map_get k (fold_left (fun m e => map_set (fst e) (snd e) m) l m)
    = match map_get k (map_of_entries l) with
      | Some v => Some v
      | None => map_get k m
      end.
Proof.
  unfold map_of_entries.
  induction l as [|[k0 v0] l IH] using rev_ind; simpl; intros m k; auto.
  rewrite !fold_left_app. simpl.
  destruct (String.eqb k k0) eqn:E.
  - apply String.eqb_eq in E. subst k0. now rewrite !map_get_set_eq.
  - apply String.eqb_neq in E. rewrite !map_get_set_neq by assumption. apply IH.
Qed.

Lemma map_get_of_entries_app (a b : list (string * V)) k :
  map_get k (map_of_entries (a ++ b))
  = match map_get k (map_of_entries b) with
    | Some v => Some v
    | None => map_get k (map_of_entries a)
    end.
Proof.
  unfold map_of_entries at 1. rewrite fold_left_app.
  apply map_get_set_all_gen.
Qed.

Lemma map_get_of_entries_wf (l : list (string * V)) k :
  map_wf l -> map_get k (map_of_entries l) = map_get k l.
Proof.
  intros Hwf. unfold map_of_entries. rewrite map_get_set_all by assumption.
  now destruct (map_get k l).
Qed.

(** On maps with distinct keys, lookup does not depend on the order of the
    entries. *)
Lemma map_get_Permutation (l l' : list (string * V)) k :
  map_wf l -> Permutation l l' -> map_get k l = map_get k l'.
Proof.
  intros Hwf Hp.
  assert (Hwf' : map_wf l').
  { unfold map_wf in *. eapply Permutation_NoDup; [|exact Hwf].
    now apply Permutation_map. }
  destruct (map_get k l) as [v|] eqn:E.
  - symmetry. apply map_In_get; auto.
    eapply Permutation_in; [exact Hp|]. now apply map_get_In.
  - destruct (map_get k l') as [v'|] eqn:E'; auto.
    apply map_get_In in E'.
    apply Permutation_sym in Hp.
    eapply Permutation_in in E'; [|exact Hp].
    apply map_In_get in E'; auto. congruence.
Qed.
End JsMapFacts.

(* ================================================================== *)
(** ** Facts about the collector's state *)

Lemma skipn_length_app {A : Type} (l es : list A) : skipn (List.length l) (l ++ es) = es.
Proof. induction l; simpl; auto. Qed.

Lemma pushErrors_nil st : pushErrors [] st = st.
Proof. destruct st. unfold pushErrors. simpl. now rewrite app_nil_r. Qed.

Lemma pushErrors_pushErrors es es' st :
  pushErrors es' (pushErrors es st) = pushErrors (es ++ es') st.
Proof. unfold pushErrors. simpl. now rewrite app_assoc. Qed.

Lemma pushError_pushErrors e st : pushError e st = pushErrors [e] st.
Proof. reflexivity. Qed.

Lemma emitted_pushErrors es st : emitted st (pushErrors es st) = es.
Proof. unfold emitted, pushErrors. simpl. apply skipn_length_app. Qed.

Lemma emitted_pushError e st : emitted st (pushError e st) = [e].
Proof. apply (emitted_pushErrors [e]). Qed.

Lemma emitted_setDefinitionsByName m es st :
  emitted st (setDefinitionsByName m (pushErrors es st)) = es.
Proof. unfold emitted, pushErrors. simpl. apply skipn_length_app. Qed.

(** A conflict with an existing definition whose id is not [0n]: two
    diagnostics, the existing source first. *)
Lemma recordConflict_existing identifier existing newSource st :
  existing <> 0%Z ->
  recordConflict identifier (Some existing) newSource st
  = pushErrors
      [mkError "QNT101" (conflictMessage identifier (currentModuleName st)) existing;
       mkError "QNT101" (conflictMessage identifier (currentModuleName st)) newSource]
      st.
Proof.
  intros Hnz. unfold recordConflict, truthyBigint.
  apply Z.eqb_neq in Hnz. rewrite Hnz. simpl.
  unfold pushError, pushErrors. simpl. now rewrite <- app_assoc.
Qed.

(** A conflict with a built-in name: one diagnostic. *)
Lemma recordConflict_builtin identifier newSource st :
  recordConflict identifier None newSource st
  = pushError (mkError "QNT101" (builtinMessage identifier (currentModuleName st)) newSource) st.
Proof. reflexivity. Qed.

Lemma existsb_eqb_In (k : string) (l : list string) :
  existsb (String.eqb k) l = true <-> In k l.
Proof.
  rewrite existsb_exists. split.
  - intros [x [Hin E]]. apply String.eqb_eq in E. now subst.
  - intros Hin. exists k. split; auto. apply String.eqb_refl.
Qed.

Lemma existsb_eqb_not_In (k : string) (l : list string) :
  ~ In k l -> existsb (String.eqb k) l = false.
Proof.
  intros Hn. destruct (existsb (String.eqb k) l) eqn:E; auto.
  apply existsb_eqb_In in E. contradiction.
Qed.

Section CollectorFacts.
Context `{Collaborators}.

(** [recordConflict] only pushes, and what it pushes does not depend on
    the diagnostics recorded so far. *)
Lemma recordConflict_pushErrors identifier existing newSource es st :
  recordConflict identifier existing newSource (pushErrors es st)
  = pushErrors (es ++ emitted st (recordConflict identifier existing newSource st)) st.
Proof.
  unfold recordConflict, emitted.
  destruct existing as [i|]; simpl;
    [destruct (negb (i =? 0)%Z)|];
    unfold pushError, pushErrors; simpl;
    rewrite <- ?app_assoc; rewrite skipn_length_app; simpl;
    rewrite <- ?app_assoc; reflexivity.
Qed.

(** What one run of the batch callback does to the accumulator. *)
Lemma collectEntry_pushErrors importedFrom es st acc entry :
  collectEntry importedFrom (pushErrors es st, acc) entry
  = (pushErrors (es ++ entryDiagnostics importedFrom st entry) st,
     (acc ++ [collectedEntry importedFrom st entry])%list).
Proof.
  destruct entry as [identifier def].
  unfold entryDiagnostics, collectedEntry, collectEntry. simpl.
  destruct (map_get identifier (definitionsByName st)) as [existing|].
  - destruct (negb (def_id existing =? def_id def)%Z).
    + now rewrite recordConflict_pushErrors.
    + unfold emitted. rewrite skipn_all. now rewrite app_nil_r.
  - unfold emitted. rewrite skipn_all. now rewrite app_nil_r.
Qed.

Lemma fold_collectEntry importedFrom st entries :
  forall es acc,
    fold_left (collectEntry importedFrom) entries (pushErrors es st, acc)
    = (pushErrors (es ++ flat_map (entryDiagnostics importedFrom st) entries) st,
       (acc ++ map (collectedEntry importedFrom st) entries)%list).
Proof.
  induction entries as [|entry entries IH]; cbn [fold_left flat_map map]; intros es acc.
  - now rewrite !app_nil_r.
  - rewrite collectEntry_pushErrors, IH. now rewrite <- !app_assoc.
Qed.

(** The batch, in closed form: the diagnostics of the entries in the order
    of the batch, and the table rebuilt from the old entries followed by
    the new ones. *)
Lemma collectDefinitions_eq newDefs importedFrom st :
  collectDefinitions newDefs importedFrom st
  = setDefinitionsByName
      (map_of_entries
         (definitionsByName st ++ map (collectedEntry importedFrom st) newDefs)%list)
      (pushErrors (flat_map (entryDiagnostics importedFrom st) newDefs) st).
Proof.
  unfold collectDefinitions, map_entries.
  rewrite <- (pushErrors_nil st) at 1.
  rewrite fold_collectEntry. reflexivity.
Qed.

Lemma collectDefinitions_emitted newDefs importedFrom st :
  emitted st (collectDefinitions newDefs importedFrom st)
  = flat_map (entryDiagnostics importedFrom st) newDefs.
Proof. rewrite collectDefinitions_eq. apply emitted_setDefinitionsByName. Qed.

(** The diagnostics of a conflicting entry of the batch. *)
Lemma entryDiagnostics_conflict importedFrom st identifier def existing :
  map_get identifier (definitionsByName st) = Some existing ->
  def_id existing <> def_id def ->
  def_id existing <> 0%Z ->
  entryDiagnostics importedFrom st (identifier, def)
  = [mkError "QNT101" (conflictMessage identifier (currentModuleName st)) (def_id existing);
     mkError "QNT101" (conflictMessage identifier (currentModuleName st)) (def_id def)].
Proof.
  intros Hget Hne Hnz. unfold entryDiagnostics, collectEntry. simpl.
  rewrite Hget. apply Z.eqb_neq in Hne. rewrite Hne. simpl.
  rewrite recordConflict_existing by assumption. apply emitted_pushErrors.
Qed.

(** The table after the batch: a key of the batch is bound to the batch's
    definition, whatever the table held. *)
Lemma collectDefinitions_get_new newDefs importedFrom st k d :
  map_wf newDefs ->
  map_get k newDefs = Some d ->
  getDefinition k (collectDefinitions newDefs importedFrom st)
  = Some (collected d importedFrom st).
Proof.
  intros Hwf Hget. rewrite collectDefinitions_eq. unfold getDefinition. simpl.
  rewrite map_get_of_entries_app.
  assert (Hwf' : map_wf (map (collectedEntry importedFrom st) newDefs)).
  { unfold map_wf in *. rewrite map_map. simpl. exact Hwf. }
  rewrite map_get_of_entries_wf by assumption.
  assert (Hmap : forall l : DefinitionsByName,
             map_get k (map (collectedEntry importedFrom st) l)
             = option_map (fun d => collected d importedFrom st) (map_get k l)).
  { induction l as [|[k0 d0] l IH]; simpl; auto.
    destruct (String.eqb k k0); auto. }
  rewrite Hmap, Hget. reflexivity.
Qed.
End CollectorFacts.

(* ================================================================== *)
(** ** The branches of [collectDefinition] *)

Section CollectDefinitionBranches.
Context `{Collaborators}.
Variables (def : LookupDefinition) (importedFrom : option ImportLike) (st : NameCollector).

Lemma collectDefinition_skip :
  identifierOf def importedFrom = "_" -> collectDefinition def importedFrom st = st.
Proof.
  intros Hid. unfold collectDefinition. now rewrite Hid.
Qed.

Lemma collectDefinition_builtin :
  identifierOf def importedFrom <> "_" ->
  In (identifierOf def importedFrom) builtinNames ->
  collectDefinition def importedFrom st
  = recordConflict (identifierOf def importedFrom) None (sourceOf def importedFrom) st.
Proof.
  intros Hid Hin. unfold collectDefinition.
  apply String.eqb_neq in Hid. rewrite Hid.
  apply existsb_eqb_In in Hin. now rewrite Hin.
Qed.

Lemma collectDefinition_conflict existing :
  identifierOf def importedFrom <> "_" ->
  ~ In (identifierOf def importedFrom) builtinNames ->
  map_get (identifierOf def importedFrom) (definitionsByName st) = Some existing ->
  def_id existing <> def_id def ->
  collectDefinition def importedFrom st
  = recordConflict (identifierOf def importedFrom) (Some (def_id existing))
                   (sourceOf def importedFrom) st.
Proof.
  intros Hid Hnin Hget Hne. unfold collectDefinition.
  apply String.eqb_neq in Hid. rewrite Hid.
  rewrite (existsb_eqb_not_In _ _ Hnin), Hget.
  apply Z.eqb_neq in Hne. now rewrite Hne.
Qed.

Lemma collectDefinition_insert :
  identifierOf def importedFrom <> "_" ->
  ~ In (identifierOf def importedFrom) builtinNames ->
  (forall existing,
      map_get (identifierOf def importedFrom) (definitionsByName st) = Some existing ->
      def_id existing = def_id def) ->
  collectDefinition def importedFrom st
  = setDefinitionsByName
      (map_set (identifierOf def importedFrom) (collected def importedFrom st)
               (definitionsByName st))
      st.
Proof.
  intros Hid Hnin Hsame. unfold collectDefinition.
  apply String.eqb_neq in Hid. rewrite Hid.
  rewrite (existsb_eqb_not_In _ _ Hnin).
  destruct (map_get (identifierOf def importedFrom) (definitionsByName st))
    as [existing|]; auto.
  rewrite (Hsame existing eq_refl), Z.eqb_refl. reflexivity.
Qed.
End CollectDefinitionBranches.

Lemma recordConflict_definitionsByName identifier existing newSource st :
  definitionsByName (recordConflict identifier existing newSource st) = definitionsByName st.
Proof.
  unfold recordConflict. destruct existing as [i|]; simpl; auto.
  destruct (negb (i =? 0)%Z); reflexivity.
Qed.

Lemma conflictMessage_not_builtinMessage identifier moduleName identifier' moduleName' :
  conflictMessage identifier moduleName <> builtinMessage identifier' moduleName'.
Proof. unfold conflictMessage, builtinMessage. simpl. discriminate. Qed.

(** The diagnostics of [recordConflict] all carry the code QNT101. *)
Lemma recordConflict_code identifier existing newSource st e :
  In e (emitted st (recordConflict identifier existing newSource st)) -> code e = "QNT101".
Proof.
  unfold recordConflict, emitted.
  destruct existing as [i|]; simpl; [destruct (negb (i =? 0)%Z)|];
    unfold pushError; simpl; rewrite <- ?app_assoc; rewrite skipn_length_app; simpl;
    intuition (subst; reflexivity).
Qed.

(** The diagnostics of [enterModule]: none, or the one with code QNT102. *)
Lemma enterModule_emitted module st :
  emitted st (enterModule module st)
  = if map_has (mod_name module) (definitionsByModule st)
    then [mkError "QNT102"
            ("Module with name '" ++ mod_name module ++ "' was already defined")
            (mod_id module)]
    else [].
Proof.
  unfold enterModule. simpl.
  destruct (map_has (mod_name module) (definitionsByModule st)).
  - unfold emitted, pushError. simpl. apply skipn_length_app.
  - unfold emitted. simpl. apply skipn_all.
Qed.

(* ================================================================== *)
(** ** The collection primitives *)

Section CollectionPrimitives.
Context `{Collaborators}.

(** C9: the identifier [_] is never collected.  Whatever the table holds,
    whatever [_] is bound to and whether or not [_] is a built-in name,
    [collectDefinition] on a definition whose identifier is [_] returns
    the collector as it was: same table, no diagnostic. *)
Theorem underscore_never_collected def importedFrom st :
  identifierOf def importedFrom = "_" ->
  collectDefinition def importedFrom st = st.
Proof. apply collectDefinition_skip. Qed.

(** C10: [deleteDefinition x] touches the binding of [x] only.  Afterwards
    [getDefinition x] finds nothing, every other identifier is bound as
    before, the diagnostics are the same, and when [x] was not bound the
    collector is unchanged. *)
Theorem deleteDefinition_frame x st :
  getDefinition x (deleteDefinition x st) = None
  /\ (forall y, y <> x -> getDefinition y (deleteDefinition x st) = getDefinition y st)
  /\ errors (deleteDefinition x st) = errors st
  /\ (getDefinition x st = None -> deleteDefinition x st = st).
Proof.
  unfold getDefinition, deleteDefinition. simpl.
  repeat split.
  - apply map_get_delete_eq.
  - intros y Hy. now apply map_get_delete_neq.
  - intros Hnone. rewrite map_delete_absent by assumption. now destruct st.
Qed.

End CollectionPrimitives.

(* ================================================================== *)
(** ** The declaration handlers: early returns *)

Section EarlyReturns.
Context `{Collaborators}.


End EarlyReturns.

(** What pushing a diagnostic leaves alone. *)
Lemma pushError_frame e st :
  definitionsByName (pushError e st) = definitionsByName st
  /\ definitionsByModule (pushError e st) = definitionsByModule st
  /\ errors (pushError e st) = (errors st ++ [e])%list
  /\ currentModuleName (pushError e st) = currentModuleName st.
Proof. repeat split. Qed.

(* ================================================================== *)
(** ** The conflict policy *)

Section ConflictPolicy.
Context `{Collaborators}.

(** C1, amended: a conflict keeps the first definition and reports both
    sides.  Let [N] be bound to a definition with id [i1], not [0n], and
    let a definition with another id be collected for [N].  Through
    [collectDefinition], for [N] other than [_] and outside the built-in
    names, the collector only gains two diagnostics with code QNT101, the
    first referring to [i1] and the second to the new source (the
    import-like statement's id when there is one, the definition's id
    otherwise); the table is the same and [N] is still bound to the first
    definition.  Through [collectDefinitions], the entry for [N] adds the
    two diagnostics referring to [i1] and to the new definition's id, at
    the entry's place among the diagnostics of the batch. *)
Theorem conflict_keeps_first_and_reports_both st N first def importedFrom :
  getDefinition N st = Some first ->
  def_id first <> def_id def ->
  def_id first <> 0%Z ->
  (identifierOf def importedFrom = N -> N <> "_" -> ~ In N builtinNames ->
     collectDefinition def importedFrom st
     = pushErrors
         [mkError "QNT101" (conflictMessage N (currentModuleName st)) (def_id first);
          mkError "QNT101" (conflictMessage N (currentModuleName st))
                  (sourceOf def importedFrom)]
         st
     /\ definitionsByName (collectDefinition def importedFrom st) = definitionsByName st
     /\ getDefinition N (collectDefinition def importedFrom st) = Some first)
  /\ (forall before after,
         emitted st (collectDefinitions (before ++ (N, def) :: after)%list importedFrom st)
         = (emitted st (collectDefinitions before importedFrom st)
            ++ [mkError "QNT101" (conflictMessage N (currentModuleName st)) (def_id first);
                mkError "QNT101" (conflictMessage N (currentModuleName st)) (def_id def)]
            ++ emitted st (collectDefinitions after importedFrom st))%list).
Proof.
  intros Hget Hne Hnz. split.
  - intros Hid Hus Hnb. subst N.
    rewrite (collectDefinition_conflict def importedFrom st first) by assumption.
    rewrite recordConflict_existing by assumption.
    repeat split. exact Hget.
  - intros before after.
    rewrite !collectDefinitions_emitted, flat_map_app. cbn [flat_map].
    now rewrite (entryDiagnostics_conflict importedFrom st N def first).
Qed.

(** C6: collecting the same definition twice.  When, after a first
    [collectDefinition] that was accepted (the identifier is not a built-in
    name, or the call pushed no diagnostic), the identifier is bound to a
    definition with the id of the collected one, a second call with the same
    arguments returns the collector as it is: same table, no diagnostic.
    More generally a call for an identifier, not a built-in name, that is
    bound to a definition with the same id pushes no diagnostic and leaves
    the other identifiers alone, and it leaves the whole collector alone
    when the identifier is bound to the very record the call stores. *)
Theorem collecting_twice_is_idempotent def importedFrom st :
  ((exists bound,
       getDefinition (identifierOf def importedFrom) (collectDefinition def importedFrom st)
       = Some bound
       /\ def_id bound = def_id def) ->
   (~ In (identifierOf def importedFrom) builtinNames
    \/ errors (collectDefinition def importedFrom st) = errors st) ->
   collectDefinition def importedFrom (collectDefinition def importedFrom st)
   = collectDefinition def importedFrom st)
  /\ (~ In (identifierOf def importedFrom) builtinNames ->
      forall bound,
        getDefinition (identifierOf def importedFrom) st = Some bound ->
        def_id bound = def_id def ->
        errors (collectDefinition def importedFrom st) = errors st
        /\ (forall k, k <> identifierOf def importedFrom ->
                      getDefinition k (collectDefinition def importedFrom st)
                      = getDefinition k st)
        /\ (bound = collected def importedFrom st ->
            collectDefinition def importedFrom st = st)).
Proof.
  set (identifier := identifierOf def importedFrom) in *.
  destruct (String.eqb identifier "_") eqn:Eus.
  { apply String.eqb_eq in Eus.
    rewrite !(collectDefinition_skip def importedFrom st Eus).
    split; [reflexivity|]. intros _ bound _ _. repeat split. }
  apply String.eqb_neq in Eus.
  assert (Hinsert :
            ~ In identifier builtinNames ->
            (forall existing,
                map_get identifier (definitionsByName st) = Some existing ->
                def_id existing = def_id def) ->
            collectDefinition def importedFrom st
            = setDefinitionsByName
                (map_set identifier (collected def importedFrom st) (definitionsByName st)) st).
  { intros Hnb Hsame. now apply collectDefinition_insert. }
  split.
  - intros [bound [Hbound Hid]] Haccepted.
    assert (Hnb : ~ In identifier builtinNames).
    { destruct Haccepted as [Hnb|Hsilent]; [exact Hnb|].
      intros Hin.
      rewrite (collectDefinition_builtin def importedFrom st Eus Hin) in Hsilent.
      rewrite recordConflict_builtin in Hsilent. simpl in Hsilent.
      apply (f_equal (@List.length QuintError)) in Hsilent.
      rewrite length_app in Hsilent. simpl in Hsilent. lia. }
    destruct (map_get identifier (definitionsByName st)) as [existing|] eqn:Eget.
    + destruct (Z.eq_dec (def_id existing) (def_id def)) as [Heq|Hneq].
      * rewrite Hinsert in * by (auto; intros ? [= <-]; exact Heq).
        unfold getDefinition in Hbound. simpl in Hbound.
        rewrite map_get_set_eq in Hbound. injection Hbound as <-.
        rewrite collectDefinition_insert; fold identifier; auto.
        -- simpl. unfold collected at 1. simpl.
           fold (collected def importedFrom st).
           now rewrite map_set_idem.
        -- simpl. intros existing'. rewrite map_get_set_eq. now intros [= <-].
      * exfalso.
        rewrite (collectDefinition_conflict def importedFrom st existing) in Hbound;
          auto.
        unfold getDefinition in Hbound.
        rewrite recordConflict_definitionsByName, Eget in Hbound.
        injection Hbound as <-. contradiction.
    + rewrite Hinsert in * by (auto; discriminate).
      unfold getDefinition in Hbound. simpl in Hbound.
      rewrite map_get_set_eq in Hbound. injection Hbound as <-.
      rewrite collectDefinition_insert; fold identifier; auto.
      * simpl. unfold collected at 1. simpl.
        fold (collected def importedFrom st).
        now rewrite map_set_idem.
      * simpl. intros existing'. rewrite map_get_set_eq. now intros [= <-].
  - intros Hnb bound Hbound Hid. unfold getDefinition in Hbound.
    rewrite Hinsert
      by (auto; intros ? Hex; rewrite Hbound in Hex; now injection Hex as <-).
    split; [reflexivity|]. split.
    + intros k Hk. unfold getDefinition. simpl. now apply map_get_set_neq.
    + intros ->. rewrite map_set_get_same by assumption. now destruct st.
Qed.

(** C3, amended: the codes of the three categories.  A module
    redefinition is reported with code QNT102, a name conflict and a
    built-in shadow both with code QNT101: the code tells a module
    redefinition from the other two, and a name conflict from a built-in
    shadow only the message does. *)
Theorem diagnostic_codes module st identifier existing newSource st1 identifier' newSource' st2
    redefinition conflict shadow :
  In redefinition (emitted st (enterModule module st)) ->
  In conflict (emitted st1 (recordConflict identifier (Some existing) newSource st1)) ->
  In shadow (emitted st2 (recordConflict identifier' None newSource' st2)) ->
  code redefinition = "QNT102"
  /\ code conflict = "QNT101"
  /\ code shadow = "QNT101"
  /\ code redefinition <> code conflict
  /\ code redefinition <> code shadow
  /\ code conflict = code shadow
  /\ (existing <> 0%Z -> message conflict <> message shadow).
Proof.
  intros Hre Hco Hsh.
  assert (Hc1 : code redefinition = "QNT102").
  { rewrite enterModule_emitted in Hre.
    destruct (map_has (mod_name module) (definitionsByModule st)); simpl in Hre.
    - destruct Hre as [<-|[]]. reflexivity.
    - contradiction. }
  assert (Hc2 := recordConflict_code _ _ _ _ _ Hco).
  assert (Hc3 := recordConflict_code _ _ _ _ _ Hsh).
  rewrite Hc1, Hc2, Hc3. repeat split; try discriminate.
  intros Hnz.
  rewrite recordConflict_existing, emitted_pushErrors in Hco by assumption.
  rewrite recordConflict_builtin, emitted_pushError in Hsh.
  simpl in Hco, Hsh.
  destruct Hsh as [<-|[]].
  destruct Hco as [<-|[<-|[]]]; simpl; apply conflictMessage_not_builtinMessage.
Qed.
End ConflictPolicy.

(* ================================================================== *)
(** ** The batch *)

Section Batch.
Context `{Collaborators}.

(** The batch binds every key it carries to its own definition: where a
    key was bound to another definition the conflict is reported and the
    entry is replaced all the same. *)
Lemma collectDefinitions_last_writer_wins newDefs importedFrom st k def :
  map_wf newDefs ->
  map_get k newDefs = Some def ->
  getDefinition k (collectDefinitions newDefs importedFrom st)
  = Some (collected def importedFrom st).
Proof. apply collectDefinitions_get_new. Qed.

(** A key the batch does not carry keeps its binding. *)
Lemma collectDefinitions_get_old newDefs importedFrom st k :
  map_wf (definitionsByName st) ->
  map_get k newDefs = None ->
  getDefinition k (collectDefinitions newDefs importedFrom st) = getDefinition k st.
Proof.
  intros Hwf Hnone. rewrite collectDefinitions_eq. unfold getDefinition. simpl.
  rewrite map_get_of_entries_app.
  unfold map_of_entries at 1.
  rewrite map_get_set_all_absent.
  - simpl. now apply map_get_of_entries_wf.
  - rewrite map_map. simpl. now apply map_get_None_not_In.
Qed.

(** The content of the table after the batch does not depend on the order
    of the batch's entries. *)
Lemma collectDefinitions_order_irrelevant newDefs newDefs' importedFrom st k :
  map_wf newDefs ->
  Permutation newDefs newDefs' ->
  getDefinition k (collectDefinitions newDefs importedFrom st)
  = getDefinition k (collectDefinitions newDefs' importedFrom st).
Proof.
  intros Hwf Hp. rewrite !collectDefinitions_eq. unfold getDefinition. simpl.
  rewrite !map_get_of_entries_app.
  assert (Hwfm : forall l : DefinitionsByName,
             map_wf l -> map_wf (map (collectedEntry importedFrom st) l)).
  { intros l Hl. unfold map_wf in *. rewrite map_map. exact Hl. }
  assert (Hwf' : map_wf newDefs').
  { unfold map_wf in *. eapply Permutation_NoDup; [|exact Hwf].
    now apply Permutation_map. }
  rewrite (map_get_of_entries_wf (map (collectedEntry importedFrom st) newDefs))
    by auto.
  rewrite (map_get_of_entries_wf (map (collectedEntry importedFrom st) newDefs'))
    by auto.
  rewrite (map_get_Permutation _ (map (collectedEntry importedFrom st) newDefs') k);
    auto.
  now apply Permutation_map.
Qed.

(** The diagnostics of the batch follow the order of its entries. *)
Lemma collectDefinitions_diagnostics_in_order newDefs importedFrom st :
  emitted st (collectDefinitions newDefs importedFrom st)
  = flat_map (entryDiagnostics importedFrom st) newDefs.
Proof. apply collectDefinitions_emitted. Qed.
End Batch.

(* ================================================================== *)
(** ** Instance overrides *)

Lemma DefKind_eqb_eq a b : DefKind_eqb a b = true <-> a = b.
Proof. destruct a, b; simpl; split; intros; congruence. Qed.

Section InstanceOverrides.
Context `{Collaborators}.

Lemma applyOverride_not_found decl st instanceTable param ex :
  map_get (param_name param) instanceTable = None ->
  applyOverride decl (st, instanceTable) (param, ex)
  = (pushError (paramNotFoundError decl param) st, instanceTable).
Proof. intros Hnone. unfold applyOverride. now rewrite Hnone. Qed.

Lemma applyOverride_not_const decl st instanceTable param ex constDef :
  map_get (param_name param) instanceTable = Some constDef ->
  def_kind constDef <> KindConst ->
  applyOverride decl (st, instanceTable) (param, ex)
  = (pushError (paramIsNotAConstantError decl param) st, instanceTable).
Proof.
  intros Hget Hkind. unfold applyOverride. rewrite Hget.
  destruct (DefKind_eqb (def_kind constDef) KindConst) eqn:E; auto.
  apply DefKind_eqb_eq in E. contradiction.
Qed.

Lemma applyOverride_const decl st instanceTable param ex constDef :
  map_get (param_name param) instanceTable = Some constDef ->
  def_kind constDef = KindConst ->
  applyOverride decl (st, instanceTable) (param, ex)
  = (st, map_set (param_name param) (withId constDef (ex_id ex)) instanceTable).
Proof.
  intros Hget Hkind. unfold applyOverride. rewrite Hget, Hkind. reflexivity.
Qed.

(** The diagnostics of one override. *)
Lemma overrideDiagnostics_not_found decl st instanceTable param ex :
  map_get (param_name param) instanceTable = None ->
  overrideDiagnostics decl st instanceTable (param, ex) = [paramNotFoundError decl param].
Proof.
  intros Hnone. unfold overrideDiagnostics.
  rewrite applyOverride_not_found by assumption. apply emitted_pushError.
Qed.

Lemma overrideDiagnostics_not_const decl st instanceTable param ex constDef :
  map_get (param_name param) instanceTable = Some constDef ->
  def_kind constDef <> KindConst ->
  overrideDiagnostics decl st instanceTable (param, ex)
  = [paramIsNotAConstantError decl param].
Proof.
  intros Hget Hkind. unfold overrideDiagnostics.
  rewrite (applyOverride_not_const _ _ _ _ _ constDef Hget Hkind).
  apply emitted_pushError.
Qed.

Lemma overrideDiagnostics_const decl st instanceTable param ex constDef :
  map_get (param_name param) instanceTable = Some constDef ->
  def_kind constDef = KindConst ->
  overrideDiagnostics decl st instanceTable (param, ex) = [].
Proof.
  intros Hget Hkind. unfold overrideDiagnostics.
  rewrite (applyOverride_const _ _ _ _ _ constDef Hget Hkind).
  unfold emitted. apply skipn_all.
Qed.

(** The callback only pushes on the collector, and what it does to the
    instance table does not depend on the collector. *)
Lemma applyOverride_pushErrors decl es st instanceTable override :
  applyOverride decl (pushErrors es st, instanceTable) override
  = (pushErrors (es ++ overrideDiagnostics decl st instanceTable override) st,
     snd (applyOverride decl (st, instanceTable) override)).
Proof.
  destruct override as [param ex]. unfold overrideDiagnostics, applyOverride.
  destruct (map_get (param_name param) instanceTable) as [constDef|].
  - destruct (negb (DefKind_eqb (def_kind constDef) KindConst)); simpl.
    + now rewrite emitted_pushError, pushError_pushErrors, pushErrors_pushErrors.
    + unfold emitted. now rewrite skipn_all, app_nil_r.
  - simpl. now rewrite emitted_pushError, pushError_pushErrors, pushErrors_pushErrors.
Qed.

Lemma applyOverride_table decl st st' instanceTable override :
  snd (applyOverride decl (st, instanceTable) override)
  = snd (applyOverride decl (st', instanceTable) override).
Proof.
  destruct override as [param ex]. unfold applyOverride.
  destruct (map_get (param_name param) instanceTable) as [constDef|]; auto.
  destruct (negb (DefKind_eqb (def_kind constDef) KindConst)); auto.
Qed.

Lemma applyOverrides_table decl overrides :
  forall st st' instanceTable,
    snd (fold_left (applyOverride decl) overrides (st, instanceTable))
    = snd (fold_left (applyOverride decl) overrides (st', instanceTable)).
Proof.
  induction overrides as [|override overrides IH]; cbn [fold_left]; intros st st' t; auto.
  pose proof (applyOverride_table decl st st' t override) as Htable.
  destruct (applyOverride decl (st, t) override) as [s1 t1].
  destruct (applyOverride decl (st', t) override) as [s2 t2].
  simpl in Htable. subst t2. apply IH.
Qed.

(** An override changes at most the id of an entry: the keys of the
    instance table and, id apart, its definitions stay what they are. *)
Lemma applyOverride_up_to_id decl st instanceTable override k :
  option_map (fun d => withId d 0) (map_get k (snd (applyOverride decl (st, instanceTable) override)))
  = option_map (fun d => withId d 0) (map_get k instanceTable).
Proof.
  destruct override as [param ex]. unfold applyOverride.
  destruct (map_get (param_name param) instanceTable) as [constDef|] eqn:Hget; auto.
  destruct (negb (DefKind_eqb (def_kind constDef) KindConst)); auto.
  simpl. destruct (String.eqb k (param_name param)) eqn:Hk.
  - apply String.eqb_eq in Hk. subst k. now rewrite map_get_set_eq, Hget.
  - apply String.eqb_neq in Hk. now rewrite map_get_set_neq by congruence.
Qed.

Lemma applyOverrides_up_to_id decl overrides :
  forall st instanceTable k,
    option_map (fun d => withId d 0)
               (map_get k (snd (fold_left (applyOverride decl) overrides (st, instanceTable))))
    = option_map (fun d => withId d 0) (map_get k instanceTable).
Proof.
  induction overrides as [|override overrides IH]; cbn [fold_left]; intros st t k; auto.
  pose proof (applyOverride_up_to_id decl st t override k) as Hstep.
  destruct (applyOverride decl (st, t) override) as [s1 t1].
  simpl in Hstep. now rewrite IH.
Qed.

Lemma withId_up_to_id d d' i :
  withId d 0 = withId d' 0 -> withId d i = withId d' i /\ def_kind d = def_kind d'.
Proof. destruct d, d'. unfold withId. simpl. intros [= -> -> -> -> -> ->]. now split. Qed.

(** The diagnostics of an override depend on the instance table through
    the kind of the entry only, which no override changes. *)
Lemma overrideDiagnostics_up_to_id decl st t t' override :
  (forall k, option_map (fun d => withId d 0) (map_get k t')
             = option_map (fun d => withId d 0) (map_get k t)) ->
  overrideDiagnostics decl st t' override = overrideDiagnostics decl st t override.
Proof.
  intros Hsame. destruct override as [param ex].
  specialize (Hsame (param_name param)).
  unfold overrideDiagnostics, applyOverride.
  destruct (map_get (param_name param) t') as [d'|],
           (map_get (param_name param) t) as [d|]; simpl in Hsame; try discriminate; auto.
  assert (Hsame' : withId d' 0 = withId d 0) by congruence.
  destruct (withId_up_to_id d' d 0 Hsame') as [_ ->].
  destruct (negb (DefKind_eqb (def_kind d) KindConst)); reflexivity.
Qed.

(** The overrides of a declaration, in closed form: the diagnostics of
    each override on the table the overrides started from, in the order of
    the declaration. *)
Lemma applyOverrides_eq decl overrides :
  forall es st instanceTable,
    fold_left (applyOverride decl) overrides (pushErrors es st, instanceTable)
    = (pushErrors (es ++ flat_map (overrideDiagnostics decl st instanceTable) overrides) st,
       snd (fold_left (applyOverride decl) overrides (st, instanceTable))).
Proof.
  induction overrides as [|override overrides IH]; cbn [fold_left flat_map]; intros es st t.
  - now rewrite app_nil_r.
  - rewrite applyOverride_pushErrors, IH. f_equal.
    + rewrite <- app_assoc. do 3 f_equal.
      apply flat_map_ext. intros ov.
      apply overrideDiagnostics_up_to_id. intros k. apply applyOverride_up_to_id.
    + destruct (applyOverride decl (st, t) override) as [s1 t1]. simpl.
      apply applyOverrides_table.
Qed.

(** Overrides of other parameters leave an entry as it is. *)
Lemma applyOverrides_other decl overrides k :
  (forall param ex, In (param, ex) overrides -> param_name param <> k) ->
  forall st instanceTable,
    map_get k (snd (fold_left (applyOverride decl) overrides (st, instanceTable)))
    = map_get k instanceTable.
Proof.
  induction overrides as [|[param ex] overrides IH]; cbn [fold_left]; intros Hother st t; auto.
  assert (Hstep : map_get k (snd (applyOverride decl (st, t) (param, ex))) = map_get k t).
  { unfold applyOverride.
    destruct (map_get (param_name param) t) as [constDef|]; auto.
    destruct (negb (DefKind_eqb (def_kind constDef) KindConst)); auto.
    simpl. apply map_get_set_neq. intros Heq. apply (Hother param ex); [now left|auto]. }
  destruct (applyOverride decl (st, t) (param, ex)) as [s1 t1]. simpl in Hstep.
  rewrite IH; auto. intros p e Hin. apply (Hother p e). now right.
Qed.

(** An override that fails can be struck from the declaration: the
    instance table is the same without it. *)
Lemma applyOverrides_skip decl before param ex after st instanceTable :
  (forall constDef,
      map_get (param_name param) instanceTable = Some constDef ->
      def_kind constDef <> KindConst) ->
  snd (fold_left (applyOverride decl) (before ++ (param, ex) :: after) (st, instanceTable))
  = snd (fold_left (applyOverride decl) (before ++ after) (st, instanceTable)).
Proof.
  intros Hfails. rewrite !fold_left_app. cbn [fold_left].
  pose proof (applyOverrides_up_to_id decl before st instanceTable (param_name param))
    as Hsame.
  destruct (fold_left (applyOverride decl) before (st, instanceTable)) as [s1 t1] eqn:Hfold.
  unfold DefinitionsByName in *. rewrite Hfold in Hsame. simpl in Hsame.
  assert (Hstep : snd (applyOverride decl (s1, t1) (param, ex)) = t1).
  { unfold applyOverride.
    destruct (map_get (param_name param) t1) as [d1|]; auto.
    destruct (map_get (param_name param) instanceTable) as [d|];
      simpl in Hsame; [|discriminate].
    assert (Hsame' : withId d1 0 = withId d 0) by congruence.
    destruct (withId_up_to_id d1 d 0 Hsame') as [_ Hkind].
    destruct (DefKind_eqb (def_kind d1) KindConst) eqn:E; auto.
    apply DefKind_eqb_eq in E. exfalso. apply (Hfails d eq_refl). congruence. }
  destruct (applyOverride decl (s1, t1) (param, ex)) as [s2 t2]. simpl in Hstep. subst t2.
  apply applyOverrides_table.
Qed.

(** The last override of a constant gives the entry its id. *)
Lemma applyOverrides_last decl before param ex after st instanceTable constDef :
  map_get (param_name param) instanceTable = Some constDef ->
  def_kind constDef = KindConst ->
  (forall param' ex', In (param', ex') after -> param_name param' <> param_name param) ->
  map_get (param_name param)
          (snd (fold_left (applyOverride decl) (before ++ (param, ex) :: after)
                          (st, instanceTable)))
  = Some (withId constDef (ex_id ex)).
Proof.
  intros Hget Hkind Hlast. rewrite fold_left_app. cbn [fold_left].
  pose proof (applyOverrides_up_to_id decl before st instanceTable (param_name param))
    as Hsame.
  destruct (fold_left (applyOverride decl) before (st, instanceTable)) as [s1 t1] eqn:Hfold.
  unfold DefinitionsByName in *. rewrite Hfold in Hsame. simpl in Hsame. rewrite Hget in Hsame.
  destruct (map_get (param_name param) t1) as [d1|] eqn:Hget1;
    simpl in Hsame; [|discriminate].
  assert (Hsame' : withId d1 0 = withId constDef 0) by congruence.
  destruct (withId_up_to_id d1 constDef (ex_id ex) Hsame') as [Hid Hkind1].
  rewrite (applyOverride_const decl s1 t1 param ex d1) by congruence.
  rewrite applyOverrides_other by assumption.
  now rewrite map_get_set_eq, Hid.
Qed.

(** The diagnostics of an entry of the batch, and the record stored for
    it, depend on the collector through its table and the name of its
    module only. *)
Lemma entryDiagnostics_scope importedFrom st st' entry :
  definitionsByName st' = definitionsByName st ->
  currentModuleName st' = currentModuleName st ->
  entryDiagnostics importedFrom st' entry = entryDiagnostics importedFrom st entry
  /\ collectedEntry importedFrom st' entry = collectedEntry importedFrom st entry.
Proof.
  intros Htable Hname. destruct entry as [identifier def]. split.
  - unfold entryDiagnostics, collectEntry. simpl. rewrite Htable.
    destruct (map_get identifier (definitionsByName st)) as [existing|];
      [destruct (negb (def_id existing =? def_id def)%Z)|];
      try (unfold emitted; now rewrite !skipn_all).
    unfold recordConflict, emitted. rewrite Hname.
    destruct (truthyBigint (Some (def_id existing))); unfold pushError; simpl;
      rewrite <- ?app_assoc; now rewrite !skipn_length_app.
  - unfold collectedEntry, collected. simpl. f_equal. f_equal. f_equal.
    destruct importedFrom as [[i|i|i]|]; simpl; auto. now rewrite Hname.
Qed.

Section InstanceOfARegisteredModule.
Variables (decl : QuintInstance) (st : NameCollector) (moduleTable : DefinitionsByName).
Hypothesis other_module : inst_protoName decl <> currentModuleName st.
Hypothesis registered :
  map_get (inst_protoName decl) (definitionsByModule st) = Some moduleTable.

(** [new Map([...moduleTable.entries()])], the instance table after a run
    of overrides, and what [copyNames] makes of it. *)
Local Abbreviation clone := (map_of_entries (map_entries moduleTable)).
Local Abbreviation tableAfter overrides :=
  (snd (fold_left (applyOverride decl) overrides (st, clone))).
Local Abbreviation newDefs :=
  (copyNames (tableAfter (inst_overrides decl)) (inst_qualifiedName decl) (Some true)).

(** [enterInstance] on a registered module, in closed form. *)
Lemma enterInstance_eq :
  enterInstance decl st
  = collectDefinitions newDefs (Some (DeclInstance decl))
      (let st1 :=
         pushErrors (flat_map (overrideDiagnostics decl st clone) (inst_overrides decl)) st in
       match inst_qualifiedName decl with
       | Some q =>
           if truthyString (inst_qualifiedName decl)
           then setDefinitionsByModule
                  (map_set q (tableAfter (inst_overrides decl)) (definitionsByModule st1)) st1
           else st1
       | None => st1
       end).
Proof.
  unfold enterInstance.
  apply String.eqb_neq in other_module. rewrite other_module, registered.
  pose proof (applyOverrides_eq decl (inst_overrides decl) [] st clone) as Hfold.
  rewrite pushErrors_nil in Hfold. simpl in Hfold.
  unfold DefinitionsByName in *. rewrite Hfold. reflexivity.
Qed.

Lemma enterInstance_errors :
  errors (enterInstance decl st)
  = (errors st
     ++ flat_map (overrideDiagnostics decl st clone) (inst_overrides decl)
     ++ flat_map (entryDiagnostics (Some (DeclInstance decl)) st) newDefs)%list.
Proof.
  rewrite enterInstance_eq, collectDefinitions_eq. cbv zeta.
  destruct (inst_qualifiedName decl) as [q|]; [destruct (truthyString (Some q))|];
    simpl; rewrite <- app_assoc; do 2 f_equal;
    apply flat_map_ext; intros entry;
    now apply entryDiagnostics_scope.
Qed.

Lemma enterInstance_get k d :
  map_wf newDefs ->
  map_get k newDefs = Some d ->
  getDefinition k (enterInstance decl st) = Some (collected d (Some (DeclInstance decl)) st).
Proof.
  intros Hwf Hget. rewrite enterInstance_eq.
  rewrite (collectDefinitions_get_new _ _ _ k d Hwf Hget). cbv zeta.
  destruct (inst_qualifiedName decl) as [q|]; [destruct (truthyString (Some q))|];
    reflexivity.
Qed.

Lemma enterInstance_registry q :
  inst_qualifiedName decl = Some q -> q <> "" ->
  map_get q (definitionsByModule (enterInstance decl st))
  = Some (tableAfter (inst_overrides decl)).
Proof.
  intros Hq Hne. rewrite enterInstance_eq, collectDefinitions_eq. cbv zeta.
  rewrite Hq. unfold truthyString. apply String.eqb_neq in Hne. rewrite Hne. simpl.
  apply map_get_set_eq.
Qed.

Lemma override_recorded param ex :
  In (param, ex) (inst_overrides decl) ->
  forall e, In e (overrideDiagnostics decl st clone (param, ex)) ->
            In e (emitted st (enterInstance decl st)).
Proof.
  intros Hin e He. unfold emitted. rewrite enterInstance_errors, skipn_length_app.
  apply in_or_app. left. apply in_flat_map. exists (param, ex). now split.
Qed.

(** C4: the overrides of an instance.  For [instance M as I(...)] of a
    registered module [M] that is not the current one, and an override
    [param = ex] of the declaration, [before] and [after] being the
    overrides that come before and after it.  The diagnostics of the
    instance are those of its overrides on the clone of [M]'s table, in
    the order of the declaration, followed by those of the batch; the
    alias [I] is bound in the registry to the table after the overrides;
    and every name the copier makes of that table is bound in the current
    module's table.  When [param] is absent from the clone, the override
    pushes the parameter-not-found error, and when it is bound to a
    definition that is not a constant, the not-a-constant error: the
    error is among the diagnostics of the instance, and the table after
    the overrides is the one the declaration gives without this override.
    When [param] is bound to a constant and no later override of the
    declaration names it again, the override pushes nothing, the entry of
    [param] in the table after the overrides is the constant with the id
    of [ex], and a name under which the copier exposes that entry with
    its identity (for instance [I::c]) is bound, in the current module's
    table, to a definition with the id of [ex]. *)
Theorem instance_override before param ex after :
  inst_overrides decl = (before ++ (param, ex) :: after)%list ->
  (errors (enterInstance decl st)
   = (errors st
      ++ flat_map (overrideDiagnostics decl st clone) (inst_overrides decl)
      ++ flat_map (entryDiagnostics (Some (DeclInstance decl)) st) newDefs)%list
   /\ (forall q, inst_qualifiedName decl = Some q -> q <> "" ->
         map_get q (definitionsByModule (enterInstance decl st))
         = Some (tableAfter (inst_overrides decl)))
   /\ (forall k d, map_wf newDefs -> map_get k newDefs = Some d ->
         getDefinition k (enterInstance decl st)
         = Some (collected d (Some (DeclInstance decl)) st)))
  /\ (map_get (param_name param) clone = None ->
      overrideDiagnostics decl st clone (param, ex) = [paramNotFoundError decl param]
      /\ In (paramNotFoundError decl param) (emitted st (enterInstance decl st))
      /\ tableAfter (inst_overrides decl) = tableAfter (before ++ after)%list)
  /\ (forall constDef,
         map_get (param_name param) clone = Some constDef ->
         def_kind constDef <> KindConst ->
         overrideDiagnostics decl st clone (param, ex) = [paramIsNotAConstantError decl param]
         /\ In (paramIsNotAConstantError decl param) (emitted st (enterInstance decl st))
         /\ tableAfter (inst_overrides decl) = tableAfter (before ++ after)%list)
  /\ (forall constDef,
         map_get (param_name param) clone = Some constDef ->
         def_kind constDef = KindConst ->
         (forall param' ex', In (param', ex') after ->
                             param_name param' <> param_name param) ->
         overrideDiagnostics decl st clone (param, ex) = []
         /\ map_get (param_name param) (tableAfter (inst_overrides decl))
            = Some (withId constDef (ex_id ex))
         /\ forall k,
             map_wf newDefs ->
             option_map def_id (map_get k newDefs)
             = option_map def_id
                          (map_get (param_name param) (tableAfter (inst_overrides decl))) ->
             (forall d, def_id (addNamespacesToDef d (namespaces (DeclInstance decl) st))
                        = def_id d) ->
             option_map def_id (getDefinition k (enterInstance decl st)) = Some (ex_id ex)).
Proof.
  intros Hoverrides.
  assert (Hin : In (param, ex) (inst_overrides decl)).
  { rewrite Hoverrides. apply in_or_app. right. now left. }
  split; [|split; [|split]].
  - split; [apply enterInstance_errors|].
    split; [apply enterInstance_registry|apply enterInstance_get].
  - intros Hnone.
    pose proof (overrideDiagnostics_not_found decl st clone param ex Hnone) as Hdiag.
    split; [exact Hdiag|]. split.
    + apply (override_recorded param ex Hin). rewrite Hdiag. now left.
    + rewrite Hoverrides. apply applyOverrides_skip.
      intros constDef Hget. rewrite Hnone in Hget. discriminate.
  - intros constDef Hget Hkind.
    pose proof (overrideDiagnostics_not_const decl st clone param ex constDef Hget Hkind)
      as Hdiag.
    split; [exact Hdiag|]. split.
    + apply (override_recorded param ex Hin). rewrite Hdiag. now left.
    + rewrite Hoverrides. apply applyOverrides_skip.
      intros constDef' Hget'. rewrite Hget in Hget'. now injection Hget' as <-.
  - intros constDef Hget Hkind Hlast.
    assert (Hentry : map_get (param_name param) (tableAfter (inst_overrides decl))
                     = Some (withId constDef (ex_id ex))).
    { rewrite Hoverrides. now apply applyOverrides_last. }
    split; [now apply (overrideDiagnostics_const decl st clone param ex constDef)|].
    split; [exact Hentry|].
    intros k Hwf Hcopy Hns. rewrite Hentry in Hcopy. simpl in Hcopy.
    destruct (map_get k newDefs) as [d|] eqn:Hk; [|discriminate].
    injection Hcopy as Hid.
    rewrite (enterInstance_get k d Hwf Hk). unfold collected. simpl.
    now rewrite Hns, Hid.
Qed.
End InstanceOfARegisteredModule.
End InstanceOverrides.

(* ================================================================== *)
(** ** The theorems at the sample inputs *)

Lemma underscore_never_collected_witness :
  identifierOf discardDef None = "_"
  /\ collectDefinition (H:=specCollaborators) discardDef None stXY = stXY.
Proof.
  split; [reflexivity|].
  apply (underscore_never_collected (H:=specCollaborators) discardDef None stXY).
  reflexivity.
Defined.

Lemma deleteDefinition_frame_witness :
  getDefinition "x" (deleteDefinition "x" stXY) = None
  /\ getDefinition "y" (deleteDefinition "x" stXY) = Some y3
  /\ deleteDefinition "z" stXY = stXY.
Proof.
  destruct (deleteDefinition_frame "x" stXY) as [Hx [Hother _]].
  destruct (deleteDefinition_frame "z" stXY) as [_ [_ [_ Hnoop]]].
  split; [exact Hx|]. split.
  - rewrite Hother; [reflexivity|discriminate].
  - apply Hnoop. reflexivity.
Defined.





Lemma conflict_keeps_first_and_reports_both_witness :
  getDefinition "x" stXY = Some x1
  /\ collectDefinition (H:=specCollaborators) x2 None stXY
     = pushErrors [mkError "QNT101" (conflictMessage "x" "m") 1;
                   mkError "QNT101" (conflictMessage "x" "m") 2] stXY
  /\ getDefinition "x" (collectDefinition (H:=specCollaborators) x2 None stXY) = Some x1
  /\ emitted stXY (collectDefinitions (H:=specCollaborators) [("x", x2)] None stXY)
     = [mkError "QNT101" (conflictMessage "x" "m") 1;
        mkError "QNT101" (conflictMessage "x" "m") 2].
Proof.
  assert (Hget : getDefinition "x" stXY = Some x1) by reflexivity.
  assert (Hne : def_id x1 <> def_id x2) by (simpl; lia).
  assert (Hnz : def_id x1 <> 0%Z) by (simpl; lia).
  destruct (conflict_keeps_first_and_reports_both (H:=specCollaborators)
              stXY "x" x1 x2 None Hget Hne Hnz) as [Hone Hbatch].
  destruct Hone as [Heq [_ Hkept]].
  - reflexivity.
  - discriminate.
  - simpl. intuition discriminate.
  - split; [exact Hget|]. split; [exact Heq|]. split; [exact Hkept|].
    exact (Hbatch [] []).
Defined.

(** C1, as stated, fails on [import A.x] (statement id 7, the imported
    definition has id 1) in a module that has its own [x] (id 5): the two
    diagnostics refer to 5 and to the import statement, none to the id of
    the definition that was collected. *)
Lemma import_conflict_refers_to_the_statement :
  getDefinition "x" stLocalX = Some x5
  /\ def_id x5 <> def_id x1
  /\ identifierOf x1 (Some (DeclImport importAx)) = "x"
  /\ map reference
         (emitted stLocalX
            (collectDefinition (H:=specCollaborators) x1 (Some (DeclImport importAx)) stLocalX))
     = [5%Z; 7%Z]
  /\ ~ In (def_id x1)
          (map reference
               (emitted stLocalX
                  (collectDefinition (H:=specCollaborators) x1 (Some (DeclImport importAx))
                                     stLocalX))).
Proof.
  split; [reflexivity|]. split; [simpl; lia|]. split; [reflexivity|].
  split; [reflexivity|].
  simpl. intros [Heq|[Heq|[]]]; discriminate Heq.
Defined.

(** C2 (the code departs from it): on the table that binds [x] to the
    definition with id 1, for the batch that carries a definition with id 2
    under [x], [collectDefinition] keeps the first definition and
    [collectDefinitions] replaces it, both reporting the conflict: the batch
    does not leave the table that collecting its entries one by one
    leaves. *)
Theorem batch_replaces_where_collectDefinition_keeps :
  getDefinition "x" stXY = Some x1
  /\ getDefinition "x" (collectDefinition (H:=specCollaborators) x2 None stXY) = Some x1
  /\ getDefinition "x" (collectDefinitions (H:=specCollaborators) [("x", x2)] None stXY)
     = Some x2
  /\ emitted stXY (collectDefinition (H:=specCollaborators) x2 None stXY)
     = emitted stXY (collectDefinitions (H:=specCollaborators) [("x", x2)] None stXY).
Proof. repeat split. Qed.

Lemma collecting_twice_is_idempotent_witness :
  ~ In "y" specBuiltinNames
  /\ getDefinition "y" (collectDefinition (H:=specCollaborators) y3 None stX) = Some y3
  /\ collectDefinition (H:=specCollaborators) y3 None
       (collectDefinition (H:=specCollaborators) y3 None stX)
     = collectDefinition (H:=specCollaborators) y3 None stX
  /\ collectDefinition (H:=specCollaborators) y3 None stXY = stXY.
Proof.
  assert (Hnb : ~ In (identifierOf y3 None) (builtinNames (Collaborators:=specCollaborators))).
  { simpl. intuition discriminate. }
  destruct (collecting_twice_is_idempotent (H:=specCollaborators) y3 None stX)
    as [Htwice _].
  destruct (collecting_twice_is_idempotent (H:=specCollaborators) y3 None stXY)
    as [_ Honce].
  split; [exact Hnb|]. split; [reflexivity|]. split.
  - apply Htwice.
    + exists y3. split; reflexivity.
    + right. reflexivity.
  - destruct (Honce Hnb y3) as [_ [_ Hsame]]; [reflexivity|reflexivity|].
    apply Hsame. reflexivity.
Defined.

Lemma diagnostic_codes_witness :
  code (mkError "QNT102" "Module with name 'A' was already defined" 20)
  <> code (mkError "QNT101" (conflictMessage "x" "m") 1)
  /\ message (mkError "QNT101" (conflictMessage "x" "m") 1)
     <> message (mkError "QNT101" (builtinMessage "not" "m") 6).
Proof.
  assert (Hre : In (mkError "QNT102" "Module with name 'A' was already defined" 20)
                   (emitted stRegisteredA
                      (enterModule moduleA stRegisteredA))).
  { simpl. auto. }
  assert (Hco : In (mkError "QNT101" (conflictMessage "x" "m") 1)
                   (emitted stXY (recordConflict "x" (Some 1%Z) 2 stXY))).
  { simpl. auto. }
  assert (Hsh : In (mkError "QNT101" (builtinMessage "not" "m") 6)
                   (emitted stXY (recordConflict "not" None 6 stXY))).
  { simpl. auto. }
  destruct (diagnostic_codes moduleA stRegisteredA "x" 1%Z 2%Z stXY
              "not" 6%Z stXY _ _ _ Hre Hco Hsh)
    as [_ [_ [_ [Hcode [_ [_ Hmsg]]]]]].
  split; [exact Hcode | apply Hmsg; lia].
Defined.

(** C3, as stated, fails on a name conflict and a built-in shadow: the
    diagnostics of a second [x] and of a definition named [not] all carry
    the code QNT101. *)
Lemma conflict_and_shadow_share_their_code :
  map code (emitted stXY (collectDefinition (H:=specCollaborators) x2 None stXY))
  = ["QNT101"; "QNT101"]
  /\ map code (emitted stXY (collectDefinition (H:=specCollaborators) notDef None stXY))
     = ["QNT101"]
  /\ exists conflict shadow,
      In conflict (emitted stXY (collectDefinition (H:=specCollaborators) x2 None stXY))
      /\ In shadow (emitted stXY (collectDefinition (H:=specCollaborators) notDef None stXY))
      /\ code conflict = code shadow.
Proof.
  split; [reflexivity|]. split; [reflexivity|].
  exists (mkError "QNT101" (conflictMessage "x" "m") 1),
         (mkError "QNT101" (builtinMessage "not" "m") 6).
  simpl. auto.
Defined.

Lemma instance_override_witness :
  errors (enterInstance (H:=specCollaborators) instanceB3 stClient)
  = [specParamNotFoundError instanceB3 (mkParam 13 "rate");
     specParamIsNotAConstantError instanceB3 (mkParam 14 "balance")]
  /\ In (specParamNotFoundError instanceB3 (mkParam 13 "rate"))
        (emitted stClient (enterInstance (H:=specCollaborators) instanceB3 stClient))
  /\ In (specParamIsNotAConstantError instanceB3 (mkParam 14 "balance"))
        (emitted stClient (enterInstance (H:=specCollaborators) instanceB3 stClient))
  /\ map_get "B3"
       (definitionsByModule (enterInstance (H:=specCollaborators) instanceB3 stClient))
     = Some [("limit", topLevel KindConst 100 "limit");
             ("balance", topLevel KindVar 2 "balance")]
  /\ option_map def_id
       (getDefinition "B3::limit" (enterInstance (H:=specCollaborators) instanceB3 stClient))
     = Some 100%Z.
Proof.
  assert (Hother : inst_protoName instanceB3 <> currentModuleName stClient)
    by discriminate.
  assert (Hregistered :
            map_get (inst_protoName instanceB3) (definitionsByModule stClient)
            = Some bankTable) by reflexivity.
  destruct (instance_override (H:=specCollaborators) instanceB3 stClient bankTable
              Hother Hregistered
              [] (mkParam 13 "rate") (mkEx 101)
              [(mkParam 14 "balance", mkEx 102); (limitParam, mkEx 100)] eq_refl)
    as [[Herrors [Hregistry _]] [Habsent _]].
  destruct (instance_override (H:=specCollaborators) instanceB3 stClient bankTable
              Hother Hregistered
              [(mkParam 13 "rate", mkEx 101)] (mkParam 14 "balance") (mkEx 102)
              [(limitParam, mkEx 100)] eq_refl)
    as [_ [_ [Hnotconst _]]].
  destruct (instance_override (H:=specCollaborators) instanceB3 stClient bankTable
              Hother Hregistered
              [(mkParam 13 "rate", mkEx 101); (mkParam 14 "balance", mkEx 102)]
              limitParam (mkEx 100) [] eq_refl)
    as [_ [_ [_ Hconst]]].
  split; [rewrite Herrors; reflexivity|].
  split; [apply Habsent; reflexivity|].
  split; [apply (Hnotconst (topLevel KindVar 2 "balance")); [reflexivity|discriminate]|].
  split; [rewrite (Hregistry "B3"); [reflexivity|reflexivity|discriminate]|].
  destruct (Hconst (topLevel KindConst 1 "limit")) as [_ [_ Hbound]].
  - reflexivity.
  - reflexivity.
  - intros param' ex' [].
  - apply (Hbound "B3::limit").
    + unfold map_wf. simpl. repeat constructor; simpl; intuition discriminate.
    + reflexivity.
    + intros d. reflexivity.
Defined.

(** C4, as stated, fails on [instance Bank as B4(limit = e1, limit = e2)]:
    [limit] is a constant of [Bank] and both overrides succeed, no
    diagnostic is pushed, and the entry of [limit], in the registry under
    [B4] and in the table under [B4::limit] and [limit], has the id of the
    second expression, not the id of the first. *)
Lemma overridden_twice_keeps_the_last :
  inst_overrides instanceTwice = [(limitParam, mkEx 100); (mkParam 17 "limit", mkEx 200)]
  /\ map_get (param_name limitParam) (map_of_entries (map_entries bankTable))
     = Some (topLevel KindConst 1 "limit")
  /\ errors (enterInstance (H:=specCollaborators) instanceTwice stClient) = []
  /\ map_get "B4"
       (definitionsByModule (enterInstance (H:=specCollaborators) instanceTwice stClient))
     = Some [("limit", topLevel KindConst 200 "limit");
             ("balance", topLevel KindVar 2 "balance")]
  /\ option_map def_id
       (getDefinition "B4::limit"
          (enterInstance (H:=specCollaborators) instanceTwice stClient))
     = Some 200%Z
  /\ option_map def_id
       (getDefinition "limit" (enterInstance (H:=specCollaborators) instanceTwice stClient))
     = Some 200%Z
  /\ ex_id (mkEx 100) <> 200%Z.
Proof.
  split; [reflexivity|]. split; [reflexivity|]. split; [reflexivity|].
  split; [reflexivity|]. split; [reflexivity|]. split; [reflexivity|].
  simpl. lia.
Defined.


(* ================================================================== *)
(** ** What the operations leave alone *)

Lemma map_set_wf {V : Type} (k : string) (v : V) (m : JsMap V) :
  map_wf m -> map_wf (map_set k v m).
Proof.
  unfold map_wf.
  assert (Hkeys : forall m : JsMap V,
             forall k', In k' (map fst (map_set k v m)) -> k' = k \/ In k' (map fst m)).
  { induction m0 as [|[k0 v0] m0 IH]; simpl; intros k' Hin.
    - destruct Hin as [<-|[]]. now left.
    - destruct (String.eqb k k0); simpl in Hin.
      + right. exact Hin.
      + destruct Hin as [<-|Hin]; [right; now left|].
        destruct (IH _ Hin); auto. }
  induction m as [|[k0 v0] m IH]; simpl; intros Hwf.
  - repeat constructor. simpl. tauto.
  - inversion Hwf as [|? ? Hnotin Hwf']. subst.
    destruct (String.eqb k k0) eqn:E; simpl.
    + constructor; assumption.
    + constructor; [|now apply IH].
      intros Hin. destruct (Hkeys _ _ Hin) as [->|Hin']; [|contradiction].
      now rewrite String.eqb_refl in E.
Qed.

Lemma map_of_entries_wf {V : Type} (l : list (string * V)) : map_wf (map_of_entries l).
Proof.
  unfold map_of_entries.
  assert (Hgen : forall (l : list (string * V)) m,
             map_wf m -> map_wf (fold_left (fun m e => map_set (fst e) (snd e) m) l m)).
  { induction l0 as [|e l0 IH]; simpl; intros m Hwf; auto.
    apply IH. now apply map_set_wf. }
  apply Hgen. constructor.
Qed.

Lemma map_set_fresh {V : Type} (k : string) (v : V) (m : JsMap V) :
  map_get k m = None -> map_set k v m = (m ++ [(k, v)])%list.
Proof.
  induction m as [|[k0 v0] m IH]; simpl; intros Hnone; auto.
  destruct (String.eqb k k0); [discriminate|]. now rewrite IH.
Qed.

(** [new Map([...m.entries()])] is [m] again. *)
Lemma map_of_entries_id {V : Type} (m : JsMap V) : map_wf m -> map_of_entries m = m.
Proof.
  unfold map_of_entries, map_wf.
  assert (Hgen : forall (l m0 : JsMap V),
             NoDup (map fst (m0 ++ l)) ->
             fold_left (fun m e => map_set (fst e) (snd e) m) l m0 = (m0 ++ l)%list).
  { induction l as [|[k v] l IH]; simpl; intros m0 Hwf.
    - now rewrite app_nil_r.
    - rewrite map_set_fresh.
      + rewrite IH; rewrite <- app_assoc; simpl; auto.
      + apply map_get_absent.
        rewrite map_app in Hwf. simpl in Hwf.
        apply NoDup_remove_2 in Hwf. intros Hin. apply Hwf.
        apply in_or_app. now left. }
  intros Hwf. apply (Hgen m []). exact Hwf.
Qed.

Lemma map_delete_set_fresh {V : Type} (k : string) (v : V) (m : JsMap V) :
  map_get k m = None -> map_delete k (map_set k v m) = m.
Proof.
  intros Hnone. rewrite map_set_fresh by assumption.
  unfold map_delete. rewrite filter_app. simpl. rewrite String.eqb_refl. simpl.
  rewrite app_nil_r. now apply map_delete_absent.
Qed.

Lemma recordConflict_as_pushErrors identifier existing newSource st :
  recordConflict identifier existing newSource st
  = pushErrors (emitted st (recordConflict identifier existing newSource st)) st.
Proof.
  rewrite <- (pushErrors_nil st) at 1.
  now rewrite recordConflict_pushErrors.
Qed.

Section Frames.
Context `{Collaborators}.

(** [collectDefinition] pushes diagnostics or sets one entry, never both,
    and touches nothing else. *)
Lemma collectDefinition_shape def importedFrom st :
  (exists es, collectDefinition def importedFrom st = pushErrors es st)
  \/ collectDefinition def importedFrom st
     = setDefinitionsByName
         (map_set (identifierOf def importedFrom) (collected def importedFrom st)
                  (definitionsByName st))
         st.
Proof.
  unfold collectDefinition.
  destruct (String.eqb (identifierOf def importedFrom) "_").
  { left. exists []. now rewrite pushErrors_nil. }
  destruct (existsb (String.eqb (identifierOf def importedFrom)) builtinNames).
  { left. eexists. apply recordConflict_as_pushErrors. }
  destruct (map_get (identifierOf def importedFrom) (definitionsByName st)) as [existing|];
    [|now right].
  destruct (negb (def_id existing =? def_id def)%Z); [|now right].
  left. eexists. apply recordConflict_as_pushErrors.
Qed.

Lemma collectDefinition_frame def importedFrom st :
  definitionsByModule (collectDefinition def importedFrom st) = definitionsByModule st
  /\ currentModuleName (collectDefinition def importedFrom st) = currentModuleName st
  /\ definitionDepth (collectDefinition def importedFrom st) = definitionDepth st.
Proof.
  destruct (collectDefinition_shape def importedFrom st) as [[es ->]| ->];
    repeat split.
Qed.

Lemma collectDefinitions_frame newDefs importedFrom st :
  definitionsByModule (collectDefinitions newDefs importedFrom st) = definitionsByModule st
  /\ currentModuleName (collectDefinitions newDefs importedFrom st) = currentModuleName st
  /\ definitionDepth (collectDefinitions newDefs importedFrom st) = definitionDepth st.
Proof. rewrite collectDefinitions_eq. repeat split. Qed.

(** The overrides of an instance only push diagnostics on the collector. *)
Lemma applyOverrides_shape decl overrides :
  forall es st instanceTable,
  exists es' instanceTable',
    fold_left (applyOverride decl) overrides (pushErrors es st, instanceTable)
    = (pushErrors (es ++ es') st, instanceTable').
Proof.
  induction overrides as [|[param ex] overrides IH]; intros es st instanceTable.
  - exists [], instanceTable. simpl. now rewrite app_nil_r.
  - cbn [fold_left]. unfold applyOverride at 2.
    destruct (map_get (param_name param) instanceTable) as [constDef|].
    + destruct (negb (DefKind_eqb (def_kind constDef) KindConst)).
      * rewrite pushError_pushErrors, pushErrors_pushErrors.
        destruct (IH (es ++ [paramIsNotAConstantError decl param])%list st instanceTable)
          as [es' [t' Heq]].
        rewrite Heq. rewrite <- app_assoc. eauto.
      * apply IH.
    + rewrite pushError_pushErrors, pushErrors_pushErrors.
      destruct (IH (es ++ [paramNotFoundError decl param])%list st instanceTable)
        as [es' [t' Heq]].
      rewrite Heq. rewrite <- app_assoc. eauto.
Qed.
End Frames.

(* ================================================================== *)
(** ** Further properties of the collector *)

Lemma recordConflict_emits identifier existing newSource st :
  emitted st (recordConflict identifier existing newSource st) <> [].
Proof.
  unfold recordConflict, emitted.
  destruct existing as [i|]; simpl; [destruct (negb (i =? 0)%Z)|];
    unfold pushError; simpl; rewrite <- ?app_assoc; rewrite skipn_length_app;
    discriminate.
Qed.

Section CollectorProperties.
Context `{Collaborators}.

(** X1: No operation of the collector drops or rewrites a diagnostic that was
    recorded: the diagnostics after a call are those before it, followed by
    the ones the call pushed. *)
Theorem diagnostics_only_grow st :
  (forall def importedFrom,
      exists es, errors (collectDefinition def importedFrom st) = (errors st ++ es)%list)
  /\ (forall newDefs importedFrom,
      exists es, errors (collectDefinitions newDefs importedFrom st) = (errors st ++ es)%list)
  /\ (forall identifier, errors (deleteDefinition identifier st) = errors st)
  /\ (forall module, exists es, errors (enterModule module st) = (errors st ++ es)%list)
  /\ (forall module, errors (exitModule module st) = errors st)
  /\ (forall def, exists es, errors (enterOpDef def st) = (errors st ++ es)%list)
  /\ (forall decl, exists es, errors (enterInstance decl st) = (errors st ++ es)%list)
  /\ (forall decl, exists es, errors (enterImport decl st) = (errors st ++ es)%list)
  /\ (forall decl, exists es, errors (enterExport decl st) = (errors st ++ es)%list).
Proof.
  assert (Hone : forall def importedFrom st,
             exists es, errors (collectDefinition def importedFrom st) = (errors st ++ es)%list).
  { intros def importedFrom st0.
    destruct (collectDefinition_shape def importedFrom st0) as [[es ->]| ->].
    - now exists es.
    - exists []. simpl. now rewrite app_nil_r. }
  assert (Hmany : forall newDefs importedFrom st,
             exists es,
               errors (collectDefinitions newDefs importedFrom st) = (errors st ++ es)%list).
  { intros newDefs importedFrom st0. rewrite collectDefinitions_eq. simpl. eauto. }
  assert (Hpush : forall e st, exists es, errors (pushError e st) = (errors st ++ es)%list).
  { intros e st0. now exists [e]. }
  assert (Hnil : forall st : NameCollector, exists es, errors st = (errors st ++ es)%list).
  { intros st0. exists []. now rewrite app_nil_r. }
  split; [auto|]. split; [auto|]. split; [reflexivity|].
  split; [|split; [reflexivity|split; [|split; [|split]]]].
  - intros module. unfold enterModule. simpl.
    destruct (map_has (mod_name module) (definitionsByModule st)); simpl; eauto.
  - intros def. unfold enterOpDef. destruct (definitionDepth st =? 0)%Z; auto.
  - intros decl. unfold enterInstance.
    destruct (String.eqb (inst_protoName decl) (currentModuleName st)); auto.
    destruct (map_get (inst_protoName decl) (definitionsByModule st)) as [moduleTable|]; auto.
    destruct (applyOverrides_shape decl (inst_overrides decl) [] st
                (map_of_entries (map_entries moduleTable))) as [es [t' Heq]].
    rewrite pushErrors_nil in Heq. unfold DefinitionsByName in *.
    rewrite Heq. simpl app.
    destruct (inst_qualifiedName decl) as [q|];
      [destruct (truthyString (Some q))|];
      rewrite collectDefinitions_eq; simpl; rewrite <- app_assoc; eauto.
  - intros decl. unfold enterImport.
    destruct (String.eqb (imp_protoName decl) (currentModuleName st)); auto.
    destruct (map_get (imp_protoName decl) (definitionsByModule st)) as [moduleTable|]; auto.
    set (st1 := match imp_qualifiedName decl with
                | Some q => if truthyString (imp_qualifiedName decl)
                            then setDefinitionsByModule _ st else st
                | None => st
                end).
    assert (Hst1 : errors st1 = errors st).
    { unfold st1. destruct (imp_qualifiedName decl) as [q|]; auto.
      destruct (truthyString (Some q)); auto. }
    rewrite <- Hst1.
    destruct (importsAll (imp_defName decl)); auto.
    destruct (imp_defName decl) as [defName|]; auto.
    destruct (map_get defName _); auto.
  - intros decl. unfold enterExport.
    destruct (String.eqb (exp_protoName decl) (currentModuleName st)); auto.
    destruct (map_get (exp_protoName decl) (definitionsByModule st)) as [moduleTable|]; auto.
    destruct (importsAll (exp_defName decl)); auto.
    destruct (exp_defName decl) as [defName|]; auto.
    destruct (map_get defName _); auto.
Qed.

(** X2: Entering a module starts from an empty table and leaves the registry as
    it is; leaving it publishes the table under the module's name, so that
    a lookup of that name finds this table (the last one for a module that
    was already registered) and every other name finds what it found
    before. *)
Theorem module_entry_and_exit module st :
  (forall identifier, getDefinition identifier (enterModule module st) = None)
  /\ currentModuleName (enterModule module st) = mod_name module
  /\ definitionsByModule (enterModule module st) = definitionsByModule st
  /\ map_get (mod_name module) (definitionsByModule (exitModule module st))
     = Some (definitionsByName st)
  /\ (forall name, name <> mod_name module ->
        map_get name (definitionsByModule (exitModule module st))
        = map_get name (definitionsByModule st))
  /\ definitionsByName (exitModule module st) = definitionsByName st
  /\ (map_get (mod_name module) (definitionsByModule st) = None ->
      errors (enterModule module st) = errors st).
Proof.
  unfold enterModule, exitModule, getDefinition. simpl.
  split; [|split; [|split; [|split; [|split; [|split]]]]].
  - intros identifier.
    destruct (map_has (mod_name module) (definitionsByModule st)); reflexivity.
  - destruct (map_has (mod_name module) (definitionsByModule st)); reflexivity.
  - destruct (map_has (mod_name module) (definitionsByModule st)); reflexivity.
  - apply map_get_set_eq.
  - intros name Hne. now apply map_get_set_neq.
  - reflexivity.
  - intros Hnone. unfold map_has. now rewrite Hnone.
Qed.


(** X4: An export or an import of one name that the source module does not
    offer pushes the name-not-found error and leaves the table as it was;
    the export leaves the whole collector as it was. *)
Theorem unknown_name_rejected st moduleTable defName :
  defName <> "" -> defName <> "*" ->
  (forall decl : QuintExport,
      exp_protoName decl <> currentModuleName st ->
      map_get (exp_protoName decl) (definitionsByModule st) = Some moduleTable ->
      exp_defName decl = Some defName ->
      map_get defName (copyNames moduleTable (qualifier (DeclExport decl)) None) = None ->
      enterExport decl st = pushError (nameNotFoundError (DeclExport decl)) st)
  /\ (forall decl : QuintImport,
      imp_protoName decl <> currentModuleName st ->
      map_get (imp_protoName decl) (definitionsByModule st) = Some moduleTable ->
      imp_defName decl = Some defName ->
      map_get defName (copyNames moduleTable (qualifier (DeclImport decl)) (Some true)) = None ->
      definitionsByName (enterImport decl st) = definitionsByName st
      /\ errors (enterImport decl st)
         = (errors st ++ [nameNotFoundError (DeclImport decl)])%list).
Proof.
  intros Hne Hstar.
  assert (Hall : importsAll (Some defName) = false).
  { unfold importsAll, truthyString.
    apply String.eqb_neq in Hne, Hstar. now rewrite Hne, Hstar. }
  split; intros decl Hcur Hreg Hname Habsent.
  - unfold enterExport. apply String.eqb_neq in Hcur.
    now rewrite Hcur, Hreg, Hname, Hall, Habsent.
  - unfold enterImport. apply String.eqb_neq in Hcur.
    rewrite Hcur, Hreg, Hname, Hall, Habsent.
    destruct (imp_qualifiedName decl) as [q|]; [destruct (truthyString (Some q))|];
      split; reflexivity.
Qed.
End CollectorProperties.

Section RegistryAndTable.
Context `{Collaborators}.

(** X6: What the import-like statements do to the registry.  An export never
    changes it.  An import or an instance without a (non-empty) qualifier
    never changes it.  An import of a registered module under a qualifier
    publishes a copy of that module's table under the qualifier, whatever
    the import does to the table, and leaves every other name as it was. *)
Theorem registry_after_import_like st :
  (forall decl : QuintExport,
      definitionsByModule (enterExport decl st) = definitionsByModule st)
  /\ (forall decl : QuintImport,
      truthyString (imp_qualifiedName decl) = false ->
      definitionsByModule (enterImport decl st) = definitionsByModule st)
  /\ (forall decl : QuintInstance,
      truthyString (inst_qualifiedName decl) = false ->
      definitionsByModule (enterInstance decl st) = definitionsByModule st)
  /\ (forall (decl : QuintImport) q moduleTable,
      imp_protoName decl <> currentModuleName st ->
      map_get (imp_protoName decl) (definitionsByModule st) = Some moduleTable ->
      imp_qualifiedName decl = Some q -> q <> "" ->
      map_get q (definitionsByModule (enterImport decl st))
      = Some (map_of_entries moduleTable)
      /\ (map_wf moduleTable -> map_of_entries moduleTable = moduleTable)
      /\ forall name, name <> q ->
           map_get name (definitionsByModule (enterImport decl st))
           = map_get name (definitionsByModule st)).
Proof.
  assert (Hone : forall def importedFrom st,
             definitionsByModule (collectDefinition def importedFrom st)
             = definitionsByModule st).
  { intros. apply collectDefinition_frame. }
  assert (Hmany : forall newDefs importedFrom st,
             definitionsByModule (collectDefinitions newDefs importedFrom st)
             = definitionsByModule st).
  { intros. apply collectDefinitions_frame. }
  split; [|split; [|split]].
  - intros decl. unfold enterExport.
    destruct (String.eqb (exp_protoName decl) (currentModuleName st)); auto.
    destruct (map_get (exp_protoName decl) (definitionsByModule st)) as [moduleTable|]; auto.
    destruct (importsAll (exp_defName decl)); auto.
    destruct (exp_defName decl) as [defName|]; auto.
    destruct (map_get defName _); auto.
  - intros decl Hq. unfold enterImport.
    destruct (String.eqb (imp_protoName decl) (currentModuleName st)); auto.
    destruct (map_get (imp_protoName decl) (definitionsByModule st)) as [moduleTable|]; auto.
    rewrite Hq.
    assert (Hst1 : match imp_qualifiedName decl with
                   | Some _ => st
                   | None => st
                   end = st) by (destruct (imp_qualifiedName decl); reflexivity).
    rewrite Hst1.
    destruct (importsAll (imp_defName decl)); auto.
    destruct (imp_defName decl) as [defName|]; auto.
    destruct (map_get defName _); auto.
  - intros decl Hq. unfold enterInstance.
    destruct (String.eqb (inst_protoName decl) (currentModuleName st)); auto.
    destruct (map_get (inst_protoName decl) (definitionsByModule st)) as [moduleTable|]; auto.
    destruct (applyOverrides_shape decl (inst_overrides decl) [] st
                (map_of_entries (map_entries moduleTable))) as [es [t' Heq]].
    rewrite pushErrors_nil in Heq. unfold DefinitionsByName in *.
    rewrite Heq, Hq.
    destruct (inst_qualifiedName decl); rewrite Hmany; reflexivity.
  - intros decl q moduleTable Hcur Hreg Hqual Hq.
    assert (Htruthy : truthyString (Some q) = true).
    { simpl. apply String.eqb_neq in Hq. now rewrite Hq. }
    assert (Hreg' :
              definitionsByModule (enterImport decl st)
              = map_set q (map_of_entries (map_entries moduleTable)) (definitionsByModule st)).
    { unfold enterImport. apply String.eqb_neq in Hcur.
      rewrite Hcur, Hreg, Hqual, Htruthy.
      destruct (importsAll (imp_defName decl)); [now rewrite Hmany|].
      destruct (imp_defName decl) as [defName|]; auto.
      destruct (map_get defName _); [now rewrite Hone|reflexivity]. }
    rewrite Hreg'. unfold map_entries. split; [apply map_get_set_eq|]. split.
    + apply map_of_entries_id.
    + intros name Hne. now apply map_get_set_neq.
Qed.
End RegistryAndTable.

Lemma map_delete_set {V : Type} (k : string) (v : V) (m : JsMap V) :
  map_delete k (map_set k v m) = map_delete k m.
Proof.
  unfold map_delete. induction m as [|[k0 v0] m IH]; simpl.
  - now rewrite String.eqb_refl.
  - destruct (String.eqb k k0) eqn:E; simpl; rewrite E; simpl; auto.
    now rewrite IH.
Qed.

Section ScopedAndBatch.
Context `{Collaborators}.

(** X7: Collecting a definition and then deleting its identifier, as a scope
    does on entry and exit: the table is the old table without that
    identifier, in every case; when the identifier was not bound, and is
    neither [_] nor a built-in name, the collector is exactly what it was,
    and in between the new entry is the last one of the table.  When the
    identifier was bound, the earlier binding is gone afterwards. *)
Theorem collect_then_delete def importedFrom st :
  definitionsByName
    (deleteDefinition (identifierOf def importedFrom) (collectDefinition def importedFrom st))
  = map_delete (identifierOf def importedFrom) (definitionsByName st)
  /\ (getDefinition (identifierOf def importedFrom) st = None ->
      identifierOf def importedFrom <> "_" ->
      ~ In (identifierOf def importedFrom) builtinNames ->
      definitionsByName (collectDefinition def importedFrom st)
      = (definitionsByName st
         ++ [(identifierOf def importedFrom, collected def importedFrom st)])%list
      /\ deleteDefinition (identifierOf def importedFrom)
                          (collectDefinition def importedFrom st)
         = st).
Proof.
  split.
  - destruct (collectDefinition_shape def importedFrom st) as [[es ->]| ->]; simpl.
    + reflexivity.
    + apply map_delete_set.
  - intros Hnone Hus Hnb. unfold getDefinition in Hnone.
    rewrite collectDefinition_insert; auto.
    + simpl. split; [now apply map_set_fresh|].
      unfold deleteDefinition. simpl.
      rewrite map_delete_set_fresh by assumption. now destruct st.
    + intros existing Hex. rewrite Hnone in Hex. discriminate.
Qed.

Lemma entryDiagnostics_nil_iff importedFrom st identifier def :
  entryDiagnostics importedFrom st (identifier, def) = []
  <-> (forall existing,
          map_get identifier (definitionsByName st) = Some existing ->
          def_id existing = def_id def).
Proof.
  unfold entryDiagnostics, collectEntry. simpl.
  destruct (map_get identifier (definitionsByName st)) as [existing|].
  - destruct (Z.eqb_spec (def_id existing) (def_id def)) as [Heq|Hne]; simpl.
    + split; [now intros _ ? [= <-]|]. intros _. unfold emitted. apply skipn_all.
    + split.
      * intros Hnil. now apply recordConflict_emits in Hnil.
      * intros Hsame. now specialize (Hsame existing eq_refl).
  - split; [discriminate|]. intros _. unfold emitted. apply skipn_all.
Qed.

(** X8: The batch is silent exactly when it brings no identifier that the table
    binds to a definition with another id. *)
Theorem batch_silent_iff_no_conflict newDefs importedFrom st :
  emitted st (collectDefinitions newDefs importedFrom st) = []
  <-> (forall identifier def existing,
          In (identifier, def) newDefs ->
          getDefinition identifier st = Some existing ->
          def_id existing = def_id def).
Proof.
  rewrite collectDefinitions_emitted. unfold getDefinition.
  induction newDefs as [|[identifier def] newDefs IH]; simpl.
  - split; [intros _ ? ? ? []|reflexivity].
  - split.
    + intros Hnil. apply app_eq_nil in Hnil. destruct Hnil as [Hhead Htail].
      intros identifier' def' existing [[= <- <-]|Hin] Hget.
      * now apply (proj1 (entryDiagnostics_nil_iff importedFrom st identifier def)).
      * now apply (proj1 IH Htail identifier' def' existing).
    + intros Hsame.
      rewrite (proj2 (entryDiagnostics_nil_iff importedFrom st identifier def)).
      * apply IH. intros identifier' def' existing Hin. apply Hsame. now right.
      * intros existing. apply Hsame. now left.
Qed.

(** X9: The table after the batch: a key of the batch is bound to the batch's
    definition, with the namespaces added and the statement recorded as its
    provenance, whatever the key was bound to; any other key keeps its
    binding; and the keys are distinct again. *)
Theorem batch_lookup newDefs importedFrom st k :
  map_wf newDefs ->
  map_wf (definitionsByName st) ->
  getDefinition k (collectDefinitions newDefs importedFrom st)
  = match map_get k newDefs with
    | Some def => Some (collected def importedFrom st)
    | None => getDefinition k st
    end
  /\ (forall def, def_importedFrom (collected def importedFrom st) = importedFrom)
  /\ map_wf (definitionsByName (collectDefinitions newDefs importedFrom st)).
Proof.
  intros Hnew Hold. split; [|split].
  - destruct (map_get k newDefs) as [def|] eqn:E.
    + now apply collectDefinitions_get_new.
    + now apply collectDefinitions_get_old.
  - reflexivity.
  - rewrite collectDefinitions_eq. simpl. apply map_of_entries_wf.
Qed.

(** X10: The namespaces attached to a definition are never empty strings; an
    instance attaches at most two, an import or an export at most one. *)
Theorem namespaces_are_not_empty decl st :
  (forall n, In n (namespaces decl st) -> n <> "")
  /\ (List.length (namespaces decl st) <= 2)%nat
  /\ (match decl with
      | DeclInstance _ => True
      | _ => (List.length (namespaces decl st) <= 1)%nat
      end).
Proof.
  assert (Hcompact : forall l n, In n (compact l) -> n <> "").
  { unfold compact. intros l n Hin. apply filter_In in Hin. destruct Hin as [_ Hne].
    intros ->. discriminate. }
  assert (Hlen : forall l, (List.length (compact l) <= List.length l)%nat).
  { unfold compact. intros l. apply filter_length_le. }
  assert (Hother : forall q : option string,
             (forall n, In n (match q with
                              | Some n0 => if truthyString q then [n0] else []
                              | None => []
                              end) -> n <> "")
             /\ (List.length (match q with
                              | Some n0 => if truthyString q then [n0] else []
                              | None => []
                              end) <= 1)%nat).
  { intros [q|]; simpl; [|split; [intros ? []|lia]].
    destruct (String.eqb q "") eqn:E; simpl; (split; [|lia]).
    - intros n Hin. destruct Hin.
    - intros n [<-|[]]. now apply String.eqb_neq. }
  destruct decl as [i|i|e]; unfold namespaces.
  - split; [apply Hcompact|]. split; [|exact I].
    etransitivity; [apply Hlen|]. simpl. lia.
  - destruct (Hother (qualifier (DeclImport i))) as [Hne Hl].
    split; [exact Hne|]. split; [lia|exact Hl].
  - destruct (Hother (qualifier (DeclExport e))) as [Hne Hl].
    split; [exact Hne|]. split; [lia|exact Hl].
Qed.
End ScopedAndBatch.

Section OneName.
Context `{Collaborators}.

(** X5: An export or an import of one name that the source module offers,
    where the name is neither [_] nor a built-in name and the table does
    not bind it to a definition with another id: the name of the statement
    is bound to the offered definition, with the namespaces added and the
    statement as its provenance; no diagnostic is pushed and every other
    name keeps its binding. *)
Theorem one_name_imported st moduleTable defName newDef :
  defName <> "" -> defName <> "*" -> defName <> "_" ->
  ~ In defName builtinNames ->
  (forall existing,
      getDefinition defName st = Some existing -> def_id existing = def_id newDef) ->
  (forall decl : QuintExport,
      exp_protoName decl <> currentModuleName st ->
      map_get (exp_protoName decl) (definitionsByModule st) = Some moduleTable ->
      exp_defName decl = Some defName ->
      map_get defName (copyNames moduleTable (qualifier (DeclExport decl)) None)
      = Some newDef ->
      getDefinition defName (enterExport decl st)
      = Some (collected newDef (Some (DeclExport decl)) st)
      /\ (forall k, k <> defName ->
            getDefinition k (enterExport decl st) = getDefinition k st)
      /\ errors (enterExport decl st) = errors st
      /\ definitionsByModule (enterExport decl st) = definitionsByModule st)
  /\ (forall decl : QuintImport,
      imp_protoName decl <> currentModuleName st ->
      map_get (imp_protoName decl) (definitionsByModule st) = Some moduleTable ->
      imp_defName decl = Some defName ->
      map_get defName (copyNames moduleTable (qualifier (DeclImport decl)) (Some true))
      = Some newDef ->
      getDefinition defName (enterImport decl st)
      = Some (collected newDef (Some (DeclImport decl)) st)
      /\ (forall k, k <> defName ->
            getDefinition k (enterImport decl st) = getDefinition k st)
      /\ errors (enterImport decl st) = errors st).
Proof.
  intros Hne Hstar Hunder Hbuiltin Hsame.
  assert (Hall : importsAll (Some defName) = false).
  { unfold importsAll, truthyString.
    apply String.eqb_neq in Hne, Hstar. now rewrite Hne, Hstar. }
  split; intros decl Hcur Hreg Hname Hoffered.
  - assert (Hid : identifierOf newDef (Some (DeclExport decl)) = defName).
    { unfold identifierOf. simpl. now rewrite Hname. }
    unfold enterExport. apply String.eqb_neq in Hcur.
    rewrite Hcur, Hreg, Hname, Hall, Hoffered.
    rewrite collectDefinition_insert; rewrite ?Hid; auto.
    unfold getDefinition. simpl.
    split; [apply map_get_set_eq|].
    split; [|split; reflexivity].
    intros k Hk. apply map_get_set_neq. congruence.
  - assert (Hid : identifierOf newDef (Some (DeclImport decl)) = defName).
    { unfold identifierOf. simpl. now rewrite Hname. }
    unfold enterImport. apply String.eqb_neq in Hcur.
    rewrite Hcur, Hreg, Hname, Hall, Hoffered.
    match goal with
    | |- context [collectDefinition newDef _ ?s1] => remember s1 as st1 eqn:Hst1
    end.
    assert (Htable : definitionsByName st1 = definitionsByName st
                     /\ errors st1 = errors st
                     /\ collected newDef (Some (DeclImport decl)) st1
                        = collected newDef (Some (DeclImport decl)) st).
    { subst st1. destruct (imp_qualifiedName decl) as [q|];
        [destruct (truthyString (Some q))|]; repeat split. }
    clear Hst1. destruct Htable as [Htable [Herrors Hcollected]].
    rewrite collectDefinition_insert; rewrite ?Hid; rewrite ?Htable; auto.
    unfold getDefinition. simpl. rewrite ?Htable, ?Hcollected.
    split; [apply map_get_set_eq|].
    split; [|exact Herrors].
    intros k Hk. apply map_get_set_neq. congruence.
Qed.
End OneName.

(* ================================================================== *)
(** ** Bounded unsigned integers *)

Section BoundedUIntFacts.
Import BoundedUInt.
Variable BITS : Z.
Local Open Scope Z_scope.

Local Abbreviation valid x := (isValid BITS x = true).

Lemma isValid_iff x : valid x <-> error x = "" /\ 0 <= v x <= MAX BITS.
Proof.
  unfold isValid, isInRange, MIN.
  rewrite !andb_true_iff, String.eqb_eq, Z.geb_le, Z.leb_le. tauto.
Qed.

Lemma isValid_false_iff x : isValid BITS x = false <-> ~ valid x.
Proof. destruct (isValid BITS x); split; congruence. Qed.

Lemma MAX_succ_pos : 0 <= BITS -> 0 < MAX BITS + 1.
Proof. intros Hb. unfold MAX. assert (0 < 2 ^ BITS) by (apply Z.pow_pos_nonneg; lia). lia. Qed.

Lemma wrapErrorBin_valid lhs rhs op :
  valid lhs -> valid rhs -> wrapErrorBin BITS lhs rhs op = op lhs rhs.
Proof. intros Hl Hr. unfold wrapErrorBin. now rewrite Hl, Hr. Qed.

Lemma UIntT_eta x : mkUIntT (v x) (error x) = x.
Proof. now destruct x. Qed.

(** X11: [UInt] makes a valid record exactly of the values from 0 to [MAX], it
    keeps the value in every case, and every valid record is [UInt] of its
    value. *)
Theorem UInt_valid_iff x y :
  (valid (UInt BITS x) <-> 0 <= x <= MAX BITS)
  /\ v (UInt BITS x) = x
  /\ (~ (0 <= x <= MAX BITS) -> error (UInt BITS x) = "out of range")
  /\ (valid y -> UInt BITS (v y) = y).
Proof.
  split; [|split; [reflexivity|split]].
  - rewrite isValid_iff. unfold UInt, MIN. simpl.
    destruct (Z.leb_spec 0 x), (Z.leb_spec x (MAX BITS)); simpl;
      split; intros; try lia; try tauto; intuition discriminate.
  - intros Hout. unfold UInt, MIN. simpl.
    destruct (Z.leb_spec 0 x), (Z.leb_spec x (MAX BITS)); simpl; auto; lia.
  - intros Hy. apply isValid_iff in Hy. destruct Hy as [He [Hlo Hhi]].
    unfold UInt, MIN.
    apply Z.leb_le in Hlo, Hhi. rewrite Hlo, Hhi. simpl.
    rewrite <- He. apply UIntT_eta.
Qed.

(** X12: An invalid operand is never lost: every wrapped operation returns its
    first invalid operand unchanged, so its result is invalid as soon as one
    operand is, whatever the operation. *)
Theorem wrapErrorBin_keeps_errors lhs rhs op :
  (~ valid lhs -> wrapErrorBin BITS lhs rhs op = lhs)
  /\ (valid lhs -> ~ valid rhs -> wrapErrorBin BITS lhs rhs op = rhs)
  /\ (~ valid lhs \/ ~ valid rhs -> ~ valid (wrapErrorBin BITS lhs rhs op)).
Proof.
  unfold wrapErrorBin.
  destruct (isValid BITS lhs) eqn:El, (isValid BITS rhs) eqn:Er; simpl;
    repeat split; intros; try congruence; try tauto;
    intuition congruence.
Qed.

(** X13: Checked addition, subtraction and multiplication of valid operands
    carry the exact result; the result is valid exactly when the exact
    result fits, and is marked as an overflow or an underflow when it does
    not. *)
Theorem checked_arithmetic_is_exact a b :
  valid a -> valid b ->
  (v (checkedAdd BITS a b) = v a + v b
   /\ (valid (checkedAdd BITS a b) <-> v a + v b <= MAX BITS)
   /\ (MAX BITS < v a + v b -> error (checkedAdd BITS a b) = "overflow"))
  /\ (v (checkedSub BITS a b) = v a - v b
      /\ (valid (checkedSub BITS a b) <-> v b <= v a)
      /\ (v a < v b -> error (checkedSub BITS a b) = "underflow"))
  /\ (v (checkedMul BITS a b) = v a * v b
      /\ (valid (checkedMul BITS a b) <-> v a * v b <= MAX BITS)
      /\ (MAX BITS < v a * v b -> error (checkedMul BITS a b) = "overflow")).
Proof.
  intros Ha Hb.
  unfold checkedAdd, checkedSub, checkedMul.
  rewrite !wrapErrorBin_valid by assumption.
  apply isValid_iff in Ha, Hb. destruct Ha as [_ Ha], Hb as [_ Hb].
  unfold checkedAddUnsafe, checkedSubUnsafe, checkedMulUnsafe, MIN.
  rewrite !isValid_iff. simpl.
  assert (Hmul : 0 <= v a * v b) by nia.
  repeat split; intros;
    repeat match goal with
      | H : context [(?x >? ?y)] |- _ => destruct (Z.gtb_spec x y)
      | |- context [(?x >? ?y)] => destruct (Z.gtb_spec x y)
      | H : context [(?x <? ?y)] |- _ => destruct (Z.ltb_spec x y)
      | |- context [(?x <? ?y)] => destruct (Z.ltb_spec x y)
      end;
    try reflexivity; try lia; try (intuition discriminate).
Qed.
(** X14: Checked division and remainder of valid operands: a zero divisor gives
    the division-by-zero error; otherwise both results are valid and are the
    quotient and the remainder of the division of the values. *)
Theorem checked_division a b :
  valid a -> valid b ->
  (v b = 0 ->
   error (checkedDiv BITS a b) = "division by zero"
   /\ error (checkedRem BITS a b) = "division by zero"
   /\ ~ valid (checkedDiv BITS a b) /\ ~ valid (checkedRem BITS a b))
  /\ (v b <> 0 ->
      valid (checkedDiv BITS a b) /\ valid (checkedRem BITS a b)
      /\ v a = v b * v (checkedDiv BITS a b) + v (checkedRem BITS a b)
      /\ 0 <= v (checkedRem BITS a b) < v b).
Proof.
  intros Ha Hb.
  unfold checkedDiv, checkedRem.
  rewrite !wrapErrorBin_valid by assumption.
  apply isValid_iff in Ha, Hb. destruct Ha as [_ Ha], Hb as [_ Hb].
  unfold checkedDivUnsafe, checkedRemUnsafe.
  split; intros Hz.
  - apply Z.eqb_eq in Hz. rewrite Hz. simpl.
    rewrite !isValid_iff. simpl. repeat split; try discriminate; intuition discriminate.
  - assert (Hpos : 0 < v b) by lia.
    apply Z.eqb_neq in Hz. rewrite Hz. simpl.
    pose proof (Z.quot_rem' (v a) (v b)) as Hqr.
    pose proof (Z.rem_bound_pos (v a) (v b) (proj1 Ha) Hpos) as Hr.
    assert (Hq : 0 <= Z.quot (v a) (v b)) by (apply Z.quot_pos; lia).
    rewrite !isValid_iff. simpl.
    repeat split; try lia; nia.
Qed.

(** X15: Saturating addition, subtraction and multiplication of valid operands
    always give a valid result: the exact result when it fits, the nearest
    bound otherwise. *)
Theorem saturating_arithmetic a b :
  valid a -> valid b ->
  saturatingAdd BITS a b = mkUIntT (Z.min (MAX BITS) (v a + v b)) ""
  /\ saturatingSub BITS a b = mkUIntT (Z.max 0 (v a - v b)) ""
  /\ saturatingMul BITS a b = mkUIntT (Z.min (MAX BITS) (v a * v b)) ""
  /\ valid (saturatingAdd BITS a b)
  /\ valid (saturatingSub BITS a b)
  /\ valid (saturatingMul BITS a b).
Proof.
  intros Ha Hb.
  unfold saturatingAdd, saturatingSub, saturatingMul.
  rewrite !wrapErrorBin_valid by assumption.
  apply isValid_iff in Ha, Hb. destruct Ha as [_ Ha], Hb as [_ Hb].
  unfold saturatingAddUnsafe, saturatingSubUnsafe, saturatingMulUnsafe, MIN.
  assert (Hmul : 0 <= v a * v b) by nia.
  assert (Hadd : (if v a + v b <? MAX BITS then v a + v b else MAX BITS)
                 = Z.min (MAX BITS) (v a + v b)).
  { destruct (Z.ltb_spec (v a + v b) (MAX BITS)); lia. }
  assert (Hsub : (if v a - v b >? 0 then v a - v b else 0) = Z.max 0 (v a - v b)).
  { destruct (Z.gtb_spec (v a - v b) 0); lia. }
  assert (Hmu : (if v a * v b <? MAX BITS then v a * v b else MAX BITS)
                = Z.min (MAX BITS) (v a * v b)).
  { destruct (Z.ltb_spec (v a * v b) (MAX BITS)); lia. }
  rewrite Hadd, Hsub, Hmu. rewrite !isValid_iff. simpl.
  repeat split; lia.
Qed.

Lemma wrappingAdd_eq a b :
  valid a -> valid b ->
  wrappingAdd BITS a b = mkUIntT ((v a + v b) mod 2 ^ BITS) "".
Proof.
  intros Ha Hb. unfold wrappingAdd. rewrite wrapErrorBin_valid by assumption.
  apply isValid_iff in Ha, Hb. destruct Ha as [_ Ha], Hb as [_ Hb].
  unfold wrappingAddUnsafe. f_equal.
  replace (MAX BITS + 1) with (2 ^ BITS) by (unfold MAX; lia).
  apply Z.rem_mod_nonneg; unfold MAX in *; lia.
Qed.

Lemma wrappingSub_eq a b :
  valid a -> valid b ->
  wrappingSub BITS a b = mkUIntT ((v a - v b) mod 2 ^ BITS) "".
Proof.
  intros Ha Hb. unfold wrappingSub. rewrite wrapErrorBin_valid by assumption.
  apply isValid_iff in Ha, Hb. destruct Ha as [_ Ha], Hb as [_ Hb].
  unfold wrappingSubUnsafe, MIN. f_equal.
  replace (MAX BITS + 1) with (2 ^ BITS) by (unfold MAX; lia).
  assert (Hn : 0 < 2 ^ BITS) by (unfold MAX in *; lia).
  destruct (Z.ltb_spec (v a - v b) 0).
  - rewrite Z.rem_mod_nonneg by (unfold MAX in *; lia).
    replace (v a - v b + 2 ^ BITS) with (v a - v b + 1 * 2 ^ BITS) by lia.
    apply Z_mod_plus_full.
  - apply Z.rem_mod_nonneg; lia.
Qed.

Lemma wrappingMul_eq a b :
  valid a -> valid b ->
  wrappingMul BITS a b = mkUIntT ((v a * v b) mod 2 ^ BITS) "".
Proof.
  intros Ha Hb. unfold wrappingMul. rewrite wrapErrorBin_valid by assumption.
  apply isValid_iff in Ha, Hb. destruct Ha as [_ Ha], Hb as [_ Hb].
  unfold wrappingMulUnsafe. f_equal.
  replace (MAX BITS + 1) with (2 ^ BITS) by (unfold MAX; lia).
  apply Z.rem_mod_nonneg; [nia|unfold MAX in *; lia].
Qed.

Lemma mod_valid x : 0 <= MAX BITS -> valid (mkUIntT (x mod 2 ^ BITS) "").
Proof.
  intros Hm. apply isValid_iff. simpl. split; [reflexivity|].
  assert (0 <= x mod 2 ^ BITS < 2 ^ BITS) by (apply Z.mod_pos_bound; unfold MAX in *; lia).
  unfold MAX. lia.
Qed.

(** X16: Wrapping addition, subtraction and multiplication of valid operands
    always give a valid result, the exact result reduced modulo [2^BITS];
    for the subtraction this is the residue of the (possibly negative)
    difference. *)
Theorem wrapping_arithmetic a b :
  valid a -> valid b ->
  wrappingAdd BITS a b = mkUIntT ((v a + v b) mod 2 ^ BITS) ""
  /\ wrappingSub BITS a b = mkUIntT ((v a - v b) mod 2 ^ BITS) ""
  /\ wrappingMul BITS a b = mkUIntT ((v a * v b) mod 2 ^ BITS) ""
  /\ valid (wrappingAdd BITS a b)
  /\ valid (wrappingSub BITS a b)
  /\ valid (wrappingMul BITS a b).
Proof.
  intros Ha Hb.
  rewrite wrappingAdd_eq, wrappingSub_eq, wrappingMul_eq by assumption.
  apply isValid_iff in Ha. destruct Ha as [_ Ha].
  repeat split; apply mod_valid; lia.
Qed.

(** X17: Wrapping subtraction undoes wrapping addition, and the other way
    round, on valid operands. *)
Theorem wrapping_add_sub_inverse a b :
  valid a -> valid b ->
  wrappingSub BITS (wrappingAdd BITS a b) b = a
  /\ wrappingAdd BITS (wrappingSub BITS a b) b = a.
Proof.
  intros Ha Hb.
  assert (Hm : 0 <= MAX BITS).
  { apply isValid_iff in Ha. lia. }
  assert (Hn : 0 < 2 ^ BITS) by (unfold MAX in Hm; lia).
  assert (Hav : v a mod 2 ^ BITS = v a).
  { apply isValid_iff in Ha. apply Z.mod_small. unfold MAX in Ha. lia. }
  assert (Hae : mkUIntT (v a) "" = a).
  { apply isValid_iff in Ha. destruct Ha as [He _]. rewrite <- He. apply UIntT_eta. }
  split.
  - rewrite (wrappingAdd_eq a b) by assumption.
    rewrite wrappingSub_eq by (auto using mod_valid). simpl.
    rewrite Zminus_mod_idemp_l.
    replace (v a + v b - v b) with (v a) by lia.
    now rewrite Hav.
  - rewrite (wrappingSub_eq a b) by assumption.
    rewrite wrappingAdd_eq by (auto using mod_valid). simpl.
    rewrite Zplus_mod_idemp_l.
    replace (v a - v b + v b) with (v a) by lia.
    now rewrite Hav.
Qed.

(** X18: The absolute difference of valid operands is valid, is the absolute
    value of the difference of the values, does not depend on the order of
    the operands, and is zero exactly for equal values. *)
Theorem absDiff_properties a b :
  valid a -> valid b ->
  absDiff BITS a b = mkUIntT (Z.abs (v a - v b)) ""
  /\ valid (absDiff BITS a b)
  /\ absDiff BITS a b = absDiff BITS b a
  /\ (v (absDiff BITS a b) = 0 <-> v a = v b).
Proof.
  intros Ha Hb.
  assert (Heq : forall x y, valid x -> valid y ->
                            absDiff BITS x y = mkUIntT (Z.abs (v x - v y)) "").
  { intros x y Hx Hy. unfold absDiff. rewrite wrapErrorBin_valid by assumption.
    unfold absDiffUnsafe. f_equal.
    destruct (Z.ltb_spec (v x - v y) 0); lia. }
  rewrite (Heq a b), (Heq b a) by assumption.
  apply isValid_iff in Ha, Hb. destruct Ha as [_ Ha], Hb as [_ Hb].
  rewrite isValid_iff. simpl.
  repeat split; try lia.
  f_equal. lia.
Qed.
Lemma wrapErrorBin_valid_operands lhs rhs op :
  valid (wrapErrorBin BITS lhs rhs op) -> valid lhs /\ valid rhs.
Proof.
  unfold wrapErrorBin.
  destruct (isValid BITS lhs) eqn:El; simpl; [|congruence].
  destruct (isValid BITS rhs) eqn:Er; simpl; [auto|congruence].
Qed.

Lemma pow_guard a b :
  ((v a =? v b) && (v a =? 0) = true <-> v a = 0 /\ v b = 0).
Proof. rewrite andb_true_iff, !Z.eqb_eq. lia. Qed.

Lemma checkedPow_eq a b :
  valid a -> valid b -> ~ (v a = 0 /\ v b = 0) ->
  checkedPow BITS a b
  = mkUIntT (v a ^ v b) (if v a ^ v b >? MAX BITS then "overflow" else "").
Proof.
  intros Ha Hb Hz. unfold checkedPow. rewrite wrapErrorBin_valid by assumption.
  unfold checkedPowUnsafe.
  destruct ((v a =? v b) && (v a =? 0)) eqn:E; [|reflexivity].
  apply pow_guard in E. contradiction.
Qed.

(** X19: When the checked operation does not overflow, the saturating and the
    wrapping operation give the very same record. *)
Theorem families_agree_without_overflow a b :
  (valid (checkedAdd BITS a b) ->
   saturatingAdd BITS a b = checkedAdd BITS a b
   /\ wrappingAdd BITS a b = checkedAdd BITS a b)
  /\ (valid (checkedSub BITS a b) ->
      saturatingSub BITS a b = checkedSub BITS a b
      /\ wrappingSub BITS a b = checkedSub BITS a b)
  /\ (valid (checkedMul BITS a b) ->
      saturatingMul BITS a b = checkedMul BITS a b
      /\ wrappingMul BITS a b = checkedMul BITS a b)
  /\ (valid (checkedPow BITS a b) ->
      saturatingPow BITS a b = checkedPow BITS a b
      /\ wrappingPow BITS a b = checkedPow BITS a b).
Proof.
  assert (Hops : forall op, valid (wrapErrorBin BITS a b op) ->
                            valid a /\ valid b /\ valid (op a b)).
  { intros op Hv. destruct (wrapErrorBin_valid_operands _ _ _ Hv) as [Ha Hb].
    rewrite wrapErrorBin_valid in Hv by assumption. auto. }
  split; [|split; [|split]]; intros Hv; apply Hops in Hv; destruct Hv as [Ha [Hb Hv]];
    split;
    unfold saturatingAdd, wrappingAdd, checkedAdd, saturatingSub, wrappingSub, checkedSub,
      saturatingMul, wrappingMul, checkedMul, saturatingPow, wrappingPow, checkedPow;
    rewrite !wrapErrorBin_valid by assumption;
    apply isValid_iff in Ha, Hb, Hv;
    destruct Ha as [_ Ha], Hb as [_ Hb], Hv as [He Hv];
    unfold checkedAddUnsafe, checkedSubUnsafe, checkedMulUnsafe, checkedPowUnsafe,
      saturatingAddUnsafe, saturatingSubUnsafe, saturatingMulUnsafe, saturatingPowUnsafe,
      wrappingAddUnsafe, wrappingSubUnsafe, wrappingMulUnsafe, wrappingPowUnsafe, MIN in *;
    try (destruct ((v a =? v b) && (v a =? 0)) eqn:Eg; [discriminate He|]);
    simpl in He, Hv |- *;
    repeat match goal with
      | H : context [(?x >? ?y)] |- _ => destruct (Z.gtb_spec x y); try discriminate H
      | H : context [(?x <? ?y)] |- _ => destruct (Z.ltb_spec x y); try discriminate H
      | |- context [(?x >? ?y)] => destruct (Z.gtb_spec x y)
      | |- context [(?x <? ?y)] => destruct (Z.ltb_spec x y)
      end;
    try (f_equal; lia);
    try (f_equal; rewrite Z.rem_small; lia).
Qed.

(** X20: Exponentiation of valid operands: [0^0] is the error [undefined] in the
    three families; otherwise the checked power carries the exact power and
    is valid exactly when it fits, the saturating power is the smaller of
    the power and [MAX], and the wrapping power is the power modulo
    [2^BITS]. *)
Theorem powers a b :
  valid a -> valid b ->
  (v a = 0 /\ v b = 0 ->
   checkedPow BITS a b = mkUIntT 1 "undefined"
   /\ saturatingPow BITS a b = mkUIntT 1 "undefined"
   /\ wrappingPow BITS a b = mkUIntT 1 "undefined")
  /\ (~ (v a = 0 /\ v b = 0) ->
      v (checkedPow BITS a b) = v a ^ v b
      /\ (valid (checkedPow BITS a b) <-> v a ^ v b <= MAX BITS)
      /\ saturatingPow BITS a b = mkUIntT (Z.min (MAX BITS) (v a ^ v b)) ""
      /\ wrappingPow BITS a b = mkUIntT ((v a ^ v b) mod 2 ^ BITS) "").
Proof.
  intros Ha Hb.
  unfold saturatingPow, wrappingPow.
  rewrite !wrapErrorBin_valid by assumption.
  unfold saturatingPowUnsafe, wrappingPowUnsafe.
  split; intros Hz.
  - unfold checkedPow. rewrite wrapErrorBin_valid by assumption.
    unfold checkedPowUnsafe.
    apply pow_guard in Hz. rewrite Hz. auto.
  - rewrite checkedPow_eq by assumption.
    destruct ((v a =? v b) && (v a =? 0)) eqn:E; [apply pow_guard in E; contradiction|].
    apply isValid_iff in Ha, Hb. destruct Ha as [_ Ha], Hb as [_ Hb].
    assert (Hp : 0 <= v a ^ v b) by (apply Z.pow_nonneg; lia).
    rewrite isValid_iff. simpl.
    split; [reflexivity|]. split; [|split].
    + destruct (Z.gtb_spec (v a ^ v b) (MAX BITS)); split; intros;
        try lia; intuition discriminate.
    + f_equal. destruct (Z.ltb_spec (v a ^ v b) (MAX BITS)); lia.
    + f_equal. replace (MAX BITS + 1) with (2 ^ BITS) by (unfold MAX; lia).
      apply Z.rem_mod_nonneg; [lia|unfold MAX in *; lia].
Qed.

(** X21: On valid operands addition and multiplication do not depend on the
    order of the operands, in the three families. *)
Theorem add_mul_commute a b :
  valid a -> valid b ->
  checkedAdd BITS a b = checkedAdd BITS b a
  /\ checkedMul BITS a b = checkedMul BITS b a
  /\ saturatingAdd BITS a b = saturatingAdd BITS b a
  /\ saturatingMul BITS a b = saturatingMul BITS b a
  /\ wrappingAdd BITS a b = wrappingAdd BITS b a
  /\ wrappingMul BITS a b = wrappingMul BITS b a.
Proof.
  intros Ha Hb.
  unfold checkedAdd, checkedMul, saturatingAdd, saturatingMul, wrappingAdd, wrappingMul.
  rewrite !wrapErrorBin_valid by assumption.
  unfold checkedAddUnsafe, checkedMulUnsafe, saturatingAddUnsafe, saturatingMulUnsafe,
    wrappingAddUnsafe, wrappingMulUnsafe.
  rewrite (Z.add_comm (v b) (v a)), (Z.mul_comm (v b) (v a)).
  repeat split.
Qed.
End BoundedUIntFacts.

(* ================================================================== *)
(** ** The tests of [BoundedUInt], at every width *)

Section BoundedUIntTests.
Import BoundedUInt.
Import BoundedUInt_Test.
Variable BITS : Z.
Local Open Scope Z_scope.
Hypothesis Hbits : 1 < BITS.

Lemma two_n_le_pow n : 0 <= n -> 2 * n <= 2 ^ n.
Proof.
  intros Hn. pattern n. apply natlike_ind; auto.
  - simpl. lia.
  - intros x Hx IH. rewrite Z.pow_succ_r by lia.
    destruct (Z.eq_dec x 0) as [->|Hne]; [simpl; lia|]. lia.
Qed.

Lemma UInt_in x : 0 <= x <= MAX BITS -> UInt BITS x = mkUIntT x "".
Proof.
  intros [Hlo Hhi]. unfold UInt, MIN. apply Z.leb_le in Hlo, Hhi. now rewrite Hlo, Hhi.
Qed.

Lemma UInt_out x : ~ (0 <= x <= MAX BITS) -> UInt BITS x = mkUIntT x "out of range".
Proof.
  intros Hout. unfold UInt, MIN.
  destruct (Z.leb_spec 0 x), (Z.leb_spec x (MAX BITS)); simpl; auto; lia.
Qed.

Lemma mk_valid x : 0 <= x <= MAX BITS -> isValid BITS (mkUIntT x "") = true.
Proof. intros Hx. apply isValid_iff. simpl. auto. Qed.

Lemma mk_invalid x s : s <> "" -> isValid BITS (mkUIntT x s) = false.
Proof.
  intros Hs. apply isValid_false_iff. rewrite isValid_iff. simpl. tauto.
Qed.

Lemma wrap_l x y op : wrapErrorBin BITS (mkUIntT x "out of range") y op = mkUIntT x "out of range".
Proof. unfold wrapErrorBin. rewrite mk_invalid by discriminate. reflexivity. Qed.

Lemma wrap_r x y op : 0 <= x <= MAX BITS ->
  wrapErrorBin BITS (mkUIntT x "") (mkUIntT y "out of range") op = mkUIntT y "out of range".
Proof. intros Hx. unfold wrapErrorBin. rewrite mk_valid by assumption. rewrite mk_invalid by discriminate. reflexivity. Qed.

Lemma wrap_v x y op : 0 <= x <= MAX BITS -> 0 <= y <= MAX BITS ->
  wrapErrorBin BITS (mkUIntT x "") (mkUIntT y "") op = op (mkUIntT x "") (mkUIntT y "").
Proof. intros Hx Hy. apply wrapErrorBin_valid; now apply mk_valid. Qed.

Lemma MAX_at_least_3 : 3 <= MAX BITS.
Proof.
  unfold MAX. pose proof (two_n_le_pow BITS ltac:(lia)).
  assert (2 ^ 2 <= 2 ^ BITS) by (apply Z.pow_le_mono_r; lia). simpl in *. lia.
Qed.

Lemma BITS_fits : BITS + 1 <= MAX BITS.
Proof.
  unfold MAX.
  assert (H : 2 * (BITS - 1) <= 2 ^ (BITS - 1)) by (apply two_n_le_pow; lia).
  replace BITS with (Z.succ (BITS - 1)) at 2 by lia.
  rewrite Z.pow_succ_r by lia. lia.
Qed.

Lemma pow_BITS : 2 ^ BITS = MAX BITS + 1.
Proof. unfold MAX. lia. Qed.

Lemma pow_pred_BITS : 2 * 2 ^ (BITS - 1) = MAX BITS + 1.
Proof.
  rewrite <- pow_BITS. replace BITS with (Z.succ (BITS - 1)) at 2 by lia.
  now rewrite Z.pow_succ_r by lia.
Qed.

Lemma pow_succ_BITS : 2 ^ (BITS + 1) = 2 * (MAX BITS + 1).
Proof. rewrite <- pow_BITS. rewrite Z.pow_add_r by lia. lia. Qed.

Lemma mod_q a b q : 0 <= a - q * b < b -> a mod b = a - q * b.
Proof. intros Hr. symmetry. apply (Z.mod_unique a b q); lia. Qed.

Lemma div_q a b q : 0 <= a - q * b < b -> a / b = q.
Proof. intros Hr. symmetry. apply (Z.div_unique a b q (a - q * b)); lia. Qed.

Ltac bools :=
  repeat match goal with
    | |- context [(?a <=? ?b)] =>
        first [rewrite (proj2 (Z.leb_le a b)) by nia | rewrite (proj2 (Z.leb_gt a b)) by nia]
    | |- context [(?a <? ?b)] =>
        first [rewrite (proj2 (Z.ltb_lt a b)) by nia | rewrite (proj2 (Z.ltb_ge a b)) by nia]
    | |- context [(?a >? ?b)] => rewrite (Z.gtb_ltb a b)
    | |- context [(?a >=? ?b)] => rewrite (Z.geb_leb a b)
    | |- context [(?a =? ?b)] =>
        first [rewrite (proj2 (Z.eqb_eq a b)) by nia | rewrite (proj2 (Z.eqb_neq a b)) by nia]
    end.

Ltac uints :=
  repeat match goal with
    | |- context [UInt BITS ?e] =>
        first [rewrite (UInt_in e) by nia | rewrite (UInt_out e) by nia]
    end.

Ltac wraps :=
  repeat first [rewrite wrap_l | rewrite wrap_r by nia | rewrite wrap_v by nia].

Ltac pows :=
  repeat first
    [ rewrite Z.pow_1_r | rewrite Z.pow_0_r
    | rewrite Z.pow_1_l by nia | rewrite Z.pow_0_l by nia ].

Ltac divs M :=
  repeat match goal with
    | |- context [Z.rem ?a ?b] => rewrite (Z.rem_mod_nonneg a b) by nia
    | |- context [Z.quot ?a ?b] => rewrite (Z.quot_div_nonneg a b) by nia
    | |- context [?a mod ?b] =>
        first [ rewrite (mod_q a b 0) by nia | rewrite (mod_q a b 1) by nia
              | rewrite (mod_q a b 2) by nia | rewrite (mod_q a b (M - 1)) by nia
              | rewrite (mod_q a b (M - 2)) by nia | rewrite (mod_q a b a) by nia ]
    | |- context [?a / ?b] =>
        first [ rewrite (div_q a b 0) by nia | rewrite (div_q a b 1) by nia
              | rewrite (div_q a b a) by nia ]
    end.

Ltac start :=
  pose proof MAX_at_least_3 as HM; pose proof BITS_fits as HB; pose proof pow_BITS as HpB;
  pose proof pow_pred_BITS as HpP; pose proof pow_succ_BITS as HpS.

Lemma CAddInvsTest_ok : CAddInvsTest BITS = true.
Proof. unfold CAddInvsTest, checkedAdd. start; uints; wraps. unfold checkedAddUnsafe, UIntT_eqb, MIN; cbn [v error].
  repeat (progress (bools; rewrite ?andb_false_r; cbn [andb negb v error]; pows; divs (MAX BITS))). reflexivity. Qed.

Lemma CSubInvsTest_ok : CSubInvsTest BITS = true.
Proof. unfold CSubInvsTest, checkedSub. start; uints; wraps. unfold checkedSubUnsafe, UIntT_eqb, MIN; cbn [v error].
  repeat (progress (bools; rewrite ?andb_false_r; cbn [andb negb v error]; pows; divs (MAX BITS))). reflexivity. Qed.

Lemma CMulInvsTest_ok : CMulInvsTest BITS = true.
Proof. unfold CMulInvsTest, checkedMul. start; uints; wraps. unfold checkedMulUnsafe, UIntT_eqb, MIN; cbn [v error].
  repeat (progress (bools; rewrite ?andb_false_r; cbn [andb negb v error]; pows; divs (MAX BITS))). reflexivity. Qed.

Lemma CDivInvsTest_ok : CDivInvsTest BITS = true.
Proof. unfold CDivInvsTest, checkedDiv. start; uints; wraps. unfold checkedDivUnsafe, UIntT_eqb, MIN; cbn [v error].
  repeat (progress (bools; rewrite ?andb_false_r; cbn [andb negb v error]; pows; divs (MAX BITS))). reflexivity. Qed.

Lemma CRemInvsTest_ok : CRemInvsTest BITS = true.
Proof. unfold CRemInvsTest, checkedRem. start; uints; wraps. unfold checkedRemUnsafe, UIntT_eqb, MIN; cbn [v error].
  repeat (progress (bools; rewrite ?andb_false_r; cbn [andb negb v error]; pows; divs (MAX BITS))). reflexivity. Qed.

Lemma CPowInvsTest_ok : CPowInvsTest BITS = true.
Proof. unfold CPowInvsTest, checkedPow. start; uints; wraps. unfold checkedPowUnsafe, UIntT_eqb, MIN; cbn [v error].
  repeat (progress (bools; rewrite ?andb_false_r; cbn [andb negb v error]; pows; divs (MAX BITS))). reflexivity. Qed.

Lemma SAddInvsTest_ok : SAddInvsTest BITS = true.
Proof. unfold SAddInvsTest, saturatingAdd. start; uints; wraps. unfold saturatingAddUnsafe, UIntT_eqb, MIN; cbn [v error].
  repeat (progress (bools; rewrite ?andb_false_r; cbn [andb negb v error]; pows; divs (MAX BITS))). reflexivity. Qed.

Lemma SSubInvsTest_ok : SSubInvsTest BITS = true.
Proof. unfold SSubInvsTest, saturatingSub. start; uints; wraps. unfold saturatingSubUnsafe, UIntT_eqb, MIN; cbn [v error].
  repeat (progress (bools; rewrite ?andb_false_r; cbn [andb negb v error]; pows; divs (MAX BITS))). reflexivity. Qed.

Lemma SMulInvsTest_ok : SMulInvsTest BITS = true.
Proof. unfold SMulInvsTest, saturatingMul. start; uints; wraps. unfold saturatingMulUnsafe, UIntT_eqb, MIN; cbn [v error].
  repeat (progress (bools; rewrite ?andb_false_r; cbn [andb negb v error]; pows; divs (MAX BITS))). reflexivity. Qed.

Lemma SPowInvsTest_ok : SPowInvsTest BITS = true.
Proof. unfold SPowInvsTest, saturatingPow. start; uints; wraps. unfold saturatingPowUnsafe, UIntT_eqb, MIN; cbn [v error].
  repeat (progress (bools; rewrite ?andb_false_r; cbn [andb negb v error]; pows; divs (MAX BITS))). reflexivity. Qed.

Lemma WAddInvsTest_ok : WAddInvsTest BITS = true.
Proof. unfold WAddInvsTest, wrappingAdd. start; uints; wraps. unfold wrappingAddUnsafe, UIntT_eqb, MIN; cbn [v error].
  repeat (progress (bools; rewrite ?andb_false_r; cbn [andb negb v error]; pows; divs (MAX BITS))). reflexivity. Qed.

Lemma WSubInvsTest_ok : WSubInvsTest BITS = true.
Proof. unfold WSubInvsTest, wrappingSub. start; uints; wraps. unfold wrappingSubUnsafe, UIntT_eqb, MIN; cbn [v error].
  repeat (progress (bools; rewrite ?andb_false_r; cbn [andb negb v error]; pows; divs (MAX BITS))). reflexivity. Qed.

Lemma WMulInvsTest_ok : WMulInvsTest BITS = true.
Proof. unfold WMulInvsTest, wrappingMul. start; uints; wraps. unfold wrappingMulUnsafe, UIntT_eqb, MIN; cbn [v error].
  repeat (progress (bools; rewrite ?andb_false_r; cbn [andb negb v error]; pows; divs (MAX BITS))). reflexivity. Qed.

Lemma WPowInvsTest_ok : WPowInvsTest BITS = true.
Proof. unfold WPowInvsTest, wrappingPow. start; uints; wraps. unfold wrappingPowUnsafe, UIntT_eqb, MIN; cbn [v error].
  repeat (progress (bools; rewrite ?andb_false_r; cbn [andb negb v error]; pows; divs (MAX BITS))). reflexivity. Qed.

Lemma AbsDiffTest_ok : AbsDiffTest BITS = true.
Proof. unfold AbsDiffTest, absDiff. start; uints; wraps. unfold absDiffUnsafe, UIntT_eqb, MIN; cbn [v error].
  repeat (progress (bools; rewrite ?andb_false_r; cbn [andb negb v error]; pows; divs (MAX BITS))). reflexivity. Qed.

(** X22: The tests of the module hold at every width above 1, not only at the
    widths 8, 16 and 32 the test modules instantiate: each of the fifteen
    test values evaluates to [true]. *)
Theorem tests_pass_at_every_width :
  BitsTest BITS = true
  /\ CAddInvsTest BITS = true /\ CSubInvsTest BITS = true /\ CMulInvsTest BITS = true
  /\ CDivInvsTest BITS = true /\ CRemInvsTest BITS = true /\ CPowInvsTest BITS = true
  /\ SAddInvsTest BITS = true /\ SSubInvsTest BITS = true /\ SMulInvsTest BITS = true
  /\ SPowInvsTest BITS = true
  /\ WAddInvsTest BITS = true /\ WSubInvsTest BITS = true /\ WMulInvsTest BITS = true
  /\ WPowInvsTest BITS = true
  /\ AbsDiffTest BITS = true.
Proof.
  split; [unfold BitsTest; rewrite Z.gtb_ltb; now apply Z.ltb_lt|].
  repeat split;
    auto using CAddInvsTest_ok, CSubInvsTest_ok, CMulInvsTest_ok, CDivInvsTest_ok,
      CRemInvsTest_ok, CPowInvsTest_ok, SAddInvsTest_ok, SSubInvsTest_ok, SMulInvsTest_ok,
      SPowInvsTest_ok, WAddInvsTest_ok, WSubInvsTest_ok, WMulInvsTest_ok, WPowInvsTest_ok,
      AbsDiffTest_ok.
Qed.
End BoundedUIntTests.

(* ================================================================== *)
(** ** The effect listener *)

Section ToEffectFacts.
Import ToEffect.
Variable emptyVariables : Variables.

Lemma pop_push {A : Type} (x : A) (arr : list A) : pop (push x arr) = Some (x, arr).
Proof. unfold pop, push. rewrite rev_app_distr. simpl. now rewrite rev_involutive. Qed.

Lemma calls_app cs cs' st :
  calls emptyVariables (cs ++ cs') st
  = match calls emptyVariables cs st with
    | Some st' => calls emptyVariables cs' st'
    | None => None
    end.
Proof.
  revert st. induction cs as [|c cs IH]; simpl; intros st; auto.
  destruct (call emptyVariables c st); auto.
Qed.

Lemma pushEffect_on_stack e eff top below vs sv :
  pushEffect e (mkVisitor eff (push top below) vs sv)
  = mkVisitor (Some e) (push (push e top) below) vs sv.
Proof. unfold pushEffect. simpl. now rewrite pop_push. Qed.

Lemma stateVarRefs_accumulate refs :
  forall st,
    calls emptyVariables (map CallExitStateVarRef refs) st
    = Some (mkVisitor (effect st) (effectStack st) (variablesStack st)
                      (stateVars st ++ refs)).
Proof.
  induction refs as [|r refs IH]; simpl; intros st.
  - rewrite app_nil_r. now destruct st.
  - rewrite IH. simpl. unfold push. now rewrite <- app_assoc.
Qed.

(** The walk of the variables of an effect leaves them on top of the stack
    of variables, and no state variable reference behind. *)
Lemma walkVars_pushes vars st :
  stateVars st = [] ->
  calls emptyVariables (walkVars vars) st
  = Some (mkVisitor (effect st) (effectStack st)
                    (push (variablesOf vars) (variablesStack st)) []).
Proof.
  intros Hsv. destruct vars as [refs|names]; simpl.
  - rewrite calls_app, stateVarRefs_accumulate. simpl. now rewrite Hsv.
  - destruct st as [eff stack vs sv]. simpl in *. subst sv.
    destruct names as [|name [|name' names]]; reflexivity.
Qed.

Lemma EffectTree_induction (P : EffectTree -> Prop) :
  (forall vars, P (ReadOnly vars)) ->
  (forall vars, P (UpdateOnly vars)) ->
  (forall read update, P (ReadAndUpdate read update)) ->
  P Pure ->
  (forall name, P (VarEffect name)) ->
  (forall children, Forall P children -> P (ArrowEffect children)) ->
  forall t, P t.
Proof.
  intros Hro Huo Hru Hp Hv Harrow.
  fix IH 1.
  intros [vars|vars|read update| |name|children];
    [apply Hro|apply Huo|apply Hru|exact Hp|apply Hv|].
  apply Harrow. induction children as [|child children IHc]; constructor.
  - apply IH.
  - exact IHc.
Qed.

Lemma walk_pushes_effect t :
  forall st,
    stateVars st = [] ->
    calls emptyVariables (walk t) st = Some (pushEffect (effectOf emptyVariables t) st).
Proof.
  induction t as [vars|vars|read update| |name|children IHc] using EffectTree_induction;
    intros st Hsv.
  - simpl. rewrite calls_app, walkVars_pushes by assumption. simpl.
    unfold exitReadOnly. simpl. rewrite pop_push. rewrite <- Hsv. now destruct st.
  - simpl. rewrite calls_app, walkVars_pushes by assumption. simpl.
    unfold exitUpdateOnly. simpl. rewrite pop_push. rewrite <- Hsv. now destruct st.
  - simpl. rewrite calls_app, walkVars_pushes by assumption.
    rewrite calls_app, walkVars_pushes by reflexivity. simpl.
    unfold exitReadAndUpdate. simpl. rewrite !pop_push. rewrite <- Hsv. now destruct st.
  - reflexivity.
  - reflexivity.
  - destruct st as [eff stack vs sv]. simpl in Hsv. subst sv.
    assert (Hchildren :
              forall acc eff0,
              exists eff1,
                calls emptyVariables (flat_map walk children)
                      (mkVisitor eff0 (push acc stack) vs [])
                = Some (mkVisitor eff1
                          (push (acc ++ map (effectOf emptyVariables) children)%list stack)
                          vs [])).
    { induction IHc as [|child children Hchild _ IH]; intros acc eff0.
      - exists eff0. simpl. now rewrite app_nil_r.
      - simpl. rewrite calls_app, Hchild by reflexivity.
        rewrite pushEffect_on_stack.
        destruct (IH (push (effectOf emptyVariables child) acc)
                     (Some (effectOf emptyVariables child))) as [eff1 Heq].
        exists eff1. rewrite Heq. unfold push. now rewrite <- app_assoc. }
    destruct (Hchildren [] eff) as [eff1 Heq].
    cbn [walk calls call]. unfold enterArrowEffect. cbn [effect effectStack variablesStack
                                                         stateVars].
    rewrite calls_app, Heq. cbn [calls call app effectOf].
    unfold exitArrowEffect. cbn [effect effectStack variablesStack stateVars].
    rewrite pop_push. reflexivity.
Qed.

(** X23: The listener builds the effect of the tree it is walked over.  On a
    visitor with no pending state variable reference, the calls of the walk
    of a tree all succeed and amount to one [pushEffect] of the tree's
    effect: the effect becomes the current one, it is appended to the
    effects of the enclosing arrow when there is one, and the stacks are
    otherwise as before.  On a new visitor the result is the tree's effect
    over empty stacks. *)
Theorem walk_builds_the_effect t :
  (forall st,
      stateVars st = [] ->
      calls emptyVariables (walk t) st = Some (pushEffect (effectOf emptyVariables t) st))
  /\ calls emptyVariables (walk t) newToEffectVisitor
     = Some (mkVisitor (Some (effectOf emptyVariables t)) [] [] [])
  /\ (forall eff enclosing below vs,
         calls emptyVariables (walk t) (mkVisitor eff (push enclosing below) vs [])
         = Some (mkVisitor (Some (effectOf emptyVariables t))
                           (push (push (effectOf emptyVariables t) enclosing) below) vs [])).
Proof.
  split; [apply walk_pushes_effect|]. split.
  - now rewrite walk_pushes_effect.
  - intros eff enclosing below vs.
    rewrite walk_pushes_effect by reflexivity. now rewrite pushEffect_on_stack.
Qed.

(** The variables of an effect: the state variable references that came
    since the last variables are taken, in their order, as concrete
    variables, and forgotten; a quantification over one name is that
    quantification, over any other number of names the union of the
    quantifications, in their order. *)
Theorem variables_of_a_walk st refs names :
  calls emptyVariables (walkVars (ConcreteVars refs)) st
  = Some (mkVisitor (effect st) (effectStack st)
                    (push (VarsConcrete (stateVars st ++ refs)) (variablesStack st)) [])
  /\ (List.length names <> 1%nat ->
      exitQuantification names st
      = Some (mkVisitor (effect st) (effectStack st)
                        (push (VarsUnion (map VarsQuantification names)) (variablesStack st))
                        (stateVars st)))
  /\ (forall name,
         exitQuantification [name] st
         = Some (mkVisitor (effect st) (effectStack st)
                           (push (VarsQuantification name) (variablesStack st))
                           (stateVars st))).
Proof.
  split; [|split].
  - simpl. rewrite calls_app, stateVarRefs_accumulate. reflexivity.
  - intros Hlen. destruct names as [|name [|name' names]]; simpl in *; try reflexivity.
    contradiction.
  - reflexivity.
Qed.
End ToEffectFacts.

(* ================================================================== *)
(** ** The votes of the [option] module *)

Section OptionModuleFacts.
Import OptionModule.
Local Open Scope Z_scope.

Local Abbreviation add_vote := (fun sum v => match v with Some n => sum + n | None => sum end).

Lemma sum_from (l : list (option Z)) a :
  fold_left add_vote l a = a + fold_left add_vote l 0.
Proof.
  revert a. induction l as [|[n|] l IH]; simpl; intros a; try lia.
  - rewrite (IH (a + n)), (IH n). lia.
  - apply IH.
Qed.

Lemma sum_replaceAt (l : list (option Z)) i n :
  nth_error l i = Some (Some n) ->
  fold_left add_vote (replaceAt l i None) 0 = fold_left add_vote l 0 - n.
Proof.
  revert i. induction l as [|v l IH]; intros [|i]; simpl; try discriminate.
  - intros [= ->]. rewrite (sum_from l n). lia.
  - intros Hnth. destruct v as [m|]; simpl.
    + rewrite (sum_from _ m), (sum_from l m), (IH i Hnth). lia.
    + now apply IH.
Qed.

Lemma replaceAt_length {A : Type} (l : list A) i x :
  List.length (replaceAt l i x) = List.length l.
Proof. revert i. induction l as [|y l IH]; intros [|i]; simpl; auto. Qed.

Lemma replaceAt_nth {A : Type} (l : list A) i x :
  (i < List.length l)%nat -> nth_error (replaceAt l i x) i = Some x.
Proof.
  revert i. induction l as [|y l IH]; intros [|i]; simpl; intros Hlt; try lia; auto.
  apply IH. lia.
Qed.

Lemma count_replaceAt (l : list (option Z)) i n :
  nth_error l i = Some (Some n) ->
  List.length (filter isNone (replaceAt l i None)) = S (List.length (filter isNone l)).
Proof.
  revert i. induction l as [|v l IH]; intros [|i]; simpl; try discriminate.
  - now intros [= ->].
  - intros Hnth. destruct v as [m|]; simpl; rewrite (IH i Hnth); reflexivity.
Qed.

(** X24: A step of the votes.  A vote is always possible: it appends the vote
    and the sum of the votes grows by it.  A withdrawal is possible exactly
    at an index that holds a vote: it keeps the number of entries, puts
    [None] there and the sum loses that vote, so that it cannot be repeated
    at that index.  In both cases the new outcome is the sum of the votes
    before the step. *)
Theorem step_of_the_votes s :
  (forall v, exists s',
      step (Vote v) s = Some s'
      /\ votes s' = (votes s ++ [Some v])%list
      /\ sumVotes s' = sumVotes s + v
      /\ outcome s' = sumVotes s)
  /\ (forall i s',
      step (Unvote i) s = Some s' ->
      exists n,
        nth_error (votes s) i = Some (Some n)
        /\ List.length (votes s') = List.length (votes s)
        /\ nth_error (votes s') i = Some None
        /\ sumVotes s' = sumVotes s - n
        /\ outcome s' = sumVotes s
        /\ step (Unvote i) s' = None)
  /\ (forall i,
      step (Unvote i) s = None
      <-> nth_error (votes s) i = None \/ nth_error (votes s) i = Some None).
Proof.
  split; [|split].
  - intros v. eexists. split; [reflexivity|]. simpl. repeat split.
    unfold sumVotes. simpl. rewrite fold_left_app. reflexivity.
  - intros i s' Hstep. unfold step, unvote in Hstep.
    destruct (nth_error (votes s) i) as [[n|]|] eqn:Hnth; try discriminate.
    injection Hstep as <-. exists n. simpl.
    assert (Hlt : (i < List.length (votes s))%nat).
    { apply nth_error_Some. congruence. }
    split; [reflexivity|]. split; [apply replaceAt_length|].
    split; [now apply replaceAt_nth|].
    split; [now apply sum_replaceAt|]. split; [reflexivity|].
    unfold step, unvote. cbn [votes]. now rewrite replaceAt_nth.
  - intros i. unfold step, unvote.
    destruct (nth_error (votes s) i) as [[n|]|]; split; intros; auto; try discriminate.
    intuition discriminate.
Qed.

Lemma run_app cs cs' s :
  run (cs ++ cs') s
  = match run cs s with
    | Some s' => run cs' s'
    | None => None
    end.
Proof.
  revert s. induction cs as [|c cs IH]; simpl; intros s; auto.
  destruct (step c s); auto.
Qed.

Lemma run_counts cs :
  forall s s',
    run cs s = Some s' ->
    List.length (votes s')
    = (List.length (votes s) + List.length (filter isVote cs))%nat
    /\ List.length (filter isNone (votes s'))
       = (List.length (filter isNone (votes s))
          + List.length (filter (fun c => negb (isVote c)) cs))%nat.
Proof.
  induction cs as [|c cs IH]; simpl; intros s s' Hrun.
  - injection Hrun as <-. lia.
  - destruct (step c s) as [s1|] eqn:Hstep; [|discriminate].
    destruct (IH s1 s' Hrun) as [Hlen Hnone].
    destruct c as [v|i]; unfold step, vote, unvote in Hstep; simpl in *.
    + injection Hstep as <-. simpl in *.
      rewrite length_app in Hlen. rewrite filter_app, length_app in Hnone.
      simpl in *. lia.
    + destruct (nth_error (votes s) i) as [[n|]|] eqn:Hnth; try discriminate.
      injection Hstep as <-. simpl in *.
      rewrite replaceAt_length in Hlen.
      rewrite (count_replaceAt _ _ _ Hnth) in Hnone. lia.
Qed.

(** X25: After a run from the initial state, there are as many entries as votes
    were cast and as many withdrawn entries as withdrawals were made, so no
    more withdrawals than votes; and the outcome is the sum of the votes of
    the state before the last step. *)
Theorem run_of_the_votes cs s' :
  run cs init = Some s' ->
  List.length (votes s') = List.length (filter isVote cs)
  /\ List.length (filter isNone (votes s'))
     = List.length (filter (fun c => negb (isVote c)) cs)
  /\ (List.length (filter (fun c => negb (isVote c)) cs)
      <= List.length (filter isVote cs))%nat
  /\ (forall cs0 c, cs = (cs0 ++ [c])%list ->
        exists s0, run cs0 init = Some s0 /\ outcome s' = sumVotes s0).
Proof.
  intros Hrun. destruct (run_counts cs init s' Hrun) as [Hlen Hnone]. simpl in *.
  split; [exact Hlen|]. split; [exact Hnone|]. split.
  - rewrite <- Hnone, <- Hlen. apply filter_length_le.
  - intros cs0 c ->. rewrite run_app in Hrun.
    destruct (run cs0 init) as [s0|]; [|discriminate].
    exists s0. split; [reflexivity|]. simpl in Hrun.
    destruct (step c s0) as [s1|] eqn:Hstep; [|discriminate].
    injection Hrun as <-.
    destruct c as [v|i]; unfold step, vote, unvote in Hstep; simpl in Hstep.
    + now injection Hstep as <-.
    + destruct (nth_error (votes s0) i) as [[n|]|]; try discriminate.
      now injection Hstep as <-.
Qed.
End OptionModuleFacts.

(* ================================================================== *)
(** ** The further properties at sample inputs *)

Lemma module_entry_and_exit_witness :
  getDefinition "x" (enterModule moduleA stXY) = None
  /\ map_get "A" (definitionsByModule (exitModule moduleA stXY))
     = Some (definitionsByName stXY)
  /\ map_get "Bank" (definitionsByModule (exitModule moduleA stClient))
     = Some bankTable
  /\ errors (enterModule moduleA stXY) = errors stXY.
Proof.
  destruct (module_entry_and_exit moduleA stXY) as [Hempty [_ [_ [Hpub [_ [_ Hsilent]]]]]].
  destruct (module_entry_and_exit moduleA stClient) as [_ [_ [_ [_ [Hother _]]]]].
  split; [apply Hempty|]. split; [exact Hpub|]. split.
  - rewrite Hother; [reflexivity|discriminate].
  - apply Hsilent. reflexivity.
Defined.


Lemma unknown_name_rejected_witness :
  enterExport (H:=specCollaborators) (mkExport 15 "Bank" (Some "foo") None) stClient
  = pushError (specNameNotFoundError (DeclExport (mkExport 15 "Bank" (Some "foo") None)))
              stClient
  /\ definitionsByName
       (enterImport (H:=specCollaborators) (mkImport 16 "Bank" (Some "foo") None) stClient)
     = definitionsByName stClient.
Proof.
  assert (Hne : "foo" <> "") by discriminate.
  assert (Hstar : "foo" <> "*") by discriminate.
  destruct (unknown_name_rejected (H:=specCollaborators) stClient bankTable "foo" Hne Hstar)
    as [Hexp Himp].
  split.
  - apply Hexp; [discriminate|reflexivity|reflexivity|reflexivity].
  - apply Himp; [discriminate|reflexivity|reflexivity|reflexivity].
Defined.

Lemma registry_after_import_like_witness :
  definitionsByModule (enterExport (H:=specCollaborators) exportA stClient)
  = definitionsByModule stClient
  /\ map_get "B"
       (definitionsByModule
          (enterImport (H:=specCollaborators) (mkImport 17 "Bank" None (Some "B")) stClient))
     = Some (map_of_entries bankTable)
  /\ map_of_entries bankTable = bankTable.
Proof.
  destruct (registry_after_import_like (H:=specCollaborators) stClient)
    as [Hexp [_ [_ Himp]]].
  destruct (Himp (mkImport 17 "Bank" None (Some "B")) "B" bankTable)
    as [Hpub [Hcopy _]];
    [discriminate|reflexivity|reflexivity|discriminate|].
  split; [apply Hexp|]. split; [exact Hpub|].
  apply Hcopy. unfold map_wf. simpl. repeat constructor; simpl; intuition discriminate.
Defined.

Lemma collect_then_delete_witness :
  definitionsByName (collectDefinition (H:=specCollaborators) y3 None stX)
  = [("x", x1); ("y", y3)]
  /\ deleteDefinition "y" (collectDefinition (H:=specCollaborators) y3 None stX) = stX.
Proof.
  destruct (collect_then_delete (H:=specCollaborators) y3 None stX) as [_ Hfresh].
  destruct Hfresh as [Hlast Hback].
  - reflexivity.
  - discriminate.
  - simpl. intuition discriminate.
  - split; [exact Hlast|exact Hback].
Defined.

Lemma batch_silent_iff_no_conflict_witness :
  emitted stXY
    (collectDefinitions (H:=specCollaborators)
       [("z", topLevel KindVar 9 "z"); ("x", x1)] None stXY)
  = [].
Proof.
  apply (proj2 (batch_silent_iff_no_conflict (H:=specCollaborators)
                  [("z", topLevel KindVar 9 "z"); ("x", x1)] None stXY)).
  intros identifier def existing [Heq|[Heq|[]]] Hget;
    injection Heq as <- <-; simpl in Hget.
  - discriminate.
  - now injection Hget as <-.
Defined.

Lemma batch_lookup_witness :
  getDefinition "x" (collectDefinitions (H:=specCollaborators) [("x", x2)] None stXY)
  = Some x2
  /\ getDefinition "y" (collectDefinitions (H:=specCollaborators) [("x", x2)] None stXY)
     = Some y3.
Proof.
  assert (Hnew : map_wf [("x", x2)]).
  { unfold map_wf. simpl. repeat constructor. simpl. tauto. }
  assert (Hold : map_wf (definitionsByName stXY)).
  { unfold map_wf. simpl. repeat constructor; simpl; intuition discriminate. }
  destruct (batch_lookup (H:=specCollaborators) [("x", x2)] None stXY "x" Hnew Hold)
    as [Hx _].
  destruct (batch_lookup (H:=specCollaborators) [("x", x2)] None stXY "y" Hnew Hold)
    as [Hy _].
  split; [exact Hx|exact Hy].
Defined.

Lemma namespaces_are_not_empty_witness :
  namespaces (H:=specCollaborators) (DeclInstance instanceB2) stClient = ["B2"; "Client"]
  /\ "B2" <> "".
Proof.
  split; [reflexivity|].
  apply (proj1 (namespaces_are_not_empty (H:=specCollaborators)
                  (DeclInstance instanceB2) stClient)).
  simpl. auto.
Defined.

Lemma collectDefinitions_order_irrelevant_witness :
  getDefinition "x"
    (collectDefinitions (H:=specCollaborators) [("x", x2); ("z", y3)] None stXY)
  = getDefinition "x"
      (collectDefinitions (H:=specCollaborators) [("z", y3); ("x", x2)] None stXY).
Proof.
  apply (collectDefinitions_order_irrelevant (H:=specCollaborators)
           [("x", x2); ("z", y3)] [("z", y3); ("x", x2)] None stXY "x").
  - unfold map_wf. simpl. repeat constructor; simpl; intuition discriminate.
  - apply perm_swap.
Defined.

Lemma UInt_valid_iff_witness :
  BoundedUInt.isValid 8 (BoundedUInt.UInt 8 255) = true
  /\ BoundedUInt.UInt 8 (BoundedUInt.v (BoundedUInt.mkUIntT 7 "")) = BoundedUInt.mkUIntT 7 ""
  /\ BoundedUInt.error (BoundedUInt.UInt 8 256) = "out of range".
Proof.
  destruct (UInt_valid_iff 8 255 (BoundedUInt.mkUIntT 7 "")) as [Hiff [_ [_ Hback]]].
  destruct (UInt_valid_iff 8 256 (BoundedUInt.mkUIntT 7 "")) as [_ [_ [Hout _]]].
  split; [apply Hiff; unfold BoundedUInt.MAX; simpl; lia|].
  split; [apply Hback; reflexivity|].
  apply Hout. unfold BoundedUInt.MAX. simpl. lia.
Defined.

Lemma wrapErrorBin_keeps_errors_witness :
  BoundedUInt.checkedAdd 8 (BoundedUInt.UInt 8 300) (BoundedUInt.UInt 8 1)
  = BoundedUInt.UInt 8 300
  /\ BoundedUInt.checkedAdd 8 (BoundedUInt.UInt 8 1) (BoundedUInt.UInt 8 300)
     = BoundedUInt.UInt 8 300.
Proof.
  destruct (wrapErrorBin_keeps_errors 8 (BoundedUInt.UInt 8 300) (BoundedUInt.UInt 8 1)
              (BoundedUInt.checkedAddUnsafe 8)) as [Hleft _].
  destruct (wrapErrorBin_keeps_errors 8 (BoundedUInt.UInt 8 1) (BoundedUInt.UInt 8 300)
              (BoundedUInt.checkedAddUnsafe 8)) as [_ [Hright _]].
  split.
  - apply Hleft. discriminate.
  - apply Hright; [reflexivity|discriminate].
Defined.

Lemma checked_arithmetic_is_exact_witness :
  BoundedUInt.v (BoundedUInt.checkedAdd 8 (BoundedUInt.UInt 8 200) (BoundedUInt.UInt 8 100))
  = 300%Z
  /\ BoundedUInt.error
       (BoundedUInt.checkedAdd 8 (BoundedUInt.UInt 8 200) (BoundedUInt.UInt 8 100))
     = "overflow"
  /\ BoundedUInt.error
       (BoundedUInt.checkedSub 8 (BoundedUInt.UInt 8 100) (BoundedUInt.UInt 8 200))
     = "underflow".
Proof.
  destruct (checked_arithmetic_is_exact 8 (BoundedUInt.UInt 8 200) (BoundedUInt.UInt 8 100)
              eq_refl eq_refl) as [[Hv [_ Hover]] _].
  destruct (checked_arithmetic_is_exact 8 (BoundedUInt.UInt 8 100) (BoundedUInt.UInt 8 200)
              eq_refl eq_refl) as [_ [[_ [_ Hunder]] _]].
  split; [exact Hv|]. split.
  - apply Hover. unfold BoundedUInt.MAX. simpl. lia.
  - apply Hunder. simpl. lia.
Defined.

Lemma checked_division_witness :
  BoundedUInt.error
    (BoundedUInt.checkedDiv 8 (BoundedUInt.UInt 8 200) (BoundedUInt.UInt 8 0))
  = "division by zero"
  /\ (200 = 7 * BoundedUInt.v
                  (BoundedUInt.checkedDiv 8 (BoundedUInt.UInt 8 200) (BoundedUInt.UInt 8 7))
            + BoundedUInt.v
                (BoundedUInt.checkedRem 8 (BoundedUInt.UInt 8 200) (BoundedUInt.UInt 8 7)))%Z.
Proof.
  destruct (checked_division 8 (BoundedUInt.UInt 8 200) (BoundedUInt.UInt 8 0)
              eq_refl eq_refl) as [Hzero _].
  destruct (checked_division 8 (BoundedUInt.UInt 8 200) (BoundedUInt.UInt 8 7)
              eq_refl eq_refl) as [_ Hdiv].
  split.
  - apply Hzero. reflexivity.
  - apply Hdiv. simpl. lia.
Defined.

Lemma saturating_arithmetic_witness :
  BoundedUInt.saturatingAdd 8 (BoundedUInt.UInt 8 200) (BoundedUInt.UInt 8 100)
  = BoundedUInt.mkUIntT 255 ""
  /\ BoundedUInt.saturatingSub 8 (BoundedUInt.UInt 8 100) (BoundedUInt.UInt 8 200)
     = BoundedUInt.mkUIntT 0 "".
Proof.
  destruct (saturating_arithmetic 8 (BoundedUInt.UInt 8 200) (BoundedUInt.UInt 8 100)
              eq_refl eq_refl) as [Hadd _].
  destruct (saturating_arithmetic 8 (BoundedUInt.UInt 8 100) (BoundedUInt.UInt 8 200)
              eq_refl eq_refl) as [_ [Hsub _]].
  split; [exact Hadd|exact Hsub].
Defined.

Lemma wrapping_arithmetic_witness :
  BoundedUInt.wrappingAdd 8 (BoundedUInt.UInt 8 200) (BoundedUInt.UInt 8 100)
  = BoundedUInt.mkUIntT 44 ""
  /\ BoundedUInt.wrappingSub 8 (BoundedUInt.UInt 8 100) (BoundedUInt.UInt 8 200)
     = BoundedUInt.mkUIntT 156 "".
Proof.
  destruct (wrapping_arithmetic 8 (BoundedUInt.UInt 8 200) (BoundedUInt.UInt 8 100)
              eq_refl eq_refl) as [Hadd _].
  destruct (wrapping_arithmetic 8 (BoundedUInt.UInt 8 100) (BoundedUInt.UInt 8 200)
              eq_refl eq_refl) as [_ [Hsub _]].
  split; [exact Hadd|exact Hsub].
Defined.

Lemma wrapping_add_sub_inverse_witness :
  BoundedUInt.wrappingSub 8
    (BoundedUInt.wrappingAdd 8 (BoundedUInt.UInt 8 200) (BoundedUInt.UInt 8 100))
    (BoundedUInt.UInt 8 100)
  = BoundedUInt.UInt 8 200.
Proof.
  apply (wrapping_add_sub_inverse 8 (BoundedUInt.UInt 8 200) (BoundedUInt.UInt 8 100)
           eq_refl eq_refl).
Defined.

Lemma absDiff_properties_witness :
  BoundedUInt.absDiff 8 (BoundedUInt.UInt 8 100) (BoundedUInt.UInt 8 200)
  = BoundedUInt.absDiff 8 (BoundedUInt.UInt 8 200) (BoundedUInt.UInt 8 100).
Proof.
  apply (absDiff_properties 8 (BoundedUInt.UInt 8 100) (BoundedUInt.UInt 8 200)
           eq_refl eq_refl).
Defined.

Lemma families_agree_without_overflow_witness :
  BoundedUInt.saturatingMul 8 (BoundedUInt.UInt 8 12) (BoundedUInt.UInt 8 20)
  = BoundedUInt.checkedMul 8 (BoundedUInt.UInt 8 12) (BoundedUInt.UInt 8 20)
  /\ BoundedUInt.wrappingMul 8 (BoundedUInt.UInt 8 12) (BoundedUInt.UInt 8 20)
     = BoundedUInt.checkedMul 8 (BoundedUInt.UInt 8 12) (BoundedUInt.UInt 8 20).
Proof.
  destruct (families_agree_without_overflow 8 (BoundedUInt.UInt 8 12) (BoundedUInt.UInt 8 20))
    as [_ [_ [Hmul _]]].
  apply Hmul. reflexivity.
Defined.

Lemma powers_witness :
  BoundedUInt.checkedPow 8 (BoundedUInt.UInt 8 0) (BoundedUInt.UInt 8 0)
  = BoundedUInt.mkUIntT 1 "undefined"
  /\ BoundedUInt.wrappingPow 8 (BoundedUInt.UInt 8 3) (BoundedUInt.UInt 8 6)
     = BoundedUInt.mkUIntT 217 "".
Proof.
  destruct (powers 8 (BoundedUInt.UInt 8 0) (BoundedUInt.UInt 8 0) eq_refl eq_refl)
    as [Hundef _].
  destruct (powers 8 (BoundedUInt.UInt 8 3) (BoundedUInt.UInt 8 6) eq_refl eq_refl)
    as [_ Hpow].
  split.
  - apply Hundef. split; reflexivity.
  - destruct Hpow as [_ [_ [_ Hw]]]; [|exact Hw].
    simpl. lia.
Defined.

Lemma add_mul_commute_witness :
  BoundedUInt.wrappingMul 8 (BoundedUInt.UInt 8 100) (BoundedUInt.UInt 8 200)
  = BoundedUInt.wrappingMul 8 (BoundedUInt.UInt 8 200) (BoundedUInt.UInt 8 100).
Proof.
  apply (add_mul_commute 8 (BoundedUInt.UInt 8 100) (BoundedUInt.UInt 8 200)
           eq_refl eq_refl).
Defined.

Lemma tests_pass_at_every_width_witness :
  BoundedUInt_Test.WMulInvsTest 8 = true /\ BoundedUInt_Test.CPowInvsTest 16 = true.
Proof.
  assert (H8 : (1 < 8)%Z) by lia.
  assert (H16 : (1 < 16)%Z) by lia.
  split.
  - apply (tests_pass_at_every_width 8 H8).
  - apply (tests_pass_at_every_width 16 H16).
Defined.

Lemma walk_builds_the_effect_witness :
  ToEffect.calls (ToEffect.VarsConcrete [])
    (ToEffect.walk
       (ToEffect.ArrowEffect
          [ToEffect.ReadOnly (ToEffect.ConcreteVars ["x"; "y"]);
           ToEffect.VarEffect "e"]))
    ToEffect.newToEffectVisitor
  = Some (ToEffect.mkVisitor
            (Some (ToEffect.EffArrow
                     [ToEffect.EffConcrete (ToEffect.VarsConcrete ["x"; "y"])
                                           (ToEffect.VarsConcrete []);
                      ToEffect.EffVar "e"]))
            [] [] []).
Proof.
  destruct (walk_builds_the_effect (ToEffect.VarsConcrete [])
              (ToEffect.ArrowEffect
                 [ToEffect.ReadOnly (ToEffect.ConcreteVars ["x"; "y"]);
                  ToEffect.VarEffect "e"])) as [Hany _].
  rewrite (Hany ToEffect.newToEffectVisitor eq_refl). reflexivity.
Defined.

Lemma step_of_the_votes_witness :
  OptionModule.step (OptionModule.Unvote 0) (OptionModule.mkState [Some 5%Z; Some 2%Z] 0)
  = Some (OptionModule.mkState [None; Some 2%Z] 7)
  /\ OptionModule.step (OptionModule.Unvote 0) (OptionModule.mkState [None; Some 2%Z] 7)
     = None.
Proof.
  destruct (step_of_the_votes (OptionModule.mkState [Some 5%Z; Some 2%Z] 0))
    as [_ [Hunvote _]].
  destruct (Hunvote 0%nat (OptionModule.mkState [None; Some 2%Z] 7) eq_refl)
    as [n [_ [_ [_ [_ [_ Hagain]]]]]].
  split; [reflexivity|exact Hagain].
Defined.

Lemma run_of_the_votes_witness :
  OptionModule.run
    [OptionModule.Vote 3; OptionModule.Vote 4; OptionModule.Unvote 0] OptionModule.init
  = Some (OptionModule.mkState [None; Some 4%Z] 7)
  /\ List.length (OptionModule.votes (OptionModule.mkState [None; Some 4%Z] 7)) = 2%nat.
Proof.
  split; [reflexivity|].
  apply (run_of_the_votes
           [OptionModule.Vote 3; OptionModule.Vote 4; OptionModule.Unvote 0]
           (OptionModule.mkState [None; Some 4%Z] 7) eq_refl).
Defined.

Lemma one_name_imported_witness :
  getDefinition "limit"
    (enterImport (H:=specCollaborators) (mkImport 12 "Bank" (Some "limit") None) stClient)
  = Some (collected (H:=specCollaborators) (topLevel KindConst 1 "limit")
            (Some (DeclImport (mkImport 12 "Bank" (Some "limit") None))) stClient)
  /\ getDefinition "balance"
       (enterImport (H:=specCollaborators) (mkImport 12 "Bank" (Some "limit") None) stClient)
     = None.
Proof.
  assert (Hne : "limit" <> "") by discriminate.
  assert (Hstar : "limit" <> "*") by discriminate.
  assert (Hunder : "limit" <> "_") by discriminate.
  assert (Hbuiltin : ~ In "limit" (builtinNames (Collaborators:=specCollaborators))).
  { simpl. intuition discriminate. }
  assert (Hsame : forall existing,
             getDefinition "limit" stClient = Some existing ->
             def_id existing = def_id (topLevel KindConst 1 "limit")).
  { intros existing Hget. discriminate Hget. }
  destruct (one_name_imported (H:=specCollaborators) stClient bankTable "limit"
              (topLevel KindConst 1 "limit") Hne Hstar Hunder Hbuiltin Hsame)
    as [_ Himport].
  assert (Hcur : imp_protoName (mkImport 12 "Bank" (Some "limit") None)
                 <> currentModuleName stClient) by discriminate.
  destruct (Himport (mkImport 12 "Bank" (Some "limit") None) Hcur eq_refl eq_refl eq_refl)
    as [Hbound [Hothers _]].
  split; [exact Hbound|].
  apply (Hothers "balance"). discriminate.
Defined.
